(** * CellPick: the k-center selection core and the selection state manager

    Points carry rational coordinates.  Every Euclidean distance of the
    geometry primitives is represented by its square, which is an exact
    rational: the square root is strictly increasing on the non-negative
    numbers, so every comparison, minimum and maximum the selectors take is
    the same on squares as on distances. *)

From Stdlib Require Import List Bool Arith ZArith QArith Qabs Qpower Lia Lqa Sorted Floats.
Import ListNotations.

Open Scope Q_scope.

(** ** Extended values: [None] is the [+infinity] sentinel *)

Section Ext.
Context {T : Type} (ltb : T -> T -> bool).

Definition ext_ltb (a b : option T) : bool :=
  match a, b with
  | Some x, Some y => ltb x y
  | Some _, None => true
  | None, _ => false
  end.

Definition ext_min (a b : option T) : option T :=
  if ext_ltb b a then b else a.
End Ext.

Definition Qltb (x y : Q) : bool := negb (Qle_bool y x).

(** ** Geometry primitives (algorithms.py, section 4.1 of the spec) *)

Record point := mkPoint { px : Q; py : Q }.
Definition polygon := list point.

Definition sq_norm (dx dy : Q) : Q := dx * dx + dy * dy.

Definition clamp01 (t : Q) : Q :=
  if Qle_bool t 0 then 0 else if Qle_bool 1 t then 1 else t.

(** Modelled from the spec: [point_segment_distance] of the missing module
    algorithms.py, squared.  Projection of [p] on the line through [a] and
    [b], parameter clamped to [0,1]; a degenerate segment ([a = b]) falls back
    to the point-to-point distance. *)
Definition point_segment_distance_sq (p a b : point) : Q :=
  let dx := px b - px a in
  let dy := py b - py a in
  let len2 := sq_norm dx dy in
  if Qeq_bool len2 0 then sq_norm (px p - px a) (py p - py a)
  else
    let t := clamp01 (((px p - px a) * dx + (py p - py a) * dy) / len2) in
    sq_norm (px p - (px a + t * dx)) (py p - (py a + t * dy)).

(** The edges of a polygon: consecutive vertices, wrapping last to first. *)
Definition edges (poly : polygon) : list (point * point) :=
  match poly with
  | [] => []
  | p0 :: rest => combine poly (rest ++ [p0])
  end.

(** Modelled from the spec: [point_polygon_distance] (algorithms.py),
    squared: the minimum over the edges.  The spec leaves polygons with fewer
    than two vertices undefined; an empty polygon gives [+infinity] here. *)
Definition point_polygon_distance_sq (p : point) (poly : polygon) : option Q :=
  fold_left (fun acc e => ext_min Qltb acc (Some (point_segment_distance_sq p (fst e) (snd e))))
    (edges poly) None.

(** The early-exit threshold [1e-9] of the spec, squared. *)
Definition eps_sq : Q := 1 # (10 ^ 18).

Definition vertices_to_polygon_sq (a b : polygon) : option Q :=
  fold_left (fun acc v => ext_min Qltb acc (point_polygon_distance_sq v b)) a None.

(** Modelled from the spec: [polygon_polygon_distance] (algorithms.py),
    squared: the minimum over the vertices of [a] of their distance to [b],
    symmetrised by the vertices of [b] against [a]; a minimum below the
    epsilon [1e-9] is returned as [0].  The value is returned in lowest terms
    ([Qred]), one rational per real number. *)
Definition polygon_polygon_distance_sq (a b : polygon) : option Q :=
  match ext_min Qltb (vertices_to_polygon_sq a b) (vertices_to_polygon_sq b a) with
  | Some m => if Qltb m eps_sq then Some 0 else Some (Qred m)
  | None => None
  end.

(** ** Minimum pairwise distance diagnostic (section 4.5 of the spec) *)

(** All pairs [(i, j)] with [i < j < n], in the order of the loops
    [for i in range(n): for j in range(i + 1, n)]. *)
Definition index_pairs (n : nat) : list (nat * nat) :=
  flat_map (fun i => map (fun j => (i, j)) (seq (S i) (n - S i))) (seq 0 n).

(** Modelled from the spec: [polygon_mindist] / [min_pairwise_distance] of
    the missing module algorithms.py, squared: the minimum of
    [polygon_polygon_distance] over the unordered pairs, [+infinity] when
    there are fewer than two polygons. *)
Definition min_pairwise_distance_sq (polys : list polygon) : option Q :=
  fold_left
    (fun acc ij => ext_min Qltb acc
                     (polygon_polygon_distance_sq (nth (fst ij) polys []) (nth (snd ij) polys [])))
    (index_pairs (length polys)) None.

(** ** The Gonzalez k-center selector (section 4.3 of the spec) *)

Inductive select_error := InvalidInput.

Inductive result (A : Type) :=
| Ok (a : A)
| Err (e : select_error).
Arguments Ok {A} a.
Arguments Err {A} e.

Section KCenter.
Context {T : Type} (ltb : T -> T -> bool) (n : nat) (d : nat -> nat -> T).

Definition memb (i : nat) (l : list nat) : bool := existsb (Nat.eqb i) l.

(** Modelled from the spec: [min_dist_to_set] (section 4.2),
    [+infinity] on an empty set. *)
Definition min_dist_to_set (c : nat) (sel : list nat) : option T :=
  fold_left (fun acc i => ext_min ltb acc (Some (d c i))) sel None.

(** One scan step: an unchosen candidate replaces the best so far only if
    its distance is strictly larger, so ties keep the lowest index. *)
Definition pick_step (chosen : list nat) (best : option (nat * option T)) (i : nat)
  : option (nat * option T) :=
  if memb i chosen then best
  else
    let v := min_dist_to_set i chosen in
    match best with
    | None => Some (i, v)
    | Some (_, bv) => if ext_ltb ltb bv v then Some (i, v) else best
    end.

Definition pick (chosen : list nat) : option nat :=
  option_map fst (fold_left (pick_step chosen) (seq 0 n) None).

(** Repeat until [k] indices are chosen. *)
Fixpoint grow (k fuel : nat) (chosen : list nat) : list nat :=
  match fuel with
  | O => chosen
  | S f =>
      if (length chosen <? k)%nat then
        match pick chosen with
        | Some i => grow k f (chosen ++ [i])
        | None => chosen
        end
      else chosen
  end.

(** Modelled from the spec: [select_k_center] / [polygon_gonzalez] of the
    missing module algorithms.py, section 4.3: the failure semantics
    first, then steps 1 to 5. *)
Definition kcenter (k : Z) : result (list nat) :=
  if (n =? 0)%nat && (0 <? k)%Z then Err InvalidInput
  else if (Z.of_nat n <=? k)%Z then Ok (seq 0 n)
  else if (k <=? 0)%Z then Ok []
  else Ok (grow (Z.to_nat k) (Z.to_nat k) [0%nat]).
End KCenter.

Definition poly_dist (cands : list polygon) (i j : nat) : option Q :=
  polygon_polygon_distance_sq (nth i cands []) (nth j cands []).

Definition select_k_center (cands : list polygon) (k : Z) : result (list nat) :=
  kcenter (ext_ltb Qltb) (length cands) (poly_dist cands) k.

(** ** The round-robin multi-group selector (section 4.4 of the spec) *)

Inductive group_state :=
| Done (ids : list nat)
| Growing (ids : list nat).

Definition state_ids (s : group_state) : list nat :=
  match s with Done ids | Growing ids => ids end.

(** Steps 1 to 3 of the selector, for one group. *)
Definition group_init (k : Z) (g : list polygon) : result group_state :=
  let n := length g in
  if (n =? 0)%nat && (0 <? k)%Z then Err InvalidInput
  else if (Z.of_nat n <=? k)%Z then Ok (Done (seq 0 n))
  else if (k <=? 0)%Z then Ok (Done [])
  else Ok (Growing [0%nat]).

(** One greedy step of step 4, for one group, until it holds [k] indices. *)
Definition group_step (k : Z) (g : list polygon) (s : group_state) : group_state :=
  match s with
  | Done ids => Done ids
  | Growing ids =>
      if (length ids <? Z.to_nat k)%nat then
        match pick (ext_ltb Qltb) (length g) (poly_dist g) ids with
        | Some i => Growing (ids ++ [i])
        | None => Growing ids
        end
      else Growing ids
  end.

(** One round: every group takes its next greedy step, in group order. *)
Definition rr_round (k : Z) (st : list (list polygon * group_state))
  : list (list polygon * group_state) :=
  map (fun p => (fst p, group_step k (fst p) (snd p))) st.

Fixpoint rr_rounds (k : Z) (r : nat) (st : list (list polygon * group_state))
  : list (list polygon * group_state) :=
  match r with
  | O => st
  | S r' => rr_rounds k r' (rr_round k st)
  end.

Fixpoint init_all (k : Z) (groups : list (list polygon))
  : result (list (list polygon * group_state)) :=
  match groups with
  | [] => Ok []
  | g :: gs =>
      match group_init k g with
      | Err e => Err e
      | Ok s =>
          match init_all k gs with
          | Err e => Err e
          | Ok st => Ok ((g, s) :: st)
          end
      end
  end.

(** The per-group undersupply flag: fewer than [k] indices (the test the
    caller AppStateManager.select_shapes applies to each group's result). *)
Definition undersupplied (k : Z) (ids : list nat) : bool := (Z.of_nat (length ids) <? k)%Z.

(** Modelled from the spec: [polygon_round_robin_gonzalez] /
    [select_k_per_group] of the missing module algorithms.py, section 4.4:
    the groups take their greedy steps in interleaved rounds, each in its own
    index space; a group that fails makes the whole call fail; each group's
    indices come with its undersupply flag. *)
Definition select_k_per_group (groups : list (list polygon)) (k : Z)
  : result (list (list nat * bool)) :=
  match init_all k groups with
  | Err e => Err e
  | Ok st =>
      Ok (map (fun p => (state_ids (snd p), undersupplied k (state_ids (snd p))))
            (rr_rounds k (Z.to_nat k) st))
  end.

(** The specification of section 4.4, as its words put it: [select_k_center]
    called independently on every group. *)
Fixpoint select_each_independently (groups : list (list polygon)) (k : Z)
  : result (list (list nat)) :=
  match groups with
  | [] => Ok []
  | g :: gs =>
      match select_k_center g k with
      | Err e => Err e
      | Ok r =>
          match select_each_independently gs k with
          | Err e => Err e
          | Ok rs => Ok (r :: rs)
          end
      end
  end.

(** ** The application state manager (components.py) *)

(** A shape of AppStateManager.shapes: its vertices and its score (the label,
    colour and original id of the Polygon class play no part here). *)
Record shape (R : Type) := mkShape { points : list point; score : option R }.
Arguments mkShape {R} points score.
Arguments points {R} s.
Arguments score {R} s.

(** Polygon.centroid: the mean of the vertices, [(0, 0)] for no vertex. *)
Definition centroid (pts : list point) : point :=
  match pts with
  | [] => mkPoint 0 0
  | _ =>
      let count := inject_Z (Z.of_nat (length pts)) in
      mkPoint (fold_left Qplus (map px pts) 0 / count) (fold_left Qplus (map py pts) 0 / count)
  end.

(** The attributes of AppStateManager that filter_by_ar reads and writes.
    Python lists are objects: [heap] holds them by address, and
    [active_shape_ids] and [selected_shape_ids] are addresses into it, so that
    the aliasing made by [self.selected_shape_ids = self.active_shape_ids] is
    visible. *)
Record app_state := mkState {
  shapes : list (shape Q);
  active_regions : list (list point);
  heap : list (list nat);
  active_shape_ids : nat;
  selected_shape_ids : nat }.

Section ActiveRegions.
(** [QPolygonF(ar).containsPoint(c, Qt.OddEvenFill)], provided by Qt. *)
Variable contains_point : list point -> point -> bool.

Definition is_contained (ars : list (list point)) (c : point) : bool :=
  existsb (fun ar => contains_point ar c) ars.

(** AppStateManager.filter_by_ar: a fresh list [active_shape_ids] receives,
    in increasing order, every shape index whose centroid lies in an active
    region; [selected_shape_ids] is then bound to that same list. *)
Definition filter_by_ar (st : app_state) : app_state :=
  let ids :=
    fold_left
      (fun acc i =>
         if is_contained (active_regions st) (centroid (points (nth i (shapes st) (mkShape [] None))))
         then acc ++ [i] else acc)
      (seq 0 (length (shapes st))) [] in
  let loc := length (heap st) in
  mkState (shapes st) (active_regions st) (heap st ++ [ids]) loc loc.

(** AppStateManager.update_active_shapes: an alias of filter_by_ar. *)
Definition update_active_shapes (st : app_state) : app_state := filter_by_ar st.
End ActiveRegions.

(** The warnings select_shapes shows through QMessageBox.warning. *)
Inductive warning :=
| CouldNotSelect (k : Z) (selected : nat)
| SomeContiguous.

(** AppStateManager.select_shapes with [clustering_index = 0] (k-center over
    the union of the active regions) and no label filter, so that
    [active_ids_for_selection] is [active_shape_ids]: the new
    [selected_shape_ids] and the warnings shown, in order.  Selection with fewer active shapes than or as
    many as [k] keeps them all and warns
    [f"Could not select {k} shapes, selected {len(self.active_shape_ids)}"];
    afterwards the selection is flagged when [polygon_mindist] is below
    [2.0] (its square below [4]). *)
Definition select_shapes_union (all_shapes : list (shape Q)) (active_ids : list nat) (k : Z)
  : result (list nat * list warning) :=
  let first :=
    if (Z.of_nat (length active_ids) <=? k)%Z then
      Ok (active_ids, [CouldNotSelect k (length active_ids)])
    else
      match select_k_center (map (fun i => points (nth i all_shapes (mkShape [] None))) active_ids) k with
      | Ok sel => Ok (map (fun i => nth i active_ids 0%nat) sel, [])
      | Err e => Err e
      end in
  match first with
  | Err e => Err e
  | Ok (selected, ws) =>
      let polys := map (fun i => points (nth i all_shapes (mkShape [] None))) selected in
      let contiguous :=
        match min_pairwise_distance_sq polys with
        | Some m => Qltb m 4
        | None => false
        end in
      Ok (selected, ws ++ (if contiguous then [SomeContiguous] else []))
  end.

Section Scores.
Context {R : Type} (add div : R -> R -> R) (eps9 : R).
(** [dist_to_polygon] of the missing module algorithms.py. *)
Variable dist_to_polygon : point -> list point -> R.

(** AppStateManager.set_scores: the assertion [len(self.landmarks) == 2]
    ([None] when it fails), then every shape gets the score
    [d1 / (d1 + d2 + 1e-9)] of its centroid's distances to the two
    landmarks. *)
Definition set_scores (landmarks : list (list point)) (shs : list (shape R))
  : option (list (shape R)) :=
  match landmarks with
  | [landmark1; landmark2] =>
      Some (map (fun sh =>
                   let c := centroid (points sh) in
                   let d1 := dist_to_polygon c landmark1 in
                   let d2 := dist_to_polygon c landmark2 in
                   mkShape (points sh) (Some (div d1 (add (add d1 d2) eps9)))) shs)
  | _ => None
  end.
End Scores.

Definition eps9 : Q := 1 # (10 ^ 9).

(** set_scores in exact rational arithmetic. *)
Definition set_scores_Q (dist_to_polygon : point -> list point -> Q) :=
  set_scores Qplus Qdiv eps9 dist_to_polygon.

(** set_scores in IEEE double precision, Python's float: [1e-9] is the
    double nearest to 10^-9, as Python reads the literal. *)
#[warnings="-inexact-float"]
Definition set_scores_float (dist_to_polygon : point -> list point -> float) :=
  set_scores PrimFloat.add PrimFloat.div 1e-9%float dist_to_polygon.

(** ** List operations of Python used below *)

(** [l.pop(n)] for an index [n] in range. *)
Fixpoint remove_nth {A : Type} (n : nat) (l : list A) : list A :=
  match n, l with
  | _, [] => []
  | O, _ :: t => t
  | S n', h :: t => h :: remove_nth n' t
  end.

(** [l[n] = x] for an index [n] in range. *)
Fixpoint set_nth {A : Type} (n : nat) (l : list A) (x : A) : list A :=
  match n, l with
  | _, [] => []
  | O, _ :: t => x :: t
  | S n', h :: t => h :: set_nth n' t x
  end.

(** The position of the first element satisfying [f]: the loop
    [for idx, x in enumerate(l): if f(x): ...; return]. *)
Fixpoint find_index {A : Type} (f : A -> bool) (l : list A) : option nat :=
  match l with
  | [] => None
  | x :: t => if f x then Some 0%nat else option_map S (find_index f t)
  end.

(** The Python list stored at address [a] of the heap. *)
Definition deref (st : app_state) (a : nat) : list nat := nth a (heap st) [].

Definition with_shapes (st : app_state) (shs : list (shape Q)) : app_state :=
  mkState shs (active_regions st) (heap st) (active_shape_ids st) (selected_shape_ids st).

Definition with_regions (st : app_state) (ars : list (list point)) : app_state :=
  mkState (shapes st) ars (heap st) (active_shape_ids st) (selected_shape_ids st).

(** The shape at index [i], as [self.shapes[i]]; the indices the code reads
    are those of [active_shape_ids] and [selected_shape_ids], all in range. *)
Definition shape_at (st : app_state) (i : nat) : shape Q := nth i (shapes st) (mkShape [] None).

(** ** Polygon.set_color *)

(** [QColor(red, green, blue)]. *)
Record color := mkColor { red : Z; green : Z; blue : Z }.

(** Python's [int] on a rational: truncation toward zero. *)
Definition py_int (x : Q) : Z := Z.quot (Qnum x) (Zpos (Qden x)).

(** Polygon.set_color: [if not self.score] holds for [None] and for [0.0],
    which both give magenta. *)
Definition set_color (score : option Q) : color :=
  match score with
  | None => mkColor 255 0 255
  | Some s =>
      if Qeq_bool s 0 then mkColor 255 0 255
      else
        let g := py_int (255 * s) in
        mkColor (255 - g) g 0
  end.

(** ** The workflow of AppStateManager *)

Inductive AppState :=
| HOME | ADV_HOME | MAIN | SELECTING_LND | DELETING_LND | SELECTING_AR
| DELETING_AR | ADDING_SHP | DELETING_SHP | SELECTING_CLB.

Definition AppState_eq_dec (a b : AppState) : {a = b} + {a <> b}.
Proof. decide equality. Defined.

Definition AppState_eqb (a b : AppState) : bool :=
  if AppState_eq_dec a b then true else false.

(** The attributes of AppStateManager, with those of app_state in [core];
    [confirm_lnd_enabled] and [confirm_ar_enabled] are whether the buttons
    [page2.confirm_lnd_btn] and [page2.confirm_ar_btn] are enabled, which
    the manager switches through [main_window]. *)
Record manager := mkManager {
  mstate : AppState;
  core : app_state;
  landmarks : list (list point);
  current_lnd_points : list point;
  current_ar_points : list point;
  calibration_points : list point;
  confirm_lnd_enabled : bool;
  confirm_ar_enabled : bool }.

Definition set_mstate (m : manager) (s : AppState) : manager :=
  mkManager s (core m) (landmarks m) (current_lnd_points m) (current_ar_points m)
    (calibration_points m) (confirm_lnd_enabled m) (confirm_ar_enabled m).

Definition set_core (m : manager) (c : app_state) : manager :=
  mkManager (mstate m) c (landmarks m) (current_lnd_points m) (current_ar_points m)
    (calibration_points m) (confirm_lnd_enabled m) (confirm_ar_enabled m).

Definition set_landmarks (m : manager) (l : list (list point)) : manager :=
  mkManager (mstate m) (core m) l (current_lnd_points m) (current_ar_points m)
    (calibration_points m) (confirm_lnd_enabled m) (confirm_ar_enabled m).

Definition set_current_lnd (m : manager) (l : list point) : manager :=
  mkManager (mstate m) (core m) (landmarks m) l (current_ar_points m)
    (calibration_points m) (confirm_lnd_enabled m) (confirm_ar_enabled m).

Definition set_current_ar (m : manager) (l : list point) : manager :=
  mkManager (mstate m) (core m) (landmarks m) (current_lnd_points m) l
    (calibration_points m) (confirm_lnd_enabled m) (confirm_ar_enabled m).

Definition set_calibration (m : manager) (l : list point) : manager :=
  mkManager (mstate m) (core m) (landmarks m) (current_lnd_points m) (current_ar_points m)
    l (confirm_lnd_enabled m) (confirm_ar_enabled m).

Definition set_confirm_lnd (m : manager) (b : bool) : manager :=
  mkManager (mstate m) (core m) (landmarks m) (current_lnd_points m) (current_ar_points m)
    (calibration_points m) b (confirm_ar_enabled m).

Definition set_confirm_ar (m : manager) (b : bool) : manager :=
  mkManager (mstate m) (core m) (landmarks m) (current_lnd_points m) (current_ar_points m)
    (calibration_points m) (confirm_lnd_enabled m) b.

Definition is_state (s : AppState) (m : manager) : bool := AppState_eqb (mstate m) s.

(** AppStateManager.reset_scores: every score back to [None]. *)
Definition reset_scores (shs : list (shape Q)) : list (shape Q) :=
  map (fun sh => mkShape (points sh) None) shs.

Section Workflow.
(** [QPolygonF(poly).containsPoint(p, Qt.OddEvenFill)], provided by Qt. *)
Variable contains_point : list point -> point -> bool.
(** [dist_to_polygon] of the missing module algorithms.py. *)
Variable dist_to_polygon : point -> list point -> Q.

(** Landmarks.  [None] is a failed [assert]. *)

Definition start_landmark_selection (m : manager) : manager :=
  set_current_lnd (set_mstate m SELECTING_LND) [].

Definition add_lnd_point (m : manager) (p : point) : option manager :=
  if is_state SELECTING_LND m then
    let cur := current_lnd_points m ++ [p] in
    let m1 := set_current_lnd m cur in
    Some (if (2 <? length cur)%nat then set_confirm_lnd m1 true else m1)
  else None.

Definition delete_last_lnd_point (m : manager) : option manager :=
  if is_state SELECTING_LND m then
    let cur := current_lnd_points m in
    let cur := if (0 <? length cur)%nat then removelast cur else cur in
    let m1 := set_current_lnd m cur in
    Some (if (length cur <=? 2)%nat then set_confirm_lnd m1 false else m1)
  else None.

Definition confirm_landmark (m : manager) : option manager :=
  if negb (is_state SELECTING_LND m) then None
  else if negb (2 <? length (current_lnd_points m))%nat then None
  else
    let lms := landmarks m ++ [current_lnd_points m] in
    let shs :=
      if (length lms =? 2)%nat then set_scores_Q dist_to_polygon lms (shapes (core m))
      else Some (shapes (core m)) in
    match shs with
    | None => None
    | Some shs =>
        Some (set_mstate (set_core (set_current_lnd (set_landmarks m lms) [])
                            (with_shapes (core m) shs)) MAIN)
    end.

Definition cancel_landmark (m : manager) : option manager :=
  if is_state SELECTING_LND m then Some (set_mstate (set_current_lnd m []) MAIN) else None.

Definition try_deleting_landmark (m : manager) (scene_pos : point) : manager :=
  match find_index (fun lnd => contains_point lnd scene_pos) (landmarks m) with
  | Some idx =>
      set_core (set_landmarks m (remove_nth idx (landmarks m)))
        (with_shapes (core m) (reset_scores (shapes (core m))))
  | None => m
  end.

(** Active regions. *)

Definition start_ar_selection (m : manager) : manager :=
  set_current_ar (set_mstate m SELECTING_AR) [].

Definition add_ar_point (m : manager) (p : point) : option manager :=
  if is_state SELECTING_AR m then
    let cur := current_ar_points m ++ [p] in
    let m1 := set_current_ar m cur in
    Some (if (2 <? length cur)%nat then set_confirm_ar m1 true else m1)
  else None.

Definition delete_last_ar_point (m : manager) : option manager :=
  if is_state SELECTING_AR m then
    let cur := current_ar_points m in
    let cur := if (0 <? length cur)%nat then removelast cur else cur in
    let m1 := set_current_ar m cur in
    Some (if (length cur <=? 2)%nat then set_confirm_ar m1 false else m1)
  else None.

Definition confirm_ar (m : manager) : option manager :=
  if negb (is_state SELECTING_AR m) then None
  else if negb (2 <? length (current_ar_points m))%nat then None
  else
    let ars := active_regions (core m) ++ [current_ar_points m] in
    Some (set_mstate (set_core (set_current_ar m [])
                        (filter_by_ar contains_point (with_regions (core m) ars))) MAIN).

Definition cancel_ar (m : manager) : option manager :=
  if is_state SELECTING_AR m then Some (set_mstate (set_current_ar m []) MAIN) else None.

Definition try_deleting_ar (m : manager) (scene_pos : point) : manager :=
  match find_index (fun ar => contains_point ar scene_pos) (active_regions (core m)) with
  | Some idx =>
      set_core m (filter_by_ar contains_point
                    (with_regions (core m) (remove_nth idx (active_regions (core m)))))
  | None => m
  end.

(** Adding and removing single shapes of the selection. *)

Definition try_adding_shp (st : app_state) (scene_pos : point) : app_state :=
  match find (fun idx => contains_point (points (shape_at st idx)) scene_pos)
             (deref st (active_shape_ids st)) with
  | Some idx =>
      mkState (shapes st) (active_regions st)
        (set_nth (selected_shape_ids st) (heap st) (deref st (selected_shape_ids st) ++ [idx]))
        (active_shape_ids st) (selected_shape_ids st)
  | None => st
  end.

Definition try_deleting_shp (st : app_state) (scene_pos : point) : app_state :=
  let sel := deref st (selected_shape_ids st) in
  match find_index (fun idx => contains_point (points (shape_at st idx)) scene_pos) sel with
  | Some i =>
      mkState (shapes st) (active_regions st)
        (set_nth (selected_shape_ids st) (heap st) (remove_nth i sel))
        (active_shape_ids st) (selected_shape_ids st)
  | None => st
  end.

(** Calibration. *)

Definition start_calibration_selection (m : manager) : manager :=
  set_mstate (set_calibration m []) SELECTING_CLB.

Definition end_calibration_selection (m : manager) : manager := set_mstate m ADV_HOME.

Definition add_calibration_point (m : manager) (scene_pos : point) : manager :=
  let cal := calibration_points m ++ [scene_pos] in
  let m1 := set_calibration m cal in
  if (length cal =? 3)%nat then set_mstate m1 ADV_HOME else m1.

(** ImageViewer.mousePressEvent on a right click at [scene_pos]: a chain of
    [if] (not [elif]) on the state, each test reading the state the previous
    handler left. *)
Definition when_state (s : AppState) (f : manager -> option manager) (om : option manager)
  : option manager :=
  match om with
  | None => None
  | Some m => if is_state s m then f m else Some m
  end.

Definition mousePressEvent (m : manager) (scene_pos : point) : option manager :=
  when_state SELECTING_CLB (fun m => Some (add_calibration_point m scene_pos))
  (when_state DELETING_SHP (fun m => Some (set_core m (try_deleting_shp (core m) scene_pos)))
  (when_state ADDING_SHP (fun m => Some (set_core m (try_adding_shp (core m) scene_pos)))
  (when_state DELETING_AR (fun m => Some (try_deleting_ar m scene_pos))
  (when_state SELECTING_AR (fun m => add_ar_point m scene_pos)
  (when_state DELETING_LND (fun m => Some (try_deleting_landmark m scene_pos))
  (when_state SELECTING_LND (fun m => add_lnd_point m scene_pos)
  (Some m))))))).

(** MainWindow.toggle_landmark_selection and toggle_ar_selection (ui_main.py):
    entering the selection disables every button of [page2], the confirm
    buttons among them; leaving it cancels and goes through
    reset_main_buttons, which disables them as well. *)
Definition disable_confirm_buttons (m : manager) : manager :=
  set_confirm_ar (set_confirm_lnd m false) false.

Definition reset_main_buttons (m : manager) : option manager :=
  if is_state MAIN m then Some (disable_confirm_buttons m) else None.

Definition toggle_landmark_selection (m : manager) : option manager :=
  if is_state MAIN m then Some (disable_confirm_buttons (start_landmark_selection m))
  else if is_state SELECTING_LND m then
    match cancel_landmark m with
    | Some m1 => reset_main_buttons m1
    | None => None
    end
  else None.

Definition toggle_ar_selection (m : manager) : option manager :=
  if is_state MAIN m then Some (disable_confirm_buttons (start_ar_selection m))
  else if is_state SELECTING_AR m then
    match cancel_ar m with
    | Some m1 => reset_main_buttons m1
    | None => None
    end
  else None.
End Workflow.

(** ** Cell labels *)

Section Labels.
Context {V : Type}.

(** A Python dict with integer keys, in insertion order. *)
Fixpoint dict_get (k : Z) (d : list (Z * V)) : option V :=
  match d with
  | [] => None
  | (k', v) :: t => if Z.eqb k k' then Some v else dict_get k t
  end.

Fixpoint dict_set (k : Z) (v : V) (d : list (Z * V)) : list (Z * V) :=
  match d with
  | [] => [(k, v)]
  | (k', v') :: t => if Z.eqb k k' then (k, v) :: t else (k', v') :: dict_set k v t
  end.
End Labels.

(** The [original_id_to_index] map of load_cell_labels, from the original
    id of every shape ([None] when it has none). *)
Definition original_id_to_index (orig : list (option Z)) : list (Z * Z) :=
  fold_left
    (fun acc p => match snd p with
                  | Some o => dict_set o (Z.of_nat (fst p)) acc
                  | None => acc
                  end)
    (combine (seq 0 (length orig)) orig) [].

Definition has_original_ids (orig : list (option Z)) : bool :=
  existsb (fun o => match o with Some _ => true | None => false end) orig.

(** AppStateManager.load_cell_labels: the new [cell_labels], from the
    original ids of the shapes and [labels_dict]. *)
Definition load_cell_labels {L : Type} (orig : list (option Z)) (labels_dict : list (Z * L))
  : list (Z * L) :=
  if has_original_ids orig then
    let m := original_id_to_index orig in
    fold_left
      (fun acc p => match dict_get (fst p) m with
                    | Some shape_idx => dict_set shape_idx (snd p) acc
                    | None => acc
                    end)
      labels_dict []
  else labels_dict.

(** ** select_shapes per active region and per label *)

Inductive clustering := UnionKCenter | PerRegion | PerLabel.

(** The messages select_shapes shows. *)
Inductive select_message :=
| NoLabelsLoaded
| NoShapesWithSelectedLabels
| CouldNotSelectAll (k : Z) (n : nat)
| CouldNotSelectPerAR (k : Z)
| CouldNotSelectPerLabel (k : Z)
| SomeShapesContiguous.

(** Appending every index to the group [f i] names ([None] stops the loop
    with an exception). *)
Definition group_into (f : nat -> option nat) (ngroups : nat) (ids : list nat)
  : option (list (list nat)) :=
  fold_left
    (fun acc i =>
       match acc with
       | None => None
       | Some groups =>
           match f i with
           | Some j => Some (set_nth j groups (nth j groups [] ++ [i]))
           | None => None
           end
       end)
    ids (Some (repeat [] ngroups)).

(** Running polygon_round_robin_gonzalez on the groups and mapping the
    indices back: the new selection and whether some group got fewer than
    [k]. *)
Definition select_per_group (st : app_state) (point_ids : list (list nat)) (k : Z)
  : option (list nat * bool) :=
  let polys := map (map (fun i => points (shape_at st i))) point_ids in
  match select_k_per_group polys k with
  | Err _ => None
  | Ok res =>
      let selected_idss := map fst res in
      Some (concat (map (fun p => map (fun idx => nth idx (fst p) 0%nat) (snd p))
                      (combine point_ids selected_idss)),
            existsb (fun ids => Z.of_nat (length ids) <? k)%Z selected_idss)
  end.

Section SelectShapes.
Context {L : Type} (L_eqb : L -> L -> bool).
Variable contains_point : list point -> point -> bool.

(** The label filter of select_shapes. *)
Definition filter_by_labels (cell_labels : list (Z * L)) (selected_labels : list L)
  (ids : list nat) : list nat :=
  filter (fun idx => match dict_get (Z.of_nat idx) cell_labels with
                     | Some label => existsb (L_eqb label) selected_labels
                     | None => false
                     end) ids.

Definition region_of (st : app_state) (i : nat) : option nat :=
  find_index (fun ar => contains_point ar (centroid (points (shape_at st i)))) (active_regions st).

Definition label_of (cell_labels : list (Z * L)) (selected_labels : list L) (i : nat)
  : option nat :=
  match dict_get (Z.of_nat i) cell_labels with
  | Some label => find_index (L_eqb label) selected_labels
  | None => None
  end.

(** AppStateManager.select_shapes for the clustering types 0 (k-center over
    the union), 2 (k per active region) and 3 (k per label); type 1 draws at
    random.  [None] is an exception (a failed [assert], or InvalidInput from
    the selector); otherwise the new state and the messages shown. *)
Definition select_shapes (mode : clustering) (selected_labels : option (list L))
  (cell_labels : list (Z * L)) (st : app_state) (k : Z)
  : option (app_state * list select_message) :=
  let active := deref st (active_shape_ids st) in
  let pre :=
    match mode with
    | PerLabel =>
        match selected_labels with
        | None => inl NoLabelsLoaded
        | Some labs =>
            match filter_by_labels cell_labels labs active with
            | [] => inl NoShapesWithSelectedLabels
            | f => inr (length (heap st),
                        mkState (shapes st) (active_regions st) (heap st ++ [f])
                          (active_shape_ids st) (selected_shape_ids st))
            end
        end
    | _ => inr (active_shape_ids st, st)
    end in
  match pre with
  | inl msg => Some (st, [msg])
  | inr (addr, st0) =>
      let ids := deref st0 addr in
      let chosen :=
        if (Z.of_nat (length ids) <=? k)%Z then
          Some (inl addr, [CouldNotSelectAll k (length active)])
        else
          match mode with
          | UnionKCenter =>
              match select_k_center (map (fun i => points (shape_at st0 i)) ids) k with
              | Ok sel => Some (inr (map (fun i => nth i ids 0%nat) sel), [])
              | Err _ => None
              end
          | PerRegion =>
              match group_into (region_of st0) (length (active_regions st0)) ids with
              | None => None
              | Some point_ids =>
                  match select_per_group st0 point_ids k with
                  | None => None
                  | Some (sel, short) =>
                      Some (inr sel, if short then [CouldNotSelectPerAR k] else [])
                  end
              end
          | PerLabel =>
              let labs := match selected_labels with Some l => l | None => [] end in
              match group_into (label_of cell_labels labs) (length labs) ids with
              | None => None
              | Some point_ids =>
                  match select_per_group st0 point_ids k with
                  | None => None
                  | Some (sel, short) =>
                      Some (inr sel, if short then [CouldNotSelectPerLabel k] else [])
                  end
              end
          end in
      match chosen with
      | None => None
      | Some (target, msgs) =>
          let st1 :=
            match target with
            | inl a => mkState (shapes st0) (active_regions st0) (heap st0) (active_shape_ids st0) a
            | inr sel =>
                mkState (shapes st0) (active_regions st0) (heap st0 ++ [sel])
                  (active_shape_ids st0) (length (heap st0))
            end in
          let polys := map (fun i => points (shape_at st1 i)) (deref st1 (selected_shape_ids st1)) in
          let contiguous :=
            match min_pairwise_distance_sq polys with
            | Some m => Qltb m 4
            | None => false
            end in
          Some (st1, msgs ++ (if contiguous then [SomeShapesContiguous] else []))
      end
  end.
End SelectShapes.

(** ** The user's edits while drawing a landmark or an active region *)

(** A right click on the image, or the Undo button. *)
Inductive edit := Click (p : point) | Undo.

Fixpoint run_lnd_edits (contains_point : list point -> point -> bool) (m : manager)
  (evs : list edit) : option manager :=
  match evs with
  | [] => Some m
  | e :: t =>
      match (match e with
             | Click p => mousePressEvent contains_point m p
             | Undo => delete_last_lnd_point m
             end) with
      | Some m1 => run_lnd_edits contains_point m1 t
      | None => None
      end
  end.

Fixpoint run_ar_edits (contains_point : list point -> point -> bool) (m : manager)
  (evs : list edit) : option manager :=
  match evs with
  | [] => Some m
  | e :: t =>
      match (match e with
             | Click p => mousePressEvent contains_point m p
             | Undo => delete_last_ar_point m
             end) with
      | Some m1 => run_ar_edits contains_point m1 t
      | None => None
      end
  end.

(** Right clicks only, as the calibration takes them. *)
Fixpoint run_clicks (contains_point : list point -> point -> bool) (m : manager)
  (ps : list point) : option manager :=
  match ps with
  | [] => Some m
  | p :: t =>
      match mousePressEvent contains_point m p with
      | Some m1 => run_clicks contains_point m1 t
      | None => None
      end
  end.

(** ** Facts about the comparisons *)

Section OrderFacts.
Context {T : Type} (ltb : T -> T -> bool).
Hypothesis ltb_irrefl : forall a, ltb a a = false.
Hypothesis ltb_trans : forall a b c, ltb a b = true -> ltb b c = true -> ltb a c = true.
Hypothesis ltb_cotrans : forall a b c, ltb a c = true -> ltb a b = true \/ ltb b c = true.

Lemma ext_ltb_irrefl a : ext_ltb ltb a a = false.
Proof. destruct a; simpl; auto. Qed.

Lemma ext_ltb_trans a b c :
  ext_ltb ltb a b = true -> ext_ltb ltb b c = true -> ext_ltb ltb a c = true.
Proof. destruct a, b, c; simpl; eauto; discriminate. Qed.

Lemma ext_ltb_cotrans a b c :
  ext_ltb ltb a c = true -> ext_ltb ltb a b = true \/ ext_ltb ltb b c = true.
Proof. destruct a, b, c; simpl; auto; discriminate. Qed.
End OrderFacts.

Lemma Qltb_iff x y : Qltb x y = true <-> x < y.
Proof.
  unfold Qltb. rewrite negb_true_iff. split.
  - intros H. apply Qnot_le_lt. intros Hle. apply Qle_bool_iff in Hle. congruence.
  - intros H. destruct (Qle_bool y x) eqn:E; auto.
    apply Qle_bool_iff in E. exfalso. apply (Qlt_not_le _ _ H E).
Qed.

Lemma Qltb_irrefl a : Qltb a a = false.
Proof. unfold Qltb. rewrite negb_false_iff. apply Qle_bool_iff, Qle_refl. Qed.

Lemma Qltb_trans a b c : Qltb a b = true -> Qltb b c = true -> Qltb a c = true.
Proof. rewrite !Qltb_iff. apply Qlt_trans. Qed.

Lemma Qltb_cotrans a b c : Qltb a c = true -> Qltb a b = true \/ Qltb b c = true.
Proof.
  rewrite !Qltb_iff. intros H. destruct (Qlt_le_dec a b) as [H1|H1]; auto.
  right. apply (Qle_lt_trans _ _ _ H1 H).
Qed.

(** The comparison of [option Q] distances the selector is instantiated with. *)
Definition dist_ltb : option Q -> option Q -> bool := ext_ltb Qltb.

Lemma dist_ltb_irrefl a : dist_ltb a a = false.
Proof. apply ext_ltb_irrefl, Qltb_irrefl. Qed.

Lemma dist_ltb_trans a b c : dist_ltb a b = true -> dist_ltb b c = true -> dist_ltb a c = true.
Proof. apply ext_ltb_trans, Qltb_trans. Qed.

Lemma dist_ltb_cotrans a b c : dist_ltb a c = true -> dist_ltb a b = true \/ dist_ltb b c = true.
Proof. apply ext_ltb_cotrans, Qltb_cotrans. Qed.

Lemma memb_In i l : memb i l = true <-> In i l.
Proof.
  unfold memb. rewrite existsb_exists. split.
  - intros [x [Hx He]]. apply Nat.eqb_eq in He. subst. exact Hx.
  - intros H. exists i. split; [exact H | apply Nat.eqb_refl].
Qed.

Lemma firstn_length_app {A} (l1 l2 : list A) : firstn (length l1) (l1 ++ l2) = l1.
Proof. induction l1; simpl; f_equal; auto. Qed.

Lemma nth_length_app {A} (l1 : list A) x l2 dflt : nth (length l1) (l1 ++ x :: l2) dflt = x.
Proof. induction l1; simpl; auto. Qed.

Lemma all_below_length (l : list nat) (n : nat) :
  NoDup l -> (forall j, (j < n)%nat -> In j l) -> (n <= length l)%nat.
Proof.
  intros _ Hall. rewrite <- (length_seq n 0).
  apply NoDup_incl_length; [apply seq_NoDup |].
  intros j Hj. apply in_seq in Hj. apply Hall. lia.
Qed.

(** ** The greedy scan picks the farthest candidate, lowest index on ties *)

Section KCenterFacts.
Context {T : Type} (ltb : T -> T -> bool).
Hypothesis ltb_irrefl : forall a, ltb a a = false.
Hypothesis ltb_trans : forall a b c, ltb a b = true -> ltb b c = true -> ltb a c = true.
Hypothesis ltb_cotrans : forall a b c, ltb a c = true -> ltb a b = true \/ ltb b c = true.
Context (n : nat) (d : nat -> nat -> T).

Local Abbreviation mds := (min_dist_to_set ltb d).
Local Abbreviation lt' := (ext_ltb ltb).

Definition scan_inv (chosen : list nat) (m : nat) (best : option (nat * option T)) : Prop :=
  match best with
  | None => forall j, (j < m)%nat -> In j chosen
  | Some (bi, bv) =>
      (bi < m)%nat /\ ~ In bi chosen /\ bv = mds bi chosen /\
      (forall j, (j < m)%nat -> ~ In j chosen -> lt' bv (mds j chosen) = false) /\
      (forall j, (j < bi)%nat -> ~ In j chosen -> lt' (mds j chosen) bv = true)
  end.

Lemma scan_invariant chosen m :
  scan_inv chosen m (fold_left (pick_step ltb d chosen) (seq 0 m) None).
Proof.
  induction m as [|m IH].
  - simpl. intros j Hj. lia.
  - rewrite seq_S, fold_left_app. simpl.
    remember (fold_left (pick_step ltb d chosen) (seq 0 m) None) as best eqn:Eb.
    clear Eb. unfold pick_step.
    destruct (memb m chosen) eqn:Hm.
    + apply memb_In in Hm. destruct best as [[bi bv]|]; simpl in *.
      * destruct IH as (H1 & H2 & H3 & H4 & H5). repeat split; auto; try lia.
        intros j Hj Hn. destruct (Nat.eq_dec j m) as [->|Hne]; [contradiction|].
        apply H4; [lia | exact Hn].
      * intros j Hj. destruct (Nat.eq_dec j m) as [->|Hne]; [exact Hm|]. apply IH. lia.
    + assert (Hm' : ~ In m chosen) by (intro H; apply memb_In in H; congruence).
      destruct best as [[bi bv]|]; simpl in *.
      * destruct IH as (H1 & H2 & H3 & H4 & H5).
        destruct (lt' bv (mds m chosen)) eqn:Hlt; simpl.
        -- split; [lia|]. split; [exact Hm'|]. split; [reflexivity|]. split.
           ++ intros j Hj Hn. destruct (Nat.eq_dec j m) as [->|Hne].
              ** apply ext_ltb_irrefl; assumption.
              ** destruct (lt' (mds m chosen) (mds j chosen)) eqn:E; auto.
                 assert (lt' bv (mds j chosen) = true) as Hc
                   by (eapply ext_ltb_trans; eauto).
                 rewrite (H4 j) in Hc; [discriminate | lia | exact Hn].
           ++ intros j Hj Hn.
              destruct (ext_ltb_cotrans ltb ltb_cotrans bv (mds j chosen) (mds m chosen) Hlt)
                as [Hc|Hc]; auto.
              rewrite (H4 j) in Hc; [discriminate | lia | exact Hn].
        -- split; [lia|]. split; [exact H2|]. split; [exact H3|]. split; [|exact H5].
           intros j Hj Hn. destruct (Nat.eq_dec j m) as [->|Hne]; [exact Hlt|].
           apply H4; [lia | exact Hn].
      * split; [lia|]. split; [exact Hm'|]. split; [reflexivity|]. split.
        -- intros j Hj Hn. destruct (Nat.eq_dec j m) as [->|Hne].
           ++ apply ext_ltb_irrefl; assumption.
           ++ exfalso. apply Hn, IH. lia.
        -- intros j Hj Hn. exfalso. apply Hn, IH. lia.
Qed.

Lemma pick_some chosen i :
  pick ltb n d chosen = Some i ->
  (i < n)%nat /\ ~ In i chosen /\
  (forall j, (j < n)%nat -> ~ In j chosen -> lt' (mds i chosen) (mds j chosen) = false) /\
  (forall j, (j < i)%nat -> ~ In j chosen -> lt' (mds j chosen) (mds i chosen) = true).
Proof.
  unfold pick. pose proof (scan_invariant chosen n) as Hinv.
  destruct (fold_left (pick_step ltb d chosen) (seq 0 n) None) as [[bi bv]|];
    simpl; intros H; inversion H; subst.
  destruct Hinv as (H1 & H2 & H3 & H4 & H5). subst bv. auto.
Qed.

Lemma pick_none chosen :
  pick ltb n d chosen = None -> forall j, (j < n)%nat -> In j chosen.
Proof.
  unfold pick. pose proof (scan_invariant chosen n) as Hinv.
  destruct (fold_left (pick_step ltb d chosen) (seq 0 n) None) as [[bi bv]|];
    simpl; intros H; [discriminate | exact Hinv].
Qed.

Lemma NoDup_snoc (c : list nat) i : NoDup c -> ~ In i c -> NoDup (c ++ [i]).
Proof.
  intros Hc Hi. apply NoDup_app; [exact Hc | constructor; [intros [] | constructor] |].
  intros a Ha [<- | []]. contradiction.
Qed.

Lemma grow_prefix k f c : exists s, grow ltb n d k f c = c ++ s.
Proof.
  revert c. induction f as [|f IH]; intros c; simpl.
  - exists []. now rewrite app_nil_r.
  - destruct (length c <? k)%nat; [|exists []; now rewrite app_nil_r].
    destruct (pick ltb n d c) as [i|]; [|exists []; now rewrite app_nil_r].
    destruct (IH (c ++ [i])) as [s Hs]. exists (i :: s).
    rewrite Hs, <- app_assoc. reflexivity.
Qed.

(** Every index appended after the initial list is the [pick] of the
    indices chosen before it. *)
Lemma grow_steps k f c p :
  (length c <= p < length (grow ltb n d k f c))%nat ->
  pick ltb n d (firstn p (grow ltb n d k f c)) = Some (nth p (grow ltb n d k f c) 0%nat).
Proof.
  revert c. induction f as [|f IH]; intros c; simpl; [lia|].
  destruct (length c <? k)%nat eqn:Hk; [|lia].
  destruct (pick ltb n d c) as [i|] eqn:Hpick; [|lia].
  intros Hp. destruct (Nat.eq_dec p (length c)) as [->|Hne].
  - destruct (grow_prefix k f (c ++ [i])) as [s Hs]. rewrite Hs, <- app_assoc. simpl.
    rewrite firstn_length_app, nth_length_app. exact Hpick.
  - apply IH. rewrite length_app. simpl. lia.
Qed.

Lemma grow_valid k f c :
  NoDup c -> (forall x, In x c -> (x < n)%nat) ->
  NoDup (grow ltb n d k f c) /\ (forall x, In x (grow ltb n d k f c) -> (x < n)%nat).
Proof.
  revert c. induction f as [|f IH]; intros c Hnd Hr; simpl; [auto|].
  destruct (length c <? k)%nat; [|auto].
  destruct (pick ltb n d c) as [i|] eqn:Hpick; [|auto].
  apply pick_some in Hpick. destruct Hpick as (Hi & Hni & _ & _).
  apply IH; [apply NoDup_snoc; assumption |].
  intros x Hx. apply in_app_or in Hx. destruct Hx as [Hx | [<- | []]]; auto.
Qed.

Lemma grow_length k f c :
  NoDup c -> (forall x, In x c -> (x < n)%nat) -> (k <= n)%nat ->
  (length c <= k <= length c + f)%nat -> length (grow ltb n d k f c) = k.
Proof.
  revert c. induction f as [|f IH]; intros c Hnd Hr Hkn Hl; simpl; [lia|].
  destruct (length c <? k)%nat eqn:Hk.
  - apply Nat.ltb_lt in Hk. destruct (pick ltb n d c) as [i|] eqn:Hpick.
    + pose proof (pick_some _ _ Hpick) as (Hi & Hni & _ & _).
      apply IH; [apply NoDup_snoc; assumption | | exact Hkn |].
      * intros x Hx. apply in_app_or in Hx. destruct Hx as [Hx | [<- | []]]; auto.
      * rewrite length_app. simpl. lia.
    + exfalso. pose proof (all_below_length c n Hnd (pick_none _ Hpick)). lia.
  - apply Nat.ltb_ge in Hk. lia.
Qed.

Lemma kcenter_err k :
  kcenter ltb n d k = Err InvalidInput <-> (n = 0%nat /\ (0 < k)%Z).
Proof.
  unfold kcenter.
  destruct (n =? 0)%nat eqn:Hn; destruct (0 <? k)%Z eqn:Hk; simpl;
    rewrite ?Nat.eqb_eq, ?Nat.eqb_neq, ?Z.ltb_lt, ?Z.ltb_ge in *;
    (split; [intros H | intros [H1 H2]]); try (split; assumption); try lia;
    repeat match goal with
           | H : context [if ?b then _ else _] |- _ => destruct b
           end; discriminate.
Qed.

Lemma kcenter_grow k :
  (1 <= k < Z.of_nat n)%Z ->
  kcenter ltb n d k = Ok (grow ltb n d (Z.to_nat k) (Z.to_nat k) [0%nat]).
Proof.
  intros Hk. unfold kcenter.
  replace ((n =? 0)%nat && (0 <? k)%Z) with false
    by (symmetry; apply andb_false_iff; left; apply Nat.eqb_neq; lia).
  replace (Z.of_nat n <=? k)%Z with false by (symmetry; apply Z.leb_gt; lia).
  replace (k <=? 0)%Z with false by (symmetry; apply Z.leb_gt; lia).
  reflexivity.
Qed.

Lemma kcenter_cases k r :
  kcenter ltb n d k = Ok r ->
  (Z.of_nat n <= k /\ r = seq 0 n)%Z \/ ((k <= 0)%Z /\ r = []) \/
  ((1 <= k < Z.of_nat n)%Z /\ r = grow ltb n d (Z.to_nat k) (Z.to_nat k) [0%nat]).
Proof.
  unfold kcenter.
  destruct ((n =? 0)%nat && (0 <? k)%Z); [discriminate|].
  destruct (Z.of_nat n <=? k)%Z eqn:H1; [apply Z.leb_le in H1; intros [=]; auto|].
  apply Z.leb_gt in H1.
  destruct (k <=? 0)%Z eqn:H2; intros [=]; subst.
  - apply Z.leb_le in H2. auto.
  - apply Z.leb_gt in H2. right; right. split; [lia | reflexivity].
Qed.

Lemma kcenter_valid k r :
  kcenter ltb n d k = Ok r -> NoDup r /\ (forall x, In x r -> (x < n)%nat).
Proof.
  intros H. apply kcenter_cases in H.
  destruct H as [[_ ->] | [[_ ->] | [Hk ->]]].
  - split; [apply seq_NoDup | intros x Hx; apply in_seq in Hx; lia].
  - split; [constructor | intros x []].
  - apply grow_valid; [repeat constructor; intros [] | intros x [<- | []]; lia].
Qed.

Lemma kcenter_length k r :
  kcenter ltb n d k = Ok r ->
  length r = (if (k <=? 0)%Z then 0 else Nat.min (Z.to_nat k) n)%nat.
Proof.
  intros H. apply kcenter_cases in H.
  destruct H as [[Hk ->] | [[Hk ->] | [Hk ->]]].
  - rewrite length_seq. destruct (k <=? 0)%Z eqn:E.
    + apply Z.leb_le in E. lia.
    + apply Z.leb_gt in E. lia.
  - replace (k <=? 0)%Z with true by (symmetry; apply Z.leb_le; lia). reflexivity.
  - replace (k <=? 0)%Z with false by (symmetry; apply Z.leb_gt; lia).
    rewrite grow_length; [lia | repeat constructor; intros [] | intros x [<- | []]; lia
                        | lia | simpl; lia].
Qed.

Lemma kcenter_head k r :
  (0 < n)%nat -> (1 <= k)%Z -> kcenter ltb n d k = Ok r ->
  r <> [] /\ nth 0 r 0%nat = 0%nat.
Proof.
  intros Hn Hk H. apply kcenter_cases in H.
  destruct H as [[_ ->] | [[Hk' _] | [_ ->]]]; [| lia |].
  - destruct n as [|m]; [lia|]. simpl. split; [discriminate | reflexivity].
  - destruct (grow_prefix (Z.to_nat k) (Z.to_nat k) [0%nat]) as [s ->]. simpl.
    split; [discriminate | reflexivity].
Qed.
End KCenterFacts.

(** ** Folding a minimum over a list *)

Section FoldMin.
Context {T : Type} (ltb : T -> T -> bool).
Hypothesis ltb_irrefl : forall a, ltb a a = false.
Hypothesis ltb_trans : forall a b c, ltb a b = true -> ltb b c = true -> ltb a c = true.
Hypothesis ltb_cotrans : forall a b c, ltb a c = true -> ltb a b = true \/ ltb b c = true.

Local Abbreviation lt' := (ext_ltb ltb).

Lemma ext_ltb_asym a b : lt' a b = true -> lt' b a = false.
Proof.
  intros H. destruct (lt' b a) eqn:E; [| reflexivity].
  rewrite <- (ext_ltb_irrefl ltb ltb_irrefl a). symmetry.
  eapply ext_ltb_trans; eauto.
Qed.

(** [lt' y x = false] reads [x <= y]. *)
Lemma ext_le_trans x y z : lt' y x = false -> lt' z y = false -> lt' z x = false.
Proof.
  intros H1 H2. destruct (lt' z x) eqn:E; [| reflexivity].
  destruct (ext_ltb_cotrans ltb ltb_cotrans z y x E); congruence.
Qed.

Lemma ext_min_le_l a b : lt' a (ext_min ltb a b) = false.
Proof.
  unfold ext_min. destruct (lt' b a) eqn:E.
  - apply ext_ltb_asym. exact E.
  - apply ext_ltb_irrefl. exact ltb_irrefl.
Qed.

Lemma ext_min_le_r a b : lt' b (ext_min ltb a b) = false.
Proof.
  unfold ext_min. destruct (lt' b a) eqn:E; [| exact E].
  apply ext_ltb_irrefl. exact ltb_irrefl.
Qed.

Lemma fold_min_le {A} (f : A -> option T) l acc :
  lt' acc (fold_left (fun acc x => ext_min ltb acc (f x)) l acc) = false /\
  forall x, In x l -> lt' (f x) (fold_left (fun acc x => ext_min ltb acc (f x)) l acc) = false.
Proof.
  revert acc. induction l as [|y l IH]; intros acc; simpl.
  - split; [apply ext_ltb_irrefl; exact ltb_irrefl | intros x []].
  - destruct (IH (ext_min ltb acc (f y))) as [H1 H2]. split.
    + eapply ext_le_trans; [exact H1 | apply ext_min_le_l].
    + intros x [<- | Hx]; [| auto].
      eapply ext_le_trans; [exact H1 | apply ext_min_le_r].
Qed.
End FoldMin.

Lemma ext_min_cases {T} (ltb : T -> T -> bool) a b : ext_min ltb a b = a \/ ext_min ltb a b = b.
Proof. unfold ext_min. destruct (ext_ltb ltb b a); auto. Qed.

Lemma fold_min_attained {T A} (ltb : T -> T -> bool) (f : A -> option T) l acc :
  fold_left (fun acc x => ext_min ltb acc (f x)) l acc = acc \/
  exists x, In x l /\ fold_left (fun acc x => ext_min ltb acc (f x)) l acc = f x.
Proof.
  revert acc. induction l as [|y l IH]; intros acc; simpl; [auto |].
  destruct (IH (ext_min ltb acc (f y))) as [H | [x [Hx H]]].
  - rewrite H. destruct (ext_min_cases ltb acc (f y)) as [E|E]; rewrite E; auto.
    right. exists y. auto.
  - right. exists x. auto.
Qed.

Lemma dist_le_Some x r : dist_ltb (Some x) r = false -> exists y, r = Some y /\ y <= x.
Proof.
  destruct r as [y|]; simpl; [| discriminate].
  intros H. exists y. split; [reflexivity |].
  apply Qnot_lt_le. intros Hlt. apply Qltb_iff in Hlt. unfold dist_ltb in H. simpl in H. congruence.
Qed.

Lemma In_index_pairs n i j : In (i, j) (index_pairs n) <-> (i < j < n)%nat.
Proof.
  unfold index_pairs. rewrite in_flat_map. split.
  - intros [i' [Hi' Hm]]. apply in_map_iff in Hm. destruct Hm as [j' [[= <- <-] Hj]].
    apply in_seq in Hi'. apply in_seq in Hj. lia.
  - intros H. exists i. split; [apply in_seq; lia |].
    apply in_map_iff. exists j. split; [reflexivity | apply in_seq; lia].
Qed.

(** ** Facts about the polygon distance *)

Lemma dist_le_trans x y z : dist_ltb y x = false -> dist_ltb z y = false -> dist_ltb z x = false.
Proof. apply ext_le_trans. exact Qltb_cotrans. Qed.

Lemma dist_fold_min_le {A} (f : A -> option Q) l acc :
  dist_ltb acc (fold_left (fun acc x => ext_min Qltb acc (f x)) l acc) = false /\
  forall x, In x l -> dist_ltb (f x) (fold_left (fun acc x => ext_min Qltb acc (f x)) l acc) = false.
Proof. apply fold_min_le; first [exact Qltb_irrefl | exact Qltb_trans | exact Qltb_cotrans]. Qed.

Lemma dist_min_le_l a b : dist_ltb a (ext_min Qltb a b) = false.
Proof. apply ext_min_le_l; first [exact Qltb_irrefl | exact Qltb_trans | exact Qltb_cotrans]. Qed.

Lemma dist_min_le_r a b : dist_ltb b (ext_min Qltb a b) = false.
Proof. apply ext_min_le_r; first [exact Qltb_irrefl | exact Qltb_trans | exact Qltb_cotrans]. Qed.

Lemma Qltb_false_le x y : Qltb x y = false -> y <= x.
Proof. unfold Qltb. rewrite negb_false_iff. apply Qle_bool_iff. Qed.

Lemma Qltb_compat x x' y y' : x == x' -> y == y' -> Qltb x y = Qltb x' y'.
Proof. intros Hx Hy. apply eq_true_iff_eq. rewrite !Qltb_iff, Hx, Hy. reflexivity. Qed.

Lemma eps_sq_pos : 0 < eps_sq.
Proof. unfold eps_sq, Qlt. simpl. lia. Qed.

Lemma ext_min_Q_comm x y :
  ext_min Qltb x y = ext_min Qltb y x \/
  exists p q, ext_min Qltb x y = Some p /\ ext_min Qltb y x = Some q /\ p == q.
Proof.
  destruct x as [p|], y as [q|]; unfold ext_min; simpl; auto.
  destruct (Qltb q p) eqn:E1, (Qltb p q) eqn:E2; auto.
  - apply Qltb_iff in E1. apply Qltb_iff in E2. exfalso.
    apply (Qlt_irrefl p). apply (Qlt_trans _ _ _ E2 E1).
  - right. exists p, q. repeat split.
    apply Qle_antisym; apply Qltb_false_le; assumption.
Qed.

Lemma polygon_polygon_distance_sq_sym a b :
  polygon_polygon_distance_sq a b = polygon_polygon_distance_sq b a.
Proof.
  unfold polygon_polygon_distance_sq.
  destruct (ext_min_Q_comm (vertices_to_polygon_sq a b) (vertices_to_polygon_sq b a))
    as [E | (p & q & E1 & E2 & Hpq)].
  - rewrite E. reflexivity.
  - rewrite E1, E2. rewrite (Qltb_compat p q eps_sq eps_sq Hpq (Qeq_refl _)).
    destruct (Qltb q eps_sq); [reflexivity |].
    f_equal. apply Qred_complete. exact Hpq.
Qed.

Lemma polygon_polygon_distance_sq_nonneg a b m :
  polygon_polygon_distance_sq a b = Some m -> 0 <= m.
Proof.
  unfold polygon_polygon_distance_sq.
  destruct (ext_min Qltb (vertices_to_polygon_sq a b) (vertices_to_polygon_sq b a)) as [m'|];
    [| discriminate].
  destruct (Qltb m' eps_sq) eqn:E; intros [= <-]; [apply Qle_refl |].
  rewrite Qred_correct. apply Qltb_false_le in E.
  apply Qle_trans with eps_sq; [apply Qlt_le_weak, eps_sq_pos | exact E].
Qed.

(** A vertex-to-edge distance bounds the polygon-to-polygon minimum. *)
Lemma vertex_edge_bound v e a b :
  In v a -> In e (edges b) ->
  dist_ltb (Some (point_segment_distance_sq v (fst e) (snd e)))
    (vertices_to_polygon_sq a b) = false.
Proof.
  intros Hv He. eapply dist_le_trans.
  - unfold vertices_to_polygon_sq.
    exact (proj2 (dist_fold_min_le (fun v => point_polygon_distance_sq v b) a None) v Hv).
  - unfold point_polygon_distance_sq.
    exact (proj2 (dist_fold_min_le (fun e => Some (point_segment_distance_sq v (fst e) (snd e)))
                    (edges b) None) e He).
Qed.

(** The minimum over the vertices of [a] is the distance of one of them to
    one edge of [b]. *)
Lemma vertices_to_polygon_attained a b m :
  vertices_to_polygon_sq a b = Some m ->
  exists v e, In v a /\ In e (edges b) /\ m = point_segment_distance_sq v (fst e) (snd e).
Proof.
  unfold vertices_to_polygon_sq.
  destruct (fold_min_attained Qltb (fun v => point_polygon_distance_sq v b) a None)
    as [E | [v [Hv E]]]; cbv beta in E; rewrite E; [discriminate |].
  unfold point_polygon_distance_sq.
  destruct (fold_min_attained Qltb (fun e => Some (point_segment_distance_sq v (fst e) (snd e)))
              (edges b) None) as [E2 | [e [He E2]]]; cbv beta in E2; rewrite E2; [discriminate |].
  intros [= <-]. exists v, e. auto.
Qed.

Lemma polygon_polygon_distance_sq_zero a b :
  polygon_polygon_distance_sq a b = Some 0 <->
  exists v e, ((In v a /\ In e (edges b)) \/ (In v b /\ In e (edges a))) /\
              point_segment_distance_sq v (fst e) (snd e) < eps_sq.
Proof.
  unfold polygon_polygon_distance_sq. split.
  - destruct (ext_min Qltb (vertices_to_polygon_sq a b) (vertices_to_polygon_sq b a)) as [m|] eqn:EM;
      [| discriminate].
    intros H.
    assert (Hm : Qltb m eps_sq = true).
    { destruct (Qltb m eps_sq) eqn:E; [reflexivity |]. exfalso.
      injection H as Hr. apply Qltb_false_le in E.
      assert (Hz : Qred m == 0) by (rewrite Hr; reflexivity).
      rewrite Qred_correct in Hz. rewrite Hz in E.
      apply (Qlt_not_le _ _ eps_sq_pos E). }
    apply Qltb_iff in Hm.
    destruct (ext_min_cases Qltb (vertices_to_polygon_sq a b) (vertices_to_polygon_sq b a))
      as [E|E]; rewrite E in EM; apply vertices_to_polygon_attained in EM;
      destruct EM as (v & e & Hv & He & ->); exists v, e; auto.
  - intros (v & e & Hin & Hlt).
    assert (Hb : dist_ltb (Some (point_segment_distance_sq v (fst e) (snd e)))
                   (ext_min Qltb (vertices_to_polygon_sq a b) (vertices_to_polygon_sq b a)) = false).
    { destruct Hin as [[Hv He] | [Hv He]]; (eapply dist_le_trans;
        [| apply vertex_edge_bound; eassumption]).
      - apply dist_min_le_l.
      - apply dist_min_le_r. }
    apply dist_le_Some in Hb. destruct Hb as [m [-> Hm]].
    replace (Qltb m eps_sq) with true; [reflexivity |].
    symmetry. apply Qltb_iff. apply (Qle_lt_trans _ _ _ Hm Hlt).
Qed.

Lemma point_segment_distance_sq_start v w : point_segment_distance_sq v v w == 0.
Proof.
  unfold point_segment_distance_sq. cbv zeta.
  destruct (Qeq_bool (sq_norm (px w - px v) (py w - py v)) 0); [unfold sq_norm; ring |].
  assert (Ht : ((px v - px v) * (px w - px v) + (py v - py v) * (py w - py v)) /
                 sq_norm (px w - px v) (py w - py v) == 0).
  { assert (Hn : (px v - px v) * (px w - px v) + (py v - py v) * (py w - py v) == 0) by ring.
    rewrite Hn. unfold Qdiv. ring. }
  unfold clamp01. replace (Qle_bool _ 0) with true.
  - unfold sq_norm. ring.
  - symmetry. apply Qle_bool_iff. rewrite Ht. apply Qle_refl.
Qed.

Lemma In_vertex_edge v (poly : polygon) : In v poly -> exists w, In (v, w) (edges poly).
Proof.
  destruct poly as [|p0 rest]; [intros [] |]. intros Hv. unfold edges.
  destruct (In_nth _ _ p0 Hv) as [i [Hi Hnth]].
  exists (nth i (rest ++ [p0]) p0). rewrite <- Hnth.
  rewrite <- combine_nth; [| rewrite length_app; simpl; lia].
  apply nth_In. rewrite length_combine, length_app. cbn [length] in *. lia.
Qed.

Lemma polygon_polygon_distance_sq_shared_vertex a b v :
  In v a -> In v b -> polygon_polygon_distance_sq a b = Some 0.
Proof.
  intros Ha Hb. apply polygon_polygon_distance_sq_zero.
  destruct (In_vertex_edge v b Hb) as [w Hw].
  exists v, (v, w). split; [left; auto |]. simpl.
  rewrite point_segment_distance_sq_start. apply eps_sq_pos.
Qed.

Definition unit_square (x : Q) : polygon :=
  [mkPoint x 0; mkPoint (x + 1) 0; mkPoint (x + 1) 1; mkPoint x 1].

Definition five_squares : list polygon :=
  map unit_square [0; 10; 20; 30; 40].

Example five_squares_k3 : select_k_center five_squares 3 = Ok [0; 4; 2]%nat.
Proof. vm_compute. reflexivity. Qed.

Definition select_min_dist (cands : list polygon) (c : nat) (sel : list nat) : option (option Q) :=
  min_dist_to_set dist_ltb (poly_dist cands) c sel.

(** ** Claims about the single-group selector *)

(** C1: for 1 <= k < n the result has k indices, starts at the seed 0, and
    each later index is, among the candidates not chosen before it, one whose
    minimum distance to the already-chosen set is maximal, every candidate of
    lower index having a strictly smaller one (ties go to the lowest index);
    on five unit squares at x = 0, 10, 20, 30, 40 and k = 3 the result is
    [0; 4; 2]. *)
Theorem select_k_center_farthest_point :
  (forall (cands : list polygon) (k : Z),
      (1 <= k < Z.of_nat (length cands))%Z ->
      exists r, select_k_center cands k = Ok r /\ length r = Z.to_nat k /\
        nth 0 r 0%nat = 0%nat /\
        forall p, (1 <= p < length r)%nat ->
          let S := firstn p r in
          let i := nth p r 0%nat in
          (i < length cands)%nat /\ ~ In i S /\
          (forall j, (j < length cands)%nat -> ~ In j S ->
             ext_ltb dist_ltb (select_min_dist cands i S) (select_min_dist cands j S) = false) /\
          (forall j, (j < i)%nat -> ~ In j S ->
             ext_ltb dist_ltb (select_min_dist cands j S) (select_min_dist cands i S) = true)) /\
  select_k_center five_squares 3 = Ok [0; 4; 2]%nat.
Proof.
  split; [| vm_compute; reflexivity].
  intros cands k Hk.
  pose proof (kcenter_grow (ext_ltb Qltb) (length cands) (poly_dist cands) k Hk) as Hg.
  set (r := grow (ext_ltb Qltb) (length cands) (poly_dist cands) (Z.to_nat k) (Z.to_nat k) [0%nat])
    in *.
  exists r. split; [exact Hg |].
  pose proof (kcenter_length _ dist_ltb_irrefl dist_ltb_trans dist_ltb_cotrans _ _ _ _ Hg) as Hl.
  replace (k <=? 0)%Z with false in Hl by (symmetry; apply Z.leb_gt; lia).
  split; [rewrite Hl; lia |].
  split; [exact (proj2 (kcenter_head (ext_ltb Qltb) (length cands) (poly_dist cands) k r ltac:(lia) ltac:(lia) Hg)) |].
  intros p Hp S i.
  assert (Hp' : (length [0%nat] <= p < length r)%nat) by (simpl; lia).
  pose proof (grow_steps _ _ _ _ _ _ _ Hp') as Hs. fold r in Hs.
  apply (pick_some dist_ltb dist_ltb_irrefl dist_ltb_trans dist_ltb_cotrans) in Hs.
  exact Hs.
Qed.

(** C3: the selector fails with InvalidInput exactly when the candidate list
    is empty and k > 0; on a non-empty list it always returns a result; for
    k <= 0 it returns the empty list. *)
Theorem select_k_center_failure (cands : list polygon) (k : Z) :
  (select_k_center cands k = Err InvalidInput <-> cands = [] /\ (0 < k)%Z) /\
  (cands <> [] -> exists r, select_k_center cands k = Ok r) /\
  ((k <= 0)%Z -> select_k_center cands k = Ok []).
Proof.
  unfold select_k_center.
  assert (Hn : length cands = 0%nat <-> cands = [])
    by (split; [apply length_zero_iff_nil | intros ->; reflexivity]).
  split; [rewrite kcenter_err, Hn; reflexivity |]. split.
  - intros Hne. destruct (kcenter (ext_ltb Qltb) (length cands) (poly_dist cands) k) as [r|e] eqn:E.
    + exists r. reflexivity.
    + destruct e. apply kcenter_err in E. tauto.
  - intros Hk. destruct (kcenter (ext_ltb Qltb) (length cands) (poly_dist cands) k) as [r|e] eqn:E.
    + apply (kcenter_length _ dist_ltb_irrefl dist_ltb_trans dist_ltb_cotrans) in E.
      replace (k <=? 0)%Z with true in E
        by (symmetry; apply Z.leb_le; lia).
      apply length_zero_iff_nil in E. subst. reflexivity.
    + destruct e. apply kcenter_err in E. lia.
Qed.

(** C4: on a non-empty candidate list and k >= 1 the result starts with the
    index 0, so 0 belongs to it and is the first selected index. *)
Theorem select_k_center_seed (cands : list polygon) (k : Z) :
  cands <> [] -> (1 <= k)%Z ->
  exists rest, select_k_center cands k = Ok (0%nat :: rest).
Proof.
  intros Hne Hk.
  destruct (proj1 (proj2 (select_k_center_failure cands k)) Hne) as [r Hr].
  unfold select_k_center in Hr.
  assert (Hn : (0 < length cands)%nat)
    by (destruct cands; [congruence | simpl; lia]).
  destruct (kcenter_head _ _ _ k r Hn Hk Hr) as [Hr0 Hh].
  destruct r as [|x rest]; [congruence |]. simpl in Hh. subst x.
  exists rest. exact Hr.
Qed.

Lemma select_k_center_seed_witness :
  five_squares <> [] /\ (1 <= 3)%Z /\
  exists rest, select_k_center five_squares 3 = Ok (0%nat :: rest).
Proof.
  split; [discriminate |]. split; [lia |].
  apply select_k_center_seed; [discriminate | lia].
Defined.

(** C5: every returned index list has pairwise distinct indices, each in
    [0, n). *)
Theorem select_k_center_unique_in_range (cands : list polygon) (k : Z) (r : list nat) :
  select_k_center cands k = Ok r ->
  NoDup r /\ (forall x, In x r -> (x < length cands)%nat).
Proof.
  apply (kcenter_valid dist_ltb dist_ltb_irrefl dist_ltb_trans dist_ltb_cotrans).
Qed.

Lemma select_k_center_unique_in_range_witness :
  select_k_center five_squares 3 = Ok [0; 4; 2]%nat /\
  NoDup [0; 4; 2]%nat /\ (forall x, In x [0; 4; 2]%nat -> (x < length five_squares)%nat).
Proof.
  split; [vm_compute; reflexivity |].
  apply (select_k_center_unique_in_range five_squares 3). vm_compute. reflexivity.
Defined.

(** ** The round-robin selector refines independent per-group selection *)

Fixpoint group_steps (k : Z) (r : nat) (g : list polygon) (s : group_state) : group_state :=
  match r with
  | O => s
  | S r' => group_steps k r' g (group_step k g s)
  end.

Lemma rr_rounds_map k r st :
  rr_rounds k r st = map (fun p => (fst p, group_steps k r (fst p) (snd p))) st.
Proof.
  revert st. induction r as [|r IH]; intros st; simpl.
  - induction st as [|[g s] st IHst]; simpl; [reflexivity | now rewrite <- IHst].
  - rewrite IH. unfold rr_round. rewrite map_map. reflexivity.
Qed.

Lemma grow_stuck {T} (ltb : T -> T -> bool) n d k f c :
  (length c <? k)%nat = false \/ pick ltb n d c = None -> grow ltb n d k f c = c.
Proof.
  destruct f as [|f]; simpl; [reflexivity |].
  intros [H | H]; rewrite H; [reflexivity |].
  destruct (length c <? k)%nat; reflexivity.
Qed.

Lemma group_steps_done k r g ids : group_steps k r g (Done ids) = Done ids.
Proof. induction r as [|r IH]; simpl; auto. Qed.

Lemma group_steps_growing k r g c :
  group_steps k r g (Growing c) =
  Growing (grow (ext_ltb Qltb) (length g) (poly_dist g) (Z.to_nat k) r c).
Proof.
  revert c. induction r as [|r IH]; intros c; simpl; [reflexivity |].
  destruct (length c <? Z.to_nat k)%nat eqn:Hl.
  - destruct (pick (ext_ltb Qltb) (length g) (poly_dist g) c) eqn:Hp.
    + apply IH.
    + rewrite IH, grow_stuck; auto.
  - rewrite IH, grow_stuck; auto.
Qed.

Lemma group_final k g :
  match group_init k g with
  | Ok s => Ok (state_ids (group_steps k (Z.to_nat k) g s))
  | Err e => Err e
  end = select_k_center g k.
Proof.
  unfold group_init, select_k_center, kcenter.
  destruct ((length g =? 0)%nat && (0 <? k)%Z); [reflexivity |].
  destruct (Z.of_nat (length g) <=? k)%Z; [now rewrite group_steps_done |].
  destruct (k <=? 0)%Z; [now rewrite group_steps_done |].
  now rewrite group_steps_growing.
Qed.

Lemma init_all_final k groups :
  match init_all k groups with
  | Err e => Err e
  | Ok st => Ok (map (fun p => state_ids (group_steps k (Z.to_nat k) (fst p) (snd p))) st)
  end = select_each_independently groups k.
Proof.
  induction groups as [|g gs IH]; simpl; [reflexivity |].
  rewrite <- group_final. destruct (group_init k g) as [s|e]; [| reflexivity].
  rewrite <- IH. destruct (init_all k gs); reflexivity.
Qed.

Lemma select_each_valid groups k rs :
  select_each_independently groups k = Ok rs ->
  Forall2 (fun g r => NoDup r /\ forall x, In x r -> (x < length g)%nat) groups rs.
Proof.
  revert rs. induction groups as [|g gs IH]; intros rs; simpl.
  - intros [= <-]. constructor.
  - destruct (select_k_center g k) as [r|e] eqn:E; [| discriminate].
    destruct (select_each_independently gs k) as [rs'|e]; [| discriminate].
    intros [= <-]. constructor; [| apply IH; reflexivity].
    exact (kcenter_valid dist_ltb dist_ltb_irrefl dist_ltb_trans dist_ltb_cotrans
             (length g) (poly_dist g) k r E).
Qed.

(** ** Facts about filter_by_ar *)

Lemma fold_append_filter (p : nat -> bool) (l acc : list nat) :
  fold_left (fun acc i => if p i then acc ++ [i] else acc) l acc = acc ++ filter p l.
Proof.
  revert acc. induction l as [|x l IH]; intros acc; simpl; [now rewrite app_nil_r |].
  destruct (p x); rewrite IH; [now rewrite <- app_assoc | reflexivity].
Qed.

Lemma filter_seq_sorted (p : nat -> bool) s n : StronglySorted Nat.lt (filter p (seq s n)).
Proof.
  revert s. induction n as [|n IH]; intros s; simpl; [constructor |].
  destruct (p s); [| apply IH].
  constructor; [apply IH |].
  apply Forall_forall. intros x Hx. apply filter_In in Hx. destruct Hx as [Hx _].
  apply in_seq in Hx. lia.
Qed.

(** ** Facts about the scores *)

Lemma score_bounds d1 d2 :
  0 <= d1 -> 0 <= d2 ->
  0 < d1 + d2 + eps9 /\ 0 <= d1 / (d1 + d2 + eps9) /\ d1 / (d1 + d2 + eps9) < 1.
Proof.
  intros H1 H2. assert (He : 0 < eps9) by (unfold eps9, Qlt; simpl; lia).
  assert (Hd : 0 < d1 + d2 + eps9) by lra.
  split; [exact Hd |]. split.
  - apply Qle_shift_div_l; [exact Hd | lra].
  - apply Qlt_shift_div_r; [exact Hd | lra].
Qed.

Definition spread_squares (m : nat) : list polygon :=
  map (fun i => unit_square (inject_Z (10 * Z.of_nat i))) (seq 0 m).

Example two_groups_k4 :
  select_k_per_group [spread_squares 2; spread_squares 10] 4 =
  Ok [([0; 1]%nat, true); ([0; 9; 4; 2]%nat, false)].
Proof. vm_compute. reflexivity. Qed.

(** ** Claim about the multi-group selector *)

(** C6: the round-robin selector returns, for every group, exactly the
    index list of [select_k_center] called on that group alone (each paired
    with its undersupply flag), and fails exactly when one of these calls
    fails; its indices are distinct and valid in their own group; a group of
    2 squares and a group of 10 spread squares with k = 4 give 2 indices with
    undersupply and 4 indices without. *)
Theorem select_k_per_group_refines_independent :
  (forall (groups : list (list polygon)) (k : Z),
      select_k_per_group groups k =
      match select_each_independently groups k with
      | Err e => Err e
      | Ok rs => Ok (map (fun ids => (ids, undersupplied k ids)) rs)
      end) /\
  (forall (groups : list (list polygon)) (k : Z) (res : list (list nat * bool)),
      select_k_per_group groups k = Ok res ->
      Forall2 (fun g p => NoDup (fst p) /\ forall x, In x (fst p) -> (x < length g)%nat)
        groups res) /\
  select_k_per_group [spread_squares 2; spread_squares 10] 4 =
  Ok [([0; 1]%nat, true); ([0; 9; 4; 2]%nat, false)].
Proof.
  assert (Href : forall (groups : list (list polygon)) (k : Z),
      select_k_per_group groups k =
      match select_each_independently groups k with
      | Err e => Err e
      | Ok rs => Ok (map (fun ids => (ids, undersupplied k ids)) rs)
      end).
  { intros groups k. unfold select_k_per_group. rewrite <- init_all_final.
    destruct (init_all k groups) as [st|e]; [| reflexivity].
    rewrite rr_rounds_map, !map_map. reflexivity. }
  split; [exact Href |]. split; [| vm_compute; reflexivity].
  intros groups k res Hres. rewrite Href in Hres.
  destruct (select_each_independently groups k) as [rs|e] eqn:E; [| discriminate].
  injection Hres as <-. apply select_each_valid in E.
  clear Href. induction E; simpl; constructor; auto.
Qed.

(** ** Claims about the distance and the diagnostic *)

Definition big_square : polygon :=
  [mkPoint 0 0; mkPoint 10 0; mkPoint 10 10; mkPoint 0 10].

Definition nested_square : polygon :=
  [mkPoint 4 4; mkPoint 6 4; mkPoint 6 6; mkPoint 4 6].

(** C7 (counterexample): the square [nested_square] lies strictly inside
    [big_square], so the two polygons overlap, yet their distance is not 0:
    its square is 16 (distance 4, from the inner vertices to the outer
    edges). *)
Lemma polygon_polygon_distance_nested_overlap :
  Forall (fun v => 0 < px v < 10 /\ 0 < py v < 10) nested_square /\
  polygon_polygon_distance_sq big_square nested_square = Some 16 /\
  polygon_polygon_distance_sq big_square nested_square <> Some 0.
Proof.
  split; [repeat constructor; reflexivity |].
  split; [vm_compute; reflexivity | vm_compute; discriminate].
Qed.

(** C7 (amended): the polygon distance is non-negative and symmetric; it is
    0 exactly when some vertex of one polygon lies within 1e-9 of an edge of
    the other; in particular two polygons sharing a vertex (hence also two
    sharing an edge) are at distance 0. *)
Theorem polygon_polygon_distance_props (a b : polygon) :
  (forall m, polygon_polygon_distance_sq a b = Some m -> 0 <= m) /\
  polygon_polygon_distance_sq a b = polygon_polygon_distance_sq b a /\
  (polygon_polygon_distance_sq a b = Some 0 <->
   exists v e, ((In v a /\ In e (edges b)) \/ (In v b /\ In e (edges a))) /\
               point_segment_distance_sq v (fst e) (snd e) < eps_sq) /\
  (forall v, In v a -> In v b -> polygon_polygon_distance_sq a b = Some 0).
Proof.
  split; [apply polygon_polygon_distance_sq_nonneg |].
  split; [apply polygon_polygon_distance_sq_sym |].
  split; [apply polygon_polygon_distance_sq_zero |].
  intros v Ha Hb. apply (polygon_polygon_distance_sq_shared_vertex a b v Ha Hb).
Qed.

(** C8: with fewer than two polygons the diagnostic is [+infinity]
    ([None]); otherwise it is the distance of some pair [i < j] and no
    larger than the distance of any pair [i <> j]. *)
Theorem min_pairwise_distance_spec (polys : list polygon) :
  ((length polys < 2)%nat -> min_pairwise_distance_sq polys = None) /\
  ((2 <= length polys)%nat ->
   (exists i j, (i < j < length polys)%nat /\
      min_pairwise_distance_sq polys =
      polygon_polygon_distance_sq (nth i polys []) (nth j polys [])) /\
   (forall i j, (i < length polys)%nat -> (j < length polys)%nat -> i <> j ->
      dist_ltb (polygon_polygon_distance_sq (nth i polys []) (nth j polys []))
        (min_pairwise_distance_sq polys) = false)).
Proof.
  set (f := fun ij : nat * nat =>
              polygon_polygon_distance_sq (nth (fst ij) polys []) (nth (snd ij) polys [])).
  pose proof (dist_fold_min_le f (index_pairs (length polys)) None) as [_ Hle].
  pose proof (fold_min_attained Qltb f (index_pairs (length polys)) None) as Hat.
  assert (Hdef : min_pairwise_distance_sq polys =
                 fold_left (fun acc x => ext_min Qltb acc (f x)) (index_pairs (length polys)) None)
    by reflexivity.
  rewrite <- Hdef in Hle, Hat.
  split.
  - intros Hn. clear Hle Hat Hdef f.
    destruct polys as [|p [|q r]]; [reflexivity | reflexivity | cbn [length] in Hn; exfalso; lia].
  - intros Hn. split.
    + destruct Hat as [E | [[i j] [Hij E]]].
      * exists 0%nat, 1%nat. split; [lia |]. rewrite E.
        specialize (Hle (0%nat, 1%nat) (proj2 (In_index_pairs (length polys) 0 1) ltac:(lia))).
        rewrite E in Hle. subst f. simpl in Hle.
        destruct (polygon_polygon_distance_sq (nth 0 polys []) (nth 1 polys [])); [discriminate |].
        reflexivity.
      * apply In_index_pairs in Hij. exists i, j. split; [exact Hij | exact E].
    + intros i j Hi Hj Hne. destruct (proj1 (Nat.lt_gt_cases i j) Hne) as [Hlt | Hgt].
      * exact (Hle (i, j) (proj2 (In_index_pairs (length polys) i j) ltac:(lia))).
      * rewrite polygon_polygon_distance_sq_sym.
        exact (Hle (j, i) (proj2 (In_index_pairs (length polys) j i) ltac:(lia))).
Qed.

(** ** Claims about the application state manager *)

Definition three_shapes : list (shape Q) := map (fun p => mkShape p None) (spread_squares 3).

(** On this path, for [0 <= k < n] active shapes exactly [k] shapes are
    selected, with no undersupply warning. *)
Lemma select_shapes_union_count all_shapes active k :
  (0 <= k < Z.of_nat (length active))%Z ->
  exists sel ws, select_shapes_union all_shapes active k = Ok (sel, ws) /\
    length sel = Z.to_nat k /\ Forall (fun w => w = SomeContiguous) ws.
Proof.
  intros Hk. unfold select_shapes_union.
  replace (Z.of_nat (length active) <=? k)%Z with false by (symmetry; apply Z.leb_gt; lia).
  destruct (select_k_center (map (fun i => points (nth i all_shapes (mkShape [] None))) active) k)
    as [sel|e] eqn:E.
  - pose proof (kcenter_length _ dist_ltb_irrefl dist_ltb_trans dist_ltb_cotrans _ _ _ _ E) as Hl.
    rewrite length_map in Hl.
    eexists; eexists. split; [reflexivity |]. split.
    + rewrite length_map, Hl. destruct (k <=? 0)%Z eqn:Ek.
      * apply Z.leb_le in Ek. lia.
      * apply Z.leb_gt in Ek. lia.
    + destruct (match min_pairwise_distance_sq _ with Some m => Qltb m 4 | None => false end);
        repeat constructor.
  - destruct e. apply kcenter_err in E. rewrite length_map in E. lia.
Qed.

(** C2 (the divergence): with three active shapes and k = 3 the selection
    keeps all three, as the contract says, but select_shapes also shows the
    undersupply warning "Could not select 3 shapes, selected 3", although k
    does not exceed n. *)
Theorem select_shapes_warns_at_equality :
  select_shapes_union three_shapes [0; 1; 2]%nat 3 =
  Ok ([0; 1; 2]%nat, [CouldNotSelect 3 3]).
Proof. vm_compute. reflexivity. Qed.

(** C9: after filter_by_ar (or update_active_shapes) the list
    [active_shape_ids] is strictly increasing, has distinct indices, and holds
    exactly the indices below the number of shapes whose centroid lies in at
    least one active region; [selected_shape_ids] is that same list. *)
Theorem filter_by_ar_spec (contains_point : list point -> point -> bool) (st : app_state) :
  let st' := filter_by_ar contains_point st in
  update_active_shapes contains_point st = st' /\
  shapes st' = shapes st /\ active_regions st' = active_regions st /\
  selected_shape_ids st' = active_shape_ids st' /\
  exists ids, nth_error (heap st') (active_shape_ids st') = Some ids /\
    StronglySorted Nat.lt ids /\ NoDup ids /\
    (forall i, In i ids <->
       (i < length (shapes st))%nat /\
       exists ar, In ar (active_regions st) /\
         contains_point ar (centroid (points (nth i (shapes st) (mkShape [] None)))) = true).
Proof.
  intros st'. split; [reflexivity |]. split; [reflexivity |]. split; [reflexivity |].
  split; [reflexivity |].
  set (p := fun i => is_contained contains_point (active_regions st)
                       (centroid (points (nth i (shapes st) (mkShape [] None))))).
  exists (filter p (seq 0 (length (shapes st)))). split.
  - unfold st', filter_by_ar. simpl.
    rewrite nth_error_app2, Nat.sub_diag by lia. simpl.
    f_equal. apply fold_append_filter.
  - split; [apply filter_seq_sorted |]. split; [apply NoDup_filter, seq_NoDup |].
    intros i. rewrite filter_In, in_seq. unfold p, is_contained. rewrite existsb_exists.
    split; [intros [Hi H]; split; [lia | exact H] | intros [Hi H]; split; [lia | exact H]].
Qed.

(** ** Double-precision rounding of SpecFloat

    The value of a SpecFloat mantissa [m] at exponent [e] is [m 2^e]; the
    lemmas below bound what [binary_round_aux], [SFadd], [SFdiv] and
    [SFleb] of the Standard Library's IEEE-754 specification return, which
    [FloatAxioms] ties to the primitive doubles of [set_scores_float]. *)

Module Binary64.
Local Open Scope Q_scope.

Section IEEE.
Variables prec emax : Z.
Hypothesis prec_gt_1 : (1 < prec)%Z.
Hypothesis prec_lt_emax : (prec < emax)%Z.

Definition p2 (e : Z) : Q := Qpower (2 # 1) e.

Lemma p2_pos e : 0 < p2 e.
Proof. apply Qpower_0_lt. reflexivity. Qed.

Lemma p2_add a b : p2 (a + b) == p2 a * p2 b.
Proof. apply Qpower_plus. discriminate. Qed.

Lemma p2_Z n : (0 <= n)%Z -> p2 n == inject_Z (2 ^ n).
Proof. intros H. unfold p2. rewrite (Zpower_Qpower 2 n H). reflexivity. Qed.

Lemma p2_le a b : (a <= b)%Z -> p2 a <= p2 b.
Proof. intros H. apply Qpower_le_compat_l; [exact H | discriminate]. Qed.

Lemma p2_le_inv a b : p2 a <= p2 b -> (a <= b)%Z.
Proof. intros H. apply (Qpower_le_compat_l_inv (2#1)); [exact H | reflexivity]. Qed.

Lemma p2_lt_inv a b : p2 a < p2 b -> (a < b)%Z.
Proof. intros H. apply (Qpower_lt_compat_l_inv (2#1)); [exact H | reflexivity]. Qed.

Lemma p2_0 : p2 0 == 1.
Proof. reflexivity. Qed.

(** [N * 2^E <= v < (M + 1) * 2^E] gives [N <= M] on integers. *)
Lemma grid_le (N M : Z) E (v : Q) :
  inject_Z N * p2 E <= v -> v < inject_Z (M + 1) * p2 E -> (N <= M)%Z.
Proof.
  intros H1 H2. pose proof (p2_pos E) as HP.
  assert (H : inject_Z N < inject_Z (M + 1)).
  { apply (Qmult_lt_r _ _ (p2 E) HP). eapply Qle_lt_trans; eassumption. }
  rewrite <- Zlt_Qlt in H. lia.
Qed.

Lemma Qmult_le_r_inv x y z : 0 < z -> x * z <= y * z -> x <= y.
Proof. intros Hz H. apply (Qmult_le_r _ _ z Hz). exact H. Qed.

(** Digits. *)
Lemma digits2_bounds m :
  (2 ^ (Zpos (digits2_pos m) - 1) <= Zpos m < 2 ^ Zpos (digits2_pos m))%Z.
Proof.
  induction m as [m IH | m IH |]; simpl digits2_pos; [| | simpl; lia];
    rewrite Pos2Z.inj_succ; set (d := Zpos (digits2_pos m)) in *;
    assert (Hd0 : (1 <= d)%Z) by (unfold d; lia);
    replace (Z.succ d - 1)%Z with d by lia; rewrite Z.pow_succ_r by lia;
    assert (Hd : (2 ^ d = 2 * 2 ^ (d - 1))%Z)
      by (rewrite <- Z.pow_succ_r by lia; f_equal; lia);
    rewrite Hd in *; clearbody d; set (X := (2 ^ (d - 1))%Z) in *; clearbody X;
    [rewrite Pos2Z.inj_xI | rewrite Pos2Z.inj_xO]; lia.
Qed.

Lemma Zdigits2_bounds m : (0 < m)%Z ->
  (2 ^ (Zdigits2 m - 1) <= m < 2 ^ Zdigits2 m)%Z.
Proof. intros H. destruct m as [|m|m]; try lia. apply digits2_bounds. Qed.

Lemma Zdigits2_pos m : (0 < m)%Z -> (0 < Zdigits2 m)%Z.
Proof. intros H. destruct m; try lia. simpl. lia. Qed.

(** Value of a positive mantissa and exponent. *)
Definition mval (m : Z) (e : Z) : Q := inject_Z m * p2 e.

Lemma mval_digits_lo m e : (0 < m)%Z -> p2 (Zdigits2 m - 1 + e) <= mval m e.
Proof.
  intros H. unfold mval. rewrite p2_add. apply Qmult_le_compat_r; [| apply Qlt_le_weak, p2_pos].
  pose proof (Zdigits2_pos m H). rewrite p2_Z by lia. rewrite <- Zle_Qle.
  apply Zdigits2_bounds; exact H.
Qed.

Lemma mval_digits_hi m e : (0 < m)%Z -> mval m e < p2 (Zdigits2 m + e).
Proof.
  intros H. unfold mval. rewrite p2_add. apply Qmult_lt_compat_r; [apply p2_pos |].
  pose proof (Zdigits2_pos m H). rewrite p2_Z by lia. rewrite <- Zlt_Qlt.
  apply Zdigits2_bounds; exact H.
Qed.

(** Shift of [m] from exponent [e] up to [e'] >= [e]. *)
Lemma mval_shift m e e' : (e <= e')%Z -> mval m e' == mval (m * 2 ^ (e' - e)) e.
Proof.
  intros H. unfold mval. rewrite inject_Z_mult, <- p2_Z by lia.
  rewrite <- Qmult_assoc, <- p2_add. replace (e' - e + e)%Z with e' by lia. reflexivity.
Qed.

(** The invariant of the right shifts of the rounding: [v] lies in
    [[m 2^e, (m+1) 2^e)], strictly above [m 2^e] when a round or
    sticky bit is set. *)
Definition Inv (m : Z) (rs : bool) (e : Z) (v : Q) : Prop :=
  (0 <= m)%Z /\ mval m e <= v /\ v < mval (m + 1) e /\ (rs = true -> mval m e < v).

Definition rs_of (r : shr_record) : bool := shr_r r || shr_s r.

Lemma shr_1_spec m r s : (0 <= m)%Z ->
  exists q b, shr_1 {| shr_m := m; shr_r := r; shr_s := s |} =
                {| shr_m := q; shr_r := b; shr_s := r || s |} /\
              m = (2 * q + if b then 1 else 0)%Z /\ (0 <= q)%Z.
Proof.
  intros H. destruct m as [|[p|p|]|p]; try lia.
  - exists 0%Z, false. split; [reflexivity | lia].
  - exists (Zpos p), true. split; [reflexivity | rewrite Pos2Z.inj_xI; lia].
  - exists (Zpos p), false. split; [reflexivity | rewrite Pos2Z.inj_xO; lia].
  - exists 0%Z, true. split; [reflexivity | lia].
Qed.

Lemma shr_1_Inv r e v :
  Inv (shr_m r) (rs_of r) e v -> Inv (shr_m (shr_1 r)) (rs_of (shr_1 r)) (e + 1) v.
Proof.
  destruct r as [m r s]. unfold rs_of. cbn [shr_m shr_r shr_s].
  intros (H0 & H1 & H2 & H3).
  destruct (shr_1_spec m r s H0) as (q & b & -> & Hm & Hq0). cbn [shr_m shr_r shr_s].
  subst m.
  assert (E1 : forall k, mval k (e + 1) == mval (2 * k) e).
  { intros k. unfold mval. rewrite p2_add, inject_Z_mult. change (p2 1) with (2 # 1).
    rewrite (Qmult_comm (inject_Z 2)). rewrite <- !Qmult_assoc. apply Qmult_comp; [reflexivity |].
    apply Qmult_comm. }
  unfold Inv. rewrite !E1. split; [exact Hq0 |].
  assert (Hle : forall a b, (a <= b)%Z -> mval a e <= mval b e).
  { intros a c Hac. unfold mval. apply Qmult_le_compat_r; [| apply Qlt_le_weak, p2_pos].
    rewrite <- Zle_Qle. exact Hac. }
  assert (Hlt : forall a b, (a < b)%Z -> mval a e < mval b e).
  { intros a c Hac. unfold mval. apply Qmult_lt_compat_r; [apply p2_pos |].
    rewrite <- Zlt_Qlt. exact Hac. }
  split; [| split].
  - eapply Qle_trans; [| exact H1]. apply Hle. destruct b; lia.
  - eapply Qlt_le_trans; [exact H2 |]. apply Hle. destruct b; lia.
  - intros Hb. destruct b.
    + eapply Qlt_le_trans; [| exact H1]. apply Hlt. lia.
    + simpl in Hb. eapply Qle_lt_trans; [| exact (H3 Hb)]. apply Hle. lia.
Qed.

Lemma iter_pos_nat {A} (f : A -> A) n x : iter_pos f n x = Nat.iter (Pos.to_nat n) f x.
Proof.
  revert x. induction n as [n IH | n IH |]; intros x.
  - change (iter_pos f n~1 x) with (iter_pos f n (iter_pos f n (f x))).
    rewrite !IH, Pos2Nat.inj_xI, Nat.iter_succ_r, <- Nat.iter_add. f_equal. lia.
  - change (iter_pos f n~0 x) with (iter_pos f n (iter_pos f n x)).
    rewrite !IH, Pos2Nat.inj_xO, <- Nat.iter_add. f_equal. lia.
  - reflexivity.
Qed.

Lemma shr_Inv r e n v :
  Inv (shr_m r) (rs_of r) e v ->
  Inv (shr_m (fst (shr r e n))) (rs_of (fst (shr r e n))) (snd (shr r e n)) v /\
  snd (shr r e n) = Z.max e (e + n).
Proof.
  intros H. destruct n as [|p|p]; simpl.
  - split; [exact H | lia].
  - split; [| lia]. rewrite iter_pos_nat.
    assert (G : forall k, Inv (shr_m (Nat.iter k shr_1 r)) (rs_of (Nat.iter k shr_1 r)) (e + Z.of_nat k) v).
    { induction k as [|k IH]; simpl.
      - rewrite Z.add_0_r. exact H.
      - replace (e + Z.pos (Pos.of_succ_nat k))%Z with (e + Z.of_nat k + 1)%Z by lia.
        apply shr_1_Inv. exact IH. }
    specialize (G (Pos.to_nat p)). rewrite positive_nat_Z in G. exact G.
  - split; [exact H | lia].
Qed.

End IEEE.

Section Round.
Variables prec emax : Z.
Hypothesis prec_gt_1 : (1 < prec)%Z.
Hypothesis prec_lt_emax : (prec < emax)%Z.

Definition loc_rs (l : location) : bool :=
  match l with loc_Exact => false | loc_Inexact _ => true end.

Lemma rs_of_loc m l : rs_of (shr_record_of_loc m l) = loc_rs l.
Proof. destruct l as [|[]]; reflexivity. Qed.

Lemma shm_of_loc m l : shr_m (shr_record_of_loc m l) = m.
Proof. destruct l as [|[]]; reflexivity. Qed.

Lemma mval_le_mono a b e : (a <= b)%Z -> mval a e <= mval b e.
Proof.
  intros H. unfold mval. apply Qmult_le_compat_r; [| apply Qlt_le_weak, p2_pos].
  rewrite <- Zle_Qle. exact H.
Qed.

Lemma mval_lt_inv a b e : mval a e < mval b e -> (a < b)%Z.
Proof.
  intros H. unfold mval in H. rewrite Zlt_Qlt. apply (Qmult_lt_r _ _ (p2 e) (p2_pos e)). exact H.
Qed.

Lemma mval_add_exp m a b : mval m (a + b) == mval m a * p2 b.
Proof. unfold mval. rewrite p2_add. ring. Qed.

(** Below [(m+1) 2^e] means below [2^(digits m + e)]. *)
Lemma succ_below_digits m e : (0 <= m)%Z -> mval (m + 1) e <= p2 (Zdigits2 m + e).
Proof.
  intros H. destruct (Z.eq_dec m 0) as [->|Hm].
  - simpl. unfold mval. rewrite Qmult_1_l. apply Qle_refl.
  - rewrite p2_add. unfold mval. apply Qmult_le_compat_r; [| apply Qlt_le_weak, p2_pos].
    pose proof (Zdigits2_pos m ltac:(lia)). rewrite p2_Z by lia. rewrite <- Zle_Qle.
    pose proof (Zdigits2_bounds m ltac:(lia)). lia.
Qed.

Lemma round_nearest_even_cases M r s :
  let R := round_nearest_even M (loc_of_shr_record {| shr_m := M; shr_r := r; shr_s := s |}) in
  R = M \/ (R = (M + 1)%Z /\ r || s = true).
Proof.
  destruct r, s; simpl; try (left; reflexivity); try (right; split; reflexivity).
  destruct (Z.even M); [left; reflexivity | right; split; reflexivity].
Qed.

Lemma shm_of_loc_exact_helper R :
  shr_record_of_loc R loc_Exact = {| shr_m := R; shr_r := false; shr_s := false |}.
Proof. reflexivity. Qed.

Lemma fexp_ge_emin x : (SpecFloat.emin prec emax <= fexp prec emax x)%Z.
Proof. unfold fexp. lia. Qed.

Lemma fexp_ge x : (x - prec <= fexp prec emax x)%Z.
Proof. unfold fexp. lia. Qed.

(** The rounding of [binary_round_aux]: from the integer part [M] of
    [v / 2^E], it takes [M] or, when [v] is above [M 2^E], [M + 1]; the
    result is zero, a finite float of that value, or an infinity when
    that value overflows. *)
Lemma round_aux_spec m e l v :
  Inv m (loc_rs l) e v ->
  exists E M R,
    E = Z.max e (fexp prec emax (Zdigits2 m + e)) /\
    Inv M false E v /\
    (R = M \/ (R = (M + 1)%Z /\ mval M E < v)) /\
    (0 <= R <= 2 ^ prec)%Z /\
    ((binary_round_aux prec emax false m e l = S754_zero false /\ R = 0%Z) \/
     exists m'' e'', mval (Zpos m'') e'' == mval R E /\
       ((binary_round_aux prec emax false m e l = S754_finite false m'' e'' /\
         (e'' <= emax - prec)%Z) \/
        (binary_round_aux prec emax false m e l = S754_infinity false /\
         (emax - prec < e'')%Z))).
Proof.
  intros HI.
  assert (HI0 : Inv (shr_m (shr_record_of_loc m l)) (rs_of (shr_record_of_loc m l)) e v)
    by (rewrite shm_of_loc, rs_of_loc; exact HI).
  set (n := (fexp prec emax (Zdigits2 m + e) - e)%Z).
  destruct (shr_Inv _ e n v HI0) as [HI1 HE].
  remember (binary_round_aux prec emax false m e l) as res eqn:Hres.
  unfold binary_round_aux, shr_fexp at 1 in Hres. fold n in Hres. revert Hres.
  destruct (shr (shr_record_of_loc m l) e n) as [[M r s] E] eqn:Hs. simpl in HI1, HE.
  intros Hres.
  unfold rs_of in HI1; cbn [shr_m shr_r shr_s] in HI1.
  exists E, M.
  change (shr_m {| shr_m := M; shr_r := r; shr_s := s |}) with M in Hres.
  set (R := round_nearest_even M (loc_of_shr_record {| shr_m := M; shr_r := r; shr_s := s |})) in Hres |- *.
  exists R.
  destruct HI1 as (HM0 & HM1 & HM2 & HM3).
  assert (HEe : E = Z.max e (fexp prec emax (Zdigits2 m + e))) by (unfold n in HE; lia).
  assert (HRc : R = M \/ (R = (M + 1)%Z /\ mval M E < v)).
  { destruct (round_nearest_even_cases M r s) as [H | [H1 H2]]; [left; exact H | right; split; auto]. }
  (* M < 2^prec *)
  assert (HMp : (M < 2 ^ prec)%Z).
  { destruct HI as (Hm0 & _ & Hv & _).
    pose proof (succ_below_digits m e Hm0) as Hd.
    pose proof (fexp_ge (Zdigits2 m + e)) as Hf.
    assert (H1 : mval M E < p2 (E + prec)).
    { eapply Qle_lt_trans; [exact HM1 |]. eapply Qlt_le_trans; [exact Hv |].
      eapply Qle_trans; [exact Hd |]. apply p2_le. lia. }
    rewrite p2_add in H1. unfold mval in H1. rewrite (Qmult_comm (p2 E)) in H1.
    apply (proj1 (Qmult_lt_r _ _ _ (p2_pos E))) in H1.
    assert (H2 : p2 prec == inject_Z (2 ^ prec)) by (apply p2_Z; lia).
    rewrite Zlt_Qlt. rewrite <- H2. exact H1. }
  assert (HR : (0 <= R <= 2 ^ prec)%Z) by (destruct HRc as [-> | [-> _]]; lia).
  split; [exact HEe |]. split; [repeat split; auto; discriminate |]. split; [exact HRc |].
  split; [exact HR |].
  assert (HEmin : (SpecFloat.emin prec emax <= E)%Z)
    by (pose proof (fexp_ge_emin (Zdigits2 m + e)); lia).
  clearbody R. clear Hs.
  unfold shr_fexp in Hres.
  set (n2 := (fexp prec emax (Zdigits2 R + E) - E)%Z) in Hres |- *.
  (* the second shift moves at most one bit, and only from 2^prec *)
  assert (Hn2 : (n2 <= 0)%Z \/ (n2 = 1 /\ R = 2 ^ prec)%Z).
  { unfold n2, fexp.
    destruct (Z.eq_dec R 0) as [-> | HR0]; [simpl; left; lia |].
    pose proof (Zdigits2_bounds R ltac:(lia)) as [Hd1 Hd2].
    destruct (Z_le_gt_dec (Zdigits2 R) prec) as [Hle | Hgt]; [left; lia |].
    assert (HRp : (2 ^ prec <= R)%Z).
    { eapply Z.le_trans; [| exact Hd1]. apply Z.pow_le_mono_r; lia. }
    assert (Hdp : (Zdigits2 R <= prec + 1)%Z).
    { destruct (Z_le_gt_dec (Zdigits2 R) (prec + 1)) as [H | H]; [exact H |].
      exfalso. assert (2 ^ (prec + 1) <= 2 ^ (Zdigits2 R - 1))%Z
        by (apply Z.pow_le_mono_r; lia).
      rewrite Z.pow_add_r in H0 by lia. lia. }
    right. split; lia. }
  destruct Hn2 as [Hn2 | [Hn2 HRp]].
  - assert (Hsh : shr {| shr_m := R; shr_r := false; shr_s := false |} E n2 =
                  ({| shr_m := R; shr_r := false; shr_s := false |}, E)).
    { destruct n2; [reflexivity | lia | reflexivity]. }
    rewrite shm_of_loc_exact_helper, Hsh in Hres. cbv beta iota in Hres. cbn [shr_m] in Hres. subst res.
    destruct R as [|pR|pR] eqn:ER; [left; split; reflexivity | | lia].
    right. exists pR, E. split; [reflexivity |].
    destruct (Z.leb_spec E (emax - prec)) as [Ee | Ee]; [left | right];
      (split; [reflexivity | lia]).
  - rewrite Hn2, shm_of_loc_exact_helper in Hres.
    change (shr {| shr_m := R; shr_r := false; shr_s := false |} E 1) with
      (shr_1 {| shr_m := R; shr_r := false; shr_s := false |}, (E + 1)%Z) in Hres.
    destruct (shr_1_spec R false false ltac:(lia)) as (q & b & Hq & Hrq & Hq0).
    rewrite Hq in Hres. cbv beta iota in Hres. cbn [shr_m] in Hres. subst res.
    assert (Hb : b = false).
    { destruct b; [| reflexivity]. exfalso.
      assert (Heven : Z.even (2 ^ prec) = true)
        by (rewrite Z.even_pow by lia; reflexivity).
      rewrite <- HRp, Hrq in Heven. rewrite Z.add_comm, Z.even_add_mul_2 in Heven. discriminate. }
    subst b. rewrite Z.add_0_r in Hrq.
    assert (Hqp : (0 < q)%Z).
    { assert (0 < 2 ^ prec)%Z by (apply Z.pow_pos_nonneg; lia). lia. }
    destruct q as [|pq|pq]; try lia.
    right. exists pq, (E + 1)%Z. split.
    + rewrite mval_add_exp. rewrite Hrq. unfold mval. rewrite inject_Z_mult.
      change (p2 1) with (2 # 1). change (inject_Z 2) with (2 # 1). ring.
    + destruct (Z.leb_spec (E + 1) (emax - prec)) as [Ee | Ee]; [left | right];
        (split; [reflexivity | lia]).
Qed.

End Round.

Section Ops.
Variables prec emax : Z.
Hypothesis prec_gt_1 : (1 < prec)%Z.
Hypothesis prec_lt_emax : (prec < emax)%Z.

Lemma valid_canon s m e :
  SpecFloat.valid_binary prec emax (S754_finite s m e) = true ->
  fexp prec emax (Zdigits2 (Zpos m) + e) = e /\ (e <= emax - prec)%Z.
Proof.
  unfold valid_binary, bounded, canonical_mantissa. intros H.
  apply andb_prop in H as [H1 H2]. apply Z.eqb_eq in H1. apply Z.leb_le in H2. auto.
Qed.

(** Upper bound of a valid float from its exponent. *)
Lemma valid_hi s m e :
  SpecFloat.valid_binary prec emax (S754_finite s m e) = true ->
  mval (Zpos m) e < p2 (e + prec) /\ (SpecFloat.emin prec emax <= e)%Z.
Proof.
  intros H. destruct (valid_canon s m e H) as [Hc _].
  pose proof (fexp_ge prec emax (Zdigits2 (Zpos m) + e)) as Hf.
  pose proof (fexp_ge_emin prec emax (Zdigits2 (Zpos m) + e)) as Hm.
  split; [| lia].
  eapply Qlt_le_trans; [apply mval_digits_hi; lia |]. apply p2_le. lia.
Qed.

(** On valid positive floats the comparison of SpecFloat is the
    comparison of the values. *)
Lemma SFleb_finite m1 e1 m2 e2 :
  SpecFloat.valid_binary prec emax (S754_finite false m1 e1) = true ->
  SpecFloat.valid_binary prec emax (S754_finite false m2 e2) = true ->
  mval (Zpos m1) e1 <= mval (Zpos m2) e2 ->
  SFleb (S754_finite false m1 e1) (S754_finite false m2 e2) = true.
Proof.
  intros V1 V2 H. unfold SFleb, SFcompare.
  destruct (Z.compare_spec e1 e2) as [-> | Hlt | Hgt].
  - assert (Hm : (Zpos m1 <= Zpos m2)%Z).
    { unfold mval in H. rewrite Zle_Qle. apply (Qmult_le_r_inv _ _ (p2 e2) (p2_pos e2)). exact H. }
    change (Pos.compare_cont Eq m1 m2) with (Pos.compare m1 m2).
    destruct (Pos.compare_spec m1 m2); try reflexivity. lia.
  - reflexivity.
  - exfalso.
    destruct (valid_canon _ _ _ V1) as [C1 _].
    destruct (valid_hi _ _ _ V2) as [H2 Hm2].
    destruct (valid_canon _ _ _ V2) as [C2 _].
    assert (Hd1 : (Zdigits2 (Zpos m1) = prec)%Z).
    { unfold fexp in C1. lia. }
    pose proof (mval_digits_lo (Zpos m1) e1 ltac:(lia)) as L1.
    rewrite Hd1 in L1.
    assert (p2 (e2 + prec) <= p2 (prec - 1 + e1)) by (apply p2_le; lia).
    apply (Qlt_irrefl (mval (Zpos m2) e2)).
    eapply Qlt_le_trans; [exact H2 |]. eapply Qle_trans; [exact H0 |].
    eapply Qle_trans; [exact L1 | exact H].
Qed.

Lemma iter_xO m d : Zpos (Pos.iter xO m d) = (Zpos m * 2 ^ Zpos d)%Z.
Proof.
  induction d as [|d IH] using Pos.peano_ind.
  - simpl. lia.
  - rewrite Pos.iter_succ, Pos2Z.inj_xO, IH, Pos2Z.inj_succ, Z.pow_succ_r by lia. lia.
Qed.

Lemma shl_align_val mx ex ex' :
  mval (Zpos (fst (shl_align mx ex ex'))) (snd (shl_align mx ex ex')) == mval (Zpos mx) ex /\
  (snd (shl_align mx ex ex') <= ex)%Z /\
  (snd (shl_align mx ex ex') = Z.min ex ex').
Proof.
  unfold shl_align. destruct (ex' - ex)%Z as [|d|d] eqn:Hd; simpl.
  - split; [reflexivity | lia].
  - split; [reflexivity | lia].
  - rewrite iter_xO. split; [| lia].
    rewrite (mval_shift (Zpos mx) ex' ex) by lia.
    replace (ex - ex')%Z with (Zpos d) by lia. reflexivity.
Qed.

(** The rounded value is at least every valid positive float below the
    exact value: the rounding of [binary_round] never goes below a float
    it could have returned. *)
Lemma grid_lb mt et m e v E M :
  SpecFloat.valid_binary prec emax (S754_finite false mt et) = true ->
  (0 < m)%Z -> v == mval m e ->
  E = Z.max e (fexp prec emax (Zdigits2 m + e)) ->
  Inv M false E v -> mval (Zpos mt) et <= v -> mval (Zpos mt) et <= mval M E.
Proof.
  intros Vt Hm Hv HE (HM0 & HM1 & HM2 & _) Ht.
  destruct (Z_le_gt_dec E et) as [Hge | Hlt].
  - rewrite (mval_shift (Zpos mt) E et Hge) in Ht |- *.
    apply mval_le_mono. eapply grid_le; [exact Ht | exact HM2].
  - destruct (valid_hi _ _ _ Vt) as [Ht2 Htmin].
    destruct (valid_canon _ _ _ Vt) as [Ct _].
    destruct (Z_le_gt_dec (fexp prec emax (Zdigits2 m + e)) e) as [Hfe | Hfe].
    + assert (HEe : E = e) by lia. rewrite HEe in *.
      assert (HmM : (m <= M)%Z).
      { eapply grid_le; [| exact HM2]. rewrite Hv. unfold mval. apply Qle_refl. }
      eapply Qle_trans; [exact Ht |]. rewrite Hv. apply mval_le_mono. exact HmM.
    + assert (HE' : E = (Zdigits2 m + e - prec)%Z).
      { unfold fexp in *. lia. }
      set (K := (Zdigits2 m + e - 1)%Z).
      assert (HK : p2 K <= v) by (rewrite Hv; replace K with (Zdigits2 m - 1 + e)%Z by (unfold K; lia); apply mval_digits_lo; exact Hm).
      assert (HKE : p2 K == mval (2 ^ (K - E)) E).
      { unfold mval. rewrite <- p2_Z by lia. rewrite <- p2_add. replace (K - E + E)%Z with K by lia.
        reflexivity. }
      assert (HKM : p2 K <= mval M E).
      { rewrite HKE in HK |- *. apply mval_le_mono. eapply grid_le; [exact HK | exact HM2]. }
      apply Qlt_le_weak. eapply Qlt_le_trans; [exact Ht2 |].
      eapply Qle_trans; [| exact HKM]. apply p2_le.
      pose proof (fexp_ge prec emax (Zdigits2 (Zpos mt) + et)). unfold K. lia.
Qed.

End Ops.

Section Arith.
Variables prec emax : Z.
Hypothesis prec_gt_1 : (1 < prec)%Z.
Hypothesis prec_lt_emax : (prec < emax)%Z.

Definition fval (x : spec_float) : Q :=
  match x with
  | S754_finite false m e => mval (Zpos m) e
  | S754_finite true m e => - mval (Zpos m) e
  | _ => 0
  end.

Definition nonneg (x : spec_float) : Prop :=
  match x with
  | S754_zero _ => True
  | S754_finite false _ _ => True
  | _ => False
  end.

Lemma mval_pos m e : (0 < m)%Z -> 0 < mval m e.
Proof.
  intros H. unfold mval. apply Qmult_lt_0_compat; [| apply p2_pos].
  change 0 with (inject_Z 0). rewrite <- Zlt_Qlt. exact H.
Qed.

Lemma mval_succ m e : mval m e < mval (m + 1) e.
Proof.
  unfold mval. apply Qmult_lt_r; [apply p2_pos |]. rewrite <- Zlt_Qlt. lia.
Qed.

Lemma binary_round_lb p ez mt et :
  SpecFloat.valid_binary prec emax (S754_finite false mt et) = true ->
  mval (Zpos mt) et <= mval (Zpos p) ez ->
  binary_round prec emax false p ez = S754_infinity false \/
  exists m e, binary_round prec emax false p ez = S754_finite false m e /\
    forall mt' et', SpecFloat.valid_binary prec emax (S754_finite false mt' et') = true ->
      mval (Zpos mt') et' <= mval (Zpos p) ez -> mval (Zpos mt') et' <= mval (Zpos m) e.
Proof.
  intros Vt Ht. unfold binary_round.
  pose proof (shl_align_val p ez (fexp prec emax (Zpos (digits2_pos p) + ez))) as [Hsh _].
  destruct (shl_align p ez (fexp prec emax (Zpos (digits2_pos p) + ez))) as [mz ez'] eqn:Hs.
  simpl in Hsh. set (v := mval (Zpos p) ez) in *.
  assert (HI : Inv (Zpos mz) (loc_rs loc_Exact) ez' v).
  { unfold Inv. rewrite <- Hsh. repeat split; try lia; try apply Qle_refl; try apply mval_succ.
    discriminate. }
  destruct (round_aux_spec prec emax prec_gt_1 _ _ _ _ HI)
    as (E & M & R & HE & HM & HR & HRb & Hcases).
  assert (Hlb : forall mt' et', SpecFloat.valid_binary prec emax (S754_finite false mt' et') = true ->
      mval (Zpos mt') et' <= v -> mval (Zpos mt') et' <= mval R E).
  { intros mt' et' V' H'. eapply Qle_trans.
    - eapply (grid_lb prec emax prec_gt_1 mt' et' (Zpos mz) ez' v E M); eauto.
      + lia.
      + rewrite Hsh. reflexivity.
    - apply mval_le_mono. destruct HR as [-> | [-> _]]; lia. }
  destruct Hcases as [[Hz HR0] | (m'' & e'' & Hval & [[Hf _] | [Hi _]])].
  - exfalso. specialize (Hlb mt et Vt Ht). rewrite HR0 in Hlb.
    unfold mval in Hlb at 2. simpl in Hlb. rewrite Qmult_0_l in Hlb.
    pose proof (mval_pos (Zpos mt) et eq_refl). lra.
  - right. exists m'', e''. split; [exact Hf |].
    intros mt' et' V' H'. rewrite Hval. apply Hlb; assumption.
  - left. exact Hi.
Qed.

(** Adding two non-negative floats: the result is [+inf], or a
    non-negative float at least as large as each operand, and positive
    when the second operand is positive. *)
Lemma SFadd_nonneg_lb x y :
  nonneg x -> nonneg y ->
  SpecFloat.valid_binary prec emax x = true -> SpecFloat.valid_binary prec emax y = true ->
  SFadd prec emax x y = S754_infinity false \/
  (nonneg (SFadd prec emax x y) /\ fval x <= fval (SFadd prec emax x y) /\
   fval y <= fval (SFadd prec emax x y) /\
   (forall m e, y = S754_finite false m e ->
      exists m' e', SFadd prec emax x y = S754_finite false m' e')).
Proof.
  intros Nx Ny Vx Vy.
  destruct x as [sx| | |[|] mx ex]; try contradiction;
  destruct y as [sy| | |[|] my ey]; try contradiction.
  - right. destruct sx, sy; simpl; (split; [exact I | split; [apply Qle_refl | split; [apply Qle_refl | discriminate]]]).
  - right. simpl. split; [exact I |]. split; [apply Qlt_le_weak, mval_pos; lia |].
    split; [apply Qle_refl |]. intros m e [= -> ->]. eauto.
  - right. simpl. split; [exact I |]. split; [apply Qle_refl |].
    split; [apply Qlt_le_weak, mval_pos; lia | discriminate].
  - cbn [SFadd cond_Zopp].
    set (ez := Z.min ex ey).
    pose proof (shl_align_val mx ex ez) as [Hx [_ Hx2]].
    pose proof (shl_align_val my ey ez) as [Hy [_ Hy2]].
    destruct (shl_align mx ex ez) as [ax ex'] eqn:Ha.
    destruct (shl_align my ey ez) as [ay ey'] eqn:Hb.
    simpl in Hx, Hy, Hx2, Hy2 |- *.
    subst ex' ey'.
    replace (Z.min ex ez) with ez in * by (unfold ez; lia).
    replace (Z.min ey ez) with ez in * by (unfold ez; lia).
    change (Zpos ax + Zpos ay)%Z with (Zpos (ax + ay)).
    cbn [binary_normalize].
    assert (Hsum : mval (Zpos (ax + ay)) ez == mval (Zpos mx) ex + mval (Zpos my) ey).
    { rewrite <- Hx, <- Hy. unfold mval. rewrite Pos2Z.inj_add, inject_Z_plus. ring. }
    assert (HxS : mval (Zpos mx) ex <= mval (Zpos (ax + ay)) ez).
    { rewrite Hsum. pose proof (mval_pos (Zpos my) ey eq_refl). lra. }
    assert (HyS : mval (Zpos my) ey <= mval (Zpos (ax + ay)) ez).
    { rewrite Hsum. pose proof (mval_pos (Zpos mx) ex eq_refl). lra. }
    destruct (binary_round_lb (ax + ay) ez mx ex Vx HxS) as [Hi | (m & e & Hf & Hlb)].
    + left. exact Hi.
    + right. rewrite Hf. simpl. split; [exact I |].
      split; [apply Hlb; assumption |]. split; [apply Hlb; assumption |]. eauto.
Qed.

Lemma loc_rs_new_location nb k : loc_rs (new_location nb k) = negb (k =? 0)%Z.
Proof.
  unfold new_location, new_location_even, new_location_odd.
  destruct (Z.even nb), (k =? 0)%Z; reflexivity.
Qed.

(** The core of the division: [q 2^e'] brackets the exact quotient. *)
Lemma div_core_Inv m1 e1 m2 e2 :
  let '(q, e', l) := SFdiv_core_binary prec emax (Zpos m1) e1 (Zpos m2) e2 in
  Inv q (loc_rs l) e' (mval (Zpos m1) e1 / mval (Zpos m2) e2) /\
  (e' <= fexp prec emax (Zdigits2 (Zpos m1) + e1 - (Zdigits2 (Zpos m2) + e2)))%Z.
Proof.
  unfold SFdiv_core_binary.
  set (e' := Z.min _ (e1 - e2)).
  set (s := (e1 - e2 - e')%Z).
  assert (Hs : (0 <= s)%Z) by (unfold s, e'; lia).
  set (m' := match s with Zpos _ => Z.shiftl (Zpos m1) s | Z0 => Zpos m1 | Zneg _ => 0%Z end).
  assert (Hm' : m' = (Zpos m1 * 2 ^ s)%Z).
  { unfold m'. destruct s as [|p|p] eqn:Es; [lia | | lia].
    rewrite Z.shiftl_mul_pow2 by lia. reflexivity. }
  pose proof (Z_div_mod m' (Zpos m2) ltac:(lia)) as Hdm.
  destruct (Z.div_eucl m' (Zpos m2)) as [q r].
  destruct Hdm as [Hqr Hr].
  split; [| unfold e'; lia].
  rewrite loc_rs_new_location.
  assert (Hm2 : 0 < mval (Zpos m2) e2) by (apply mval_pos; lia).
  (* m1 2^e1 = m' 2^(e2 + e') *)
  assert (H1 : mval (Zpos m1) e1 == inject_Z m' * p2 e2 * p2 e').
  { rewrite Hm'. unfold mval. rewrite inject_Z_mult, <- p2_Z by exact Hs.
    replace e1 with (s + e2 + e')%Z at 1 by (unfold s; lia). rewrite !p2_add. ring. }
  assert (Hq0 : (0 <= q)%Z).
  { assert (0 <= m')%Z by (rewrite Hm'; pose proof (Z.pow_pos_nonneg 2 s); lia). nia. }
  unfold Inv. split; [exact Hq0 |].
  split; [| split].
  - apply Qle_shift_div_l; [exact Hm2 |]. rewrite H1. unfold mval.
    setoid_replace (inject_Z q * p2 e' * (inject_Z (Zpos m2) * p2 e2))
      with (inject_Z (Zpos m2 * q) * p2 e2 * p2 e') by (rewrite inject_Z_mult; ring).
    apply Qmult_le_compat_r; [| apply Qlt_le_weak, p2_pos].
    apply Qmult_le_compat_r; [| apply Qlt_le_weak, p2_pos].
    rewrite <- Zle_Qle. lia.
  - apply Qlt_shift_div_r; [exact Hm2 |]. rewrite H1. unfold mval.
    setoid_replace (inject_Z (q + 1) * p2 e' * (inject_Z (Zpos m2) * p2 e2))
      with (inject_Z (Zpos m2 * (q + 1)) * p2 e2 * p2 e') by (rewrite inject_Z_mult; ring).
    apply Qmult_lt_r; [apply p2_pos |]. apply Qmult_lt_r; [apply p2_pos |].
    rewrite <- Zlt_Qlt. lia.
  - intros Hr0. apply negb_true_iff, Z.eqb_neq in Hr0.
    apply Qlt_shift_div_l; [exact Hm2 |]. rewrite H1. unfold mval.
    setoid_replace (inject_Z q * p2 e' * (inject_Z (Zpos m2) * p2 e2))
      with (inject_Z (Zpos m2 * q) * p2 e2 * p2 e') by (rewrite inject_Z_mult; ring).
    apply Qmult_lt_r; [apply p2_pos |]. apply Qmult_lt_r; [apply p2_pos |].
    rewrite <- Zlt_Qlt. lia.
Qed.

End Arith.

Section Div.
Variables prec emax : Z.
Hypothesis prec_gt_1 : (1 < prec)%Z.
Hypothesis prec_lt_emax : (prec < emax)%Z.

Lemma p2_le_mval m e : p2 e <= mval (Zpos m) e.
Proof.
  eapply Qle_trans; [| apply (mval_le_mono 1 (Zpos m) e); lia].
  unfold mval. rewrite Qmult_1_l. apply Qle_refl.
Qed.

Lemma fexp_neg x : (x <= 1)%Z -> (fexp prec emax x < 0)%Z.
Proof. intros H. unfold fexp, SpecFloat.emin. lia. Qed.

(** Dividing a positive float by a float at least as large gives zero or
    a finite float of value at most 1: the quotient never rounds above 1
    and never overflows. *)
Lemma SFdiv_le_one m1 e1 m2 e2 :
  mval (Zpos m1) e1 <= mval (Zpos m2) e2 ->
  SFdiv prec emax (S754_finite false m1 e1) (S754_finite false m2 e2) = S754_zero false \/
  exists m e, SFdiv prec emax (S754_finite false m1 e1) (S754_finite false m2 e2) = S754_finite false m e /\
    mval (Zpos m) e <= 1.
Proof.
  intros H12. pose proof (div_core_Inv prec emax m1 e1 m2 e2) as Hc.
  unfold SFdiv. destruct (SFdiv_core_binary prec emax (Zpos m1) e1 (Zpos m2) e2) as [[q e'] l].
  destruct Hc as [HI He']. cbn [xorb].
  set (v := mval (Zpos m1) e1 / mval (Zpos m2) e2) in *.
  assert (Hm2 : 0 < mval (Zpos m2) e2) by (apply mval_pos; lia).
  assert (Hv1 : v <= 1).
  { apply Qle_shift_div_r; [exact Hm2 |]. rewrite Qmult_1_l. exact H12. }
  assert (Hd : (Zdigits2 (Zpos m1) - 1 + e1 < Zdigits2 (Zpos m2) + e2)%Z).
  { apply p2_lt_inv. eapply Qle_lt_trans; [apply mval_digits_lo; lia |].
    eapply Qle_lt_trans; [exact H12 | apply mval_digits_hi; lia]. }
  assert (He'0 : (e' < 0)%Z).
  { pose proof (fexp_neg (Zdigits2 (Zpos m1) + e1 - (Zdigits2 (Zpos m2) + e2)) ltac:(lia)). lia. }
  destruct (round_aux_spec prec emax prec_gt_1 _ _ _ _ HI)
    as (E & M & R & HE & HM & HR & HRb & Hcases).
  assert (HE0 : (E <= 0)%Z).
  { rewrite HE. apply Z.max_lub; [lia |].
    destruct HI as [Hq0 [Hq1 _]].
    destruct (Z.eq_dec q 0) as [-> | Hq].
    - change (Zdigits2 0) with 0%Z. rewrite Z.add_0_l. pose proof (fexp_neg e' ltac:(lia)). lia.
    - assert (Hdq : (Zdigits2 q - 1 + e' <= 0)%Z).
      { apply p2_le_inv. rewrite p2_0. eapply Qle_trans; [apply mval_digits_lo; lia |].
        eapply Qle_trans; [exact Hq1 | exact Hv1]. }
      assert (fexp prec emax (Zdigits2 q + e') < 0)%Z by (apply fexp_neg; lia). lia. }
  assert (Hone : 1 == mval (2 ^ (- E)) E).
  { unfold mval. rewrite <- p2_Z by lia. rewrite <- p2_add. replace (- E + E)%Z with 0%Z by lia.
    rewrite p2_0. reflexivity. }
  assert (HR1 : mval R E <= 1).
  { destruct HM as [_ [HM1 _]].
    destruct HR as [-> | [-> HMv]].
    - eapply Qle_trans; [exact HM1 | exact Hv1].
    - rewrite Hone. apply mval_le_mono.
      assert (HMlt : mval M E < mval (2 ^ (- E)) E).
      { rewrite <- Hone. eapply Qlt_le_trans; [exact HMv | exact Hv1]. }
      apply mval_lt_inv in HMlt. lia. }
  destruct Hcases as [[Hz _] | (m'' & e'' & Hval & [[Hf _] | [Hi Hov]])].
  - left. exact Hz.
  - right. exists m'', e''. split; [exact Hf |]. rewrite Hval. exact HR1.
  - exfalso. rewrite <- Hval in HR1.
    assert (Hp : p2 e'' <= p2 0) by (rewrite p2_0; eapply Qle_trans; [apply p2_le_mval | exact HR1]).
    apply p2_le_inv in Hp. lia.
Qed.

End Div.

Lemma Prim2SF_infinity : Prim2SF infinity = S754_infinity false.
Proof. vm_compute. reflexivity. Qed.

Lemma Prim2SF_zero : Prim2SF 0%float = S754_zero false.
Proof. vm_compute. reflexivity. Qed.

Lemma prec_gt_1_64 : (1 < FloatOps.prec)%Z.
Proof. reflexivity. Qed.

Lemma prec_lt_emax_64 : (FloatOps.prec < FloatOps.emax)%Z.
Proof. reflexivity. Qed.

(** A finite non-negative double is, as a SpecFloat, a zero of either sign
    or a positive finite number. *)
Lemma nonneg_Prim2SF d :
  PrimFloat.is_finite d = true -> (0 <=? d)%float = true -> nonneg (Prim2SF d).
Proof.
  intros Hf Hn. rewrite leb_spec, Prim2SF_zero in Hn.
  unfold PrimFloat.is_finite, is_infinity in Hf.
  rewrite FloatAxioms.eqb_spec, abs_spec, Prim2SF_infinity in Hf.
  destruct (Prim2SF d) as [s|[]| |[] m e]; simpl in *; try discriminate; try exact I.
  rewrite orb_true_r in Hf. discriminate.
Qed.

(** The score of set_scores in double precision: for finite non-negative
    [d1] and [d2] the denominator [d1 + d2 + 1e-9] is positive and the
    quotient lies in [0, 1]. *)
#[warnings="-inexact-float"]
Lemma score_float_bounds d1 d2 :
  PrimFloat.is_finite d1 = true -> PrimFloat.is_finite d2 = true ->
  (0 <=? d1)%float = true -> (0 <=? d2)%float = true ->
  (0 <? d1 + d2 + 1e-9)%float = true /\
  (0 <=? d1 / (d1 + d2 + 1e-9))%float = true /\
  (d1 / (d1 + d2 + 1e-9) <=? 1)%float = true.
Proof.
  intros F1 F2 N1 N2.
  pose proof (nonneg_Prim2SF d1 F1 N1) as P1.
  pose proof (nonneg_Prim2SF d2 F2 N2) as P2.
  assert (Heps : Prim2SF 0x1.12e0be826d695p-30%float = S754_finite false 4835703278458517 (-82)) by (vm_compute; reflexivity).
  assert (Hone : Prim2SF 1%float = S754_finite false 4503599627370496 (-52)) by (vm_compute; reflexivity).
  assert (Hone_val : mval (Zpos 4503599627370496) (-52) == 1) by (vm_compute; reflexivity).
  rewrite !ltb_spec, !leb_spec, !div_spec, !add_spec, Prim2SF_zero, Hone.
  pose proof (Prim2SF_valid d1) as V1. pose proof (Prim2SF_valid d2) as V2.
  pose proof (Prim2SF_valid (d1 + d2)) as V12. rewrite add_spec in V12.
  pose proof (Prim2SF_valid (d1 / (d1 + d2 + 0x1.12e0be826d695p-30%float))) as Vq. rewrite div_spec, !add_spec in Vq.
  pose proof (Prim2SF_valid 0x1.12e0be826d695p-30%float) as Ve.
  rewrite Heps in Ve |- *. rewrite Heps in Vq.
  unfold SF64add, SF64div in *.
  set (x1 := Prim2SF d1) in *. set (x2 := Prim2SF d2) in *.
  (* the denominator is +inf, or positive finite and at least d1 *)
  assert (Hden : SFadd prec emax (SFadd prec emax x1 x2) (S754_finite false 4835703278458517 (-82)) = S754_infinity false \/
    exists m e, SFadd prec emax (SFadd prec emax x1 x2) (S754_finite false 4835703278458517 (-82)) = S754_finite false m e /\
      fval x1 <= mval (Zpos m) e).
  { destruct (SFadd_nonneg_lb _ _ prec_gt_1_64 x1 x2 P1 P2 V1 V2) as [Hs | (Ns & L1 & _)].
    - left. rewrite Hs. reflexivity.
    - destruct (SFadd_nonneg_lb _ _ prec_gt_1_64 (SFadd prec emax x1 x2) (S754_finite false 4835703278458517 (-82)) Ns I V12 Ve)
        as [Hd | (_ & L2 & _ & Hpos)].
      + left. exact Hd.
      + destruct (Hpos _ _ eq_refl) as (m & e & Hme). right. exists m, e. split; [exact Hme |].
        rewrite Hme in L2. eapply Qle_trans; [exact L1 | exact L2]. }
  destruct Hden as [Hd | (m & e & Hd & Hle)]; rewrite Hd in Vq |- *.
  - destruct x1 as [s|[]| |[] m1 e1]; try contradiction; simpl; auto.
  - split; [reflexivity |].
    destruct x1 as [s|[]| |[] m1 e1]; try contradiction.
    + simpl. auto.
    + simpl in Hle.
      destruct (SFdiv_le_one _ _ prec_gt_1_64 prec_lt_emax_64 m1 e1 m e Hle) as [Hq | (mq & eq & Hq & Hq1)];
        rewrite Hq in Vq |- *.
      * simpl. auto.
      * split; [reflexivity |]. apply (SFleb_finite prec emax).
        -- exact Vq.
        -- rewrite <- Hone. apply Prim2SF_valid.
        -- rewrite Hone_val. exact Hq1.
Qed.

End Binary64.

Definition landmark_far : list point :=
  [mkPoint (10 ^ 8) (-1); mkPoint (10 ^ 8) 1; mkPoint (10 ^ 8 + 1) 0].
Definition landmark_near : list point := [mkPoint 0 0; mkPoint 1 0; mkPoint 0 1].
Definition origin_shape (R : Type) : shape R :=
  mkShape [mkPoint (-1) (-1); mkPoint 1 (-1); mkPoint 1 1; mkPoint (-1) 1] None.

(** The two distances of the centroid (0, 0) of [origin_shape]: 1e8 to the
    edge x = 1e8 of [landmark_far], 0 to the vertex (0, 0) of
    [landmark_near]; both exact in double precision. *)
Definition example_dist (c : point) (l : list point) : float :=
  match l with
  | p :: _ => if Qeq_bool (px p) 0 then 0%float else 1e8%float
  | [] => 0%float
  end.

(** C10 (counterexample): in double precision the score of [origin_shape]
    is exactly 1.0, since 1e8 + 0 + 1e-9 rounds to 1e8: the score is not
    below 1. *)
Lemma set_scores_float_reaches_one :
  set_scores_float example_dist [landmark_far; landmark_near] [origin_shape float] =
  Some [mkShape (points (origin_shape float)) (Some 1%float)] /\
  PrimFloat.ltb 1%float 1%float = false.
Proof. split; vm_compute; reflexivity. Qed.

(** C10 (amended): set_scores needs exactly two landmarks and gives every
    shape the score [d1 / (d1 + d2 + 1e-9)] of its centroid's distances.
    In exact arithmetic, for non-negative distances, the denominator is
    strictly positive and the score lies in [0, 1).  In double precision,
    for finite non-negative distances, the computed denominator is strictly
    positive and the computed score lies in [0, 1]; the rounding of
    [d1 + d2 + 1e-9] can make it exactly 1.0, as for [origin_shape]. *)
#[warnings="-inexact-float"]
Theorem set_scores_range :
  (forall (dist_to_polygon : point -> list point -> Q),
     (forall c l, 0 <= dist_to_polygon c l) ->
     forall (landmarks : list (list point)) (shs : list (shape Q)),
       (set_scores_Q dist_to_polygon landmarks shs = None <-> length landmarks <> 2%nat) /\
       (length landmarks = 2%nat ->
        exists shs', set_scores_Q dist_to_polygon landmarks shs = Some shs' /\
          map points shs' = map points shs /\
          Forall (fun sh => exists d1 d2, 0 <= d1 /\ 0 <= d2 /\ 0 < d1 + d2 + eps9 /\
                    score sh = Some (d1 / (d1 + d2 + eps9)) /\
                    0 <= d1 / (d1 + d2 + eps9) /\ d1 / (d1 + d2 + eps9) < 1) shs')) /\
  (forall (dist_to_polygon : point -> list point -> float),
     (forall c l, PrimFloat.is_finite (dist_to_polygon c l) = true /\
                  (0 <=? dist_to_polygon c l)%float = true) ->
     forall (landmarks : list (list point)) (shs : list (shape float)),
       (set_scores_float dist_to_polygon landmarks shs = None <-> length landmarks <> 2%nat) /\
       (length landmarks = 2%nat ->
        exists shs', set_scores_float dist_to_polygon landmarks shs = Some shs' /\
          map points shs' = map points shs /\
          Forall (fun sh => exists d1 d2,
                    PrimFloat.is_finite d1 = true /\ (0 <=? d1)%float = true /\
                    PrimFloat.is_finite d2 = true /\ (0 <=? d2)%float = true /\
                    (0 <? d1 + d2 + 1e-9)%float = true /\
                    score sh = Some (d1 / (d1 + d2 + 1e-9))%float /\
                    (0 <=? d1 / (d1 + d2 + 1e-9))%float = true /\
                    (d1 / (d1 + d2 + 1e-9) <=? 1)%float = true) shs')) /\
  set_scores_float example_dist [landmark_far; landmark_near] [origin_shape float] =
  Some [mkShape (points (origin_shape float)) (Some 1%float)].
Proof.
  split; [| split; [| vm_compute; reflexivity]].
  - intros dist Hnn landmarks shs. split.
    + destruct landmarks as [|l1 [|l2 [|l3 ls]]]; simpl;
        (split; [intros H | intros H]); try discriminate; try reflexivity; try lia.
    + intros Hl. destruct landmarks as [|l1 [|l2 [|l3 ls]]]; simpl in Hl; try (exfalso; lia).
      eexists. split; [reflexivity |]. split.
      * rewrite map_map. simpl. reflexivity.
      * apply Forall_forall. intros sh Hsh. apply in_map_iff in Hsh.
        destruct Hsh as [sh0 [<- _]]. simpl.
        set (d1 := dist (centroid (points sh0)) l1).
        set (d2 := dist (centroid (points sh0)) l2).
        exists d1, d2.
        destruct (score_bounds d1 d2 (Hnn _ _) (Hnn _ _)) as (H1 & H2 & H3).
        repeat split; first [exact (Hnn _ _) | assumption | reflexivity].
  - intros dist Hnn landmarks shs. split.
    + destruct landmarks as [|l1 [|l2 [|l3 ls]]]; simpl;
        (split; [intros H | intros H]); try discriminate; try reflexivity; try lia.
    + intros Hl. destruct landmarks as [|l1 [|l2 [|l3 ls]]]; simpl in Hl; try (exfalso; lia).
      eexists. split; [reflexivity |]. split.
      * rewrite map_map. simpl. reflexivity.
      * apply Forall_forall. intros sh Hsh. apply in_map_iff in Hsh.
        destruct Hsh as [sh0 [<- _]]. simpl.
        set (d1 := dist (centroid (points sh0)) l1).
        set (d2 := dist (centroid (points sh0)) l2).
        exists d1, d2.
        destruct (Hnn (centroid (points sh0)) l1) as [F1 N1].
        destruct (Hnn (centroid (points sh0)) l2) as [F2 N2].
        destruct (Binary64.score_float_bounds d1 d2 F1 F2 N1 N2) as (H1 & H2 & H3).
        repeat split; assumption.
Qed.

Lemma set_scores_range_witness :
  (exists shs', set_scores_Q (fun _ _ => 1) [landmark_far; landmark_near] [origin_shape Q] = Some shs') /\
  (exists shs', set_scores_float example_dist [landmark_far; landmark_near] [origin_shape float] = Some shs').
Proof.
  split.
  - destruct (proj2 (proj1 set_scores_range (fun _ _ => 1) (fun _ _ => ltac:(unfold Qle; simpl; lia))
                       [landmark_far; landmark_near] [origin_shape Q]) eq_refl)
      as [shs' [H _]].
    exists shs'. exact H.
  - destruct (proj2 (proj1 (proj2 set_scores_range) example_dist
                       (fun c l => ltac:(unfold example_dist; destruct l as [|p l];
                                          [| destruct (Qeq_bool (px p) 0)];
                                          split; vm_compute; reflexivity))
                       [landmark_far; landmark_near] [origin_shape float]) eq_refl)
      as [shs' [H _]].
    exists shs'. exact H.
Defined.

Lemma select_shapes_union_count_witness :
  exists sel ws, select_shapes_union three_shapes [0; 1; 2]%nat 2 = Ok (sel, ws) /\
    length sel = Z.to_nat 2 /\ Forall (fun w => w = SomeContiguous) ws.
Proof. apply select_shapes_union_count. simpl. lia. Defined.

(** ** State predicates and undo *)

Lemma is_state_true s m : is_state s m = true <-> mstate m = s.
Proof. unfold is_state, AppState_eqb. destruct (AppState_eq_dec (mstate m) s); split; congruence. Qed.

Lemma is_state_false s m : is_state s m = false <-> mstate m <> s.
Proof. unfold is_state, AppState_eqb. destruct (AppState_eq_dec (mstate m) s); split; congruence. Qed.

Lemma manager_eta m :
  mkManager (mstate m) (core m) (landmarks m) (current_lnd_points m) (current_ar_points m)
    (calibration_points m) (confirm_lnd_enabled m) (confirm_ar_enabled m) = m.
Proof. destruct m; reflexivity. Qed.

Lemma removelast_snoc {A} (l : list A) x : removelast (l ++ [x]) = l.
Proof. apply removelast_last. Qed.

(** Undo after a click restores the point list and the confirm button. *)
Theorem undo_restores_selection (m : manager) (p : point) :
  (mstate m = SELECTING_LND ->
   confirm_lnd_enabled m = (2 <? length (current_lnd_points m))%nat ->
   match add_lnd_point m p with
   | Some m1 => delete_last_lnd_point m1
   | None => None
   end = Some m) /\
  (mstate m = SELECTING_AR ->
   confirm_ar_enabled m = (2 <? length (current_ar_points m))%nat ->
   match add_ar_point m p with
   | Some m1 => delete_last_ar_point m1
   | None => None
   end = Some m).
Proof.
  split; intros Hs He.
  - unfold add_lnd_point, delete_last_lnd_point.
    assert (Hi : is_state SELECTING_LND m = true) by (apply is_state_true; exact Hs).
    rewrite Hi. destruct m as [s c l cur car cal bl ba]; simpl in *.
    unfold set_current_lnd, set_confirm_lnd, is_state in *; simpl in *.
    rewrite length_app; simpl.
    destruct (2 <? length cur + 1)%nat eqn:E1; simpl; rewrite Hi;
      replace (0 <? length (cur ++ [p]))%nat with true
        by (symmetry; apply Nat.ltb_lt; rewrite length_app; simpl; lia);
      simpl; rewrite removelast_snoc;
      destruct (length cur <=? 2)%nat eqn:E2; simpl; subst;
      try (apply Nat.ltb_lt in E1 + apply Nat.ltb_ge in E1);
      try (apply Nat.leb_le in E2 + apply Nat.leb_gt in E2);
      f_equal; f_equal; symmetry;
      first [apply Nat.ltb_lt; lia | apply Nat.ltb_ge; lia].
  - unfold add_ar_point, delete_last_ar_point.
    assert (Hi : is_state SELECTING_AR m = true) by (apply is_state_true; exact Hs).
    rewrite Hi. destruct m as [s c l cur car cal bl ba]; simpl in *.
    unfold set_current_ar, set_confirm_ar, is_state in *; simpl in *.
    rewrite length_app; simpl.
    destruct (2 <? length car + 1)%nat eqn:E1; simpl; rewrite Hi;
      replace (0 <? length (car ++ [p]))%nat with true
        by (symmetry; apply Nat.ltb_lt; rewrite length_app; simpl; lia);
      simpl; rewrite removelast_snoc;
      destruct (length car <=? 2)%nat eqn:E2; simpl; subst;
      try (apply Nat.ltb_lt in E1 + apply Nat.ltb_ge in E1);
      try (apply Nat.leb_le in E2 + apply Nat.leb_gt in E2);
      f_equal; f_equal; symmetry;
      first [apply Nat.ltb_lt; lia | apply Nat.ltb_ge; lia].
Qed.

(** ** Landmark and active region selection through the buttons *)

Lemma mouse_lnd cp m p : mstate m = SELECTING_LND -> mousePressEvent cp m p = add_lnd_point m p.
Proof.
  destruct m as [s c l cur car cal bl ba]; simpl; intros ->.
  unfold mousePressEvent, when_state, add_lnd_point, is_state; cbn.
  destruct (length (cur ++ [p])) as [|[|[|n]]]; reflexivity.
Qed.

Lemma mouse_ar cp m p : mstate m = SELECTING_AR -> mousePressEvent cp m p = add_ar_point m p.
Proof.
  destruct m as [s c l cur car cal bl ba]; simpl; intros ->.
  unfold mousePressEvent, when_state, add_ar_point, is_state; cbn.
  destruct (length (car ++ [p])) as [|[|[|n]]]; reflexivity.
Qed.

Lemma confirm_landmark_some dist m :
  mstate m = SELECTING_LND -> (2 < length (current_lnd_points m))%nat ->
  exists m', confirm_landmark dist m = Some m'.
Proof.
  intros Hs Hl. unfold confirm_landmark.
  rewrite (proj2 (is_state_true _ _) Hs). replace (2 <? length (current_lnd_points m))%nat with true
    by (symmetry; apply Nat.ltb_lt; exact Hl). simpl.
  destruct (length (landmarks m ++ [current_lnd_points m]) =? 2)%nat eqn:E; [| eexists; reflexivity].
  apply Nat.eqb_eq in E. destruct (landmarks m ++ [current_lnd_points m]) as [|a [|b [|c r]]];
    simpl in E; try discriminate. eexists; reflexivity.
Qed.

Lemma confirm_ar_some cp m :
  mstate m = SELECTING_AR -> (2 < length (current_ar_points m))%nat ->
  exists m', confirm_ar cp m = Some m'.
Proof.
  intros Hs Hl. unfold confirm_ar.
  rewrite (proj2 (is_state_true _ _) Hs). replace (2 <? length (current_ar_points m))%nat with true
    by (symmetry; apply Nat.ltb_lt; exact Hl). simpl. eexists; reflexivity.
Qed.

Lemma lnd_edits_invariant cp evs m :
  mstate m = SELECTING_LND ->
  confirm_lnd_enabled m = (2 <? length (current_lnd_points m))%nat ->
  exists m2, run_lnd_edits cp m evs = Some m2 /\ mstate m2 = SELECTING_LND /\
             confirm_lnd_enabled m2 = (2 <? length (current_lnd_points m2))%nat.
Proof.
  revert m. induction evs as [|e evs IH]; intros m Hs He; simpl; [eauto |].
  destruct e as [p|].
  - rewrite mouse_lnd by exact Hs. unfold add_lnd_point. rewrite (proj2 (is_state_true _ _) Hs).
    apply IH; destruct m as [s c l cur car cal bl ba]; simpl in *; subst;
      destruct (2 <? length (cur ++ [p]))%nat eqn:E; simpl; auto.
    rewrite length_app in *; simpl in *.
    destruct (Nat.ltb_spec 2 (length cur)); destruct (Nat.ltb_spec 2 (length cur + 1));
      try reflexivity; try discriminate; lia.
  - unfold delete_last_lnd_point. rewrite (proj2 (is_state_true _ _) Hs).
    apply IH; destruct m as [s c l cur car cal bl ba]; simpl in *; subst;
      set (cur' := if (0 <? length cur)%nat then removelast cur else cur);
      destruct (length cur' <=? 2)%nat eqn:E; simpl; auto.
    + symmetry. apply Nat.ltb_ge. apply Nat.leb_le in E. exact E.
    + apply Nat.leb_gt in E. assert (Hc : cur' = removelast cur /\ (0 < length cur)%nat).
      { unfold cur' in *. destruct (0 <? length cur)%nat eqn:E0.
        - apply Nat.ltb_lt in E0. auto.
        - apply Nat.ltb_ge in E0. lia. }
      destruct Hc as [Hc H0]. rewrite Hc in E.
      assert (Hr : (length (removelast cur) = length cur - 1)%nat).
      { clear E Hc. induction cur as [|x t _] using rev_ind; [simpl in H0; lia |].
        rewrite removelast_snoc, length_app. simpl. lia. }
      rewrite Hc, Hr in *.
      destruct (Nat.ltb_spec 2 (length cur)); destruct (Nat.ltb_spec 2 (length cur - 1));
        try reflexivity; lia.
Qed.

Lemma ar_edits_invariant cp evs m :
  mstate m = SELECTING_AR ->
  confirm_ar_enabled m = (2 <? length (current_ar_points m))%nat ->
  exists m2, run_ar_edits cp m evs = Some m2 /\ mstate m2 = SELECTING_AR /\
             confirm_ar_enabled m2 = (2 <? length (current_ar_points m2))%nat.
Proof.
  revert m. induction evs as [|e evs IH]; intros m Hs He; simpl; [eauto |].
  destruct e as [p|].
  - rewrite mouse_ar by exact Hs. unfold add_ar_point. rewrite (proj2 (is_state_true _ _) Hs).
    apply IH; destruct m as [s c l cur car cal bl ba]; simpl in *; subst;
      destruct (2 <? length (car ++ [p]))%nat eqn:E; simpl; auto.
    rewrite length_app in *; simpl in *.
    destruct (Nat.ltb_spec 2 (length car)); destruct (Nat.ltb_spec 2 (length car + 1));
      try reflexivity; try discriminate; lia.
  - unfold delete_last_ar_point. rewrite (proj2 (is_state_true _ _) Hs).
    apply IH; destruct m as [s c l cur car cal bl ba]; simpl in *; subst;
      set (car' := if (0 <? length car)%nat then removelast car else car);
      destruct (length car' <=? 2)%nat eqn:E; simpl; auto.
    + symmetry. apply Nat.ltb_ge. apply Nat.leb_le in E. exact E.
    + apply Nat.leb_gt in E. assert (Hc : car' = removelast car /\ (0 < length car)%nat).
      { unfold car' in *. destruct (0 <? length car)%nat eqn:E0.
        - apply Nat.ltb_lt in E0. auto.
        - apply Nat.ltb_ge in E0. lia. }
      destruct Hc as [Hc H0]. rewrite Hc in E.
      assert (Hr : (length (removelast car) = length car - 1)%nat).
      { clear E Hc. induction car as [|x t _] using rev_ind; [simpl in H0; lia |].
        rewrite removelast_snoc, length_app. simpl. lia. }
      rewrite Hc, Hr in *.
      destruct (Nat.ltb_spec 2 (length car)); destruct (Nat.ltb_spec 2 (length car - 1));
        try reflexivity; lia.
Qed.

(** The confirm button of a landmark is enabled exactly when the landmark
    has more than two points, whatever clicks and Undo presses led there, so
    pressing it never trips the assertion of confirm_landmark. *)
Theorem landmark_confirm_button_sound cp dist m evs :
  mstate m = MAIN ->
  exists m1, toggle_landmark_selection m = Some m1 /\
  exists m2, run_lnd_edits cp m1 evs = Some m2 /\ mstate m2 = SELECTING_LND /\
    confirm_lnd_enabled m2 = (2 <? length (current_lnd_points m2))%nat /\
    (confirm_lnd_enabled m2 = true -> exists m3, confirm_landmark dist m2 = Some m3).
Proof.
  intros Hs. unfold toggle_landmark_selection. rewrite (proj2 (is_state_true _ _) Hs).
  eexists. split; [reflexivity |].
  destruct (lnd_edits_invariant cp evs
              (disable_confirm_buttons (start_landmark_selection m)) eq_refl eq_refl)
    as (m2 & Hr & Hs2 & He2).
  exists m2. split; [exact Hr |]. split; [exact Hs2 |]. split; [exact He2 |].
  intros Ht. apply confirm_landmark_some; [exact Hs2 |].
  rewrite He2 in Ht. apply Nat.ltb_lt in Ht. exact Ht.
Qed.

(** The confirm button of an active region is enabled exactly when the
    region has more than two points, whatever clicks and Undo presses led
    there, so pressing it never trips the assertion of confirm_ar. *)
Theorem ar_confirm_button_sound cp m evs :
  mstate m = MAIN ->
  exists m1, toggle_ar_selection m = Some m1 /\
  exists m2, run_ar_edits cp m1 evs = Some m2 /\ mstate m2 = SELECTING_AR /\
    confirm_ar_enabled m2 = (2 <? length (current_ar_points m2))%nat /\
    (confirm_ar_enabled m2 = true -> exists m3, confirm_ar cp m2 = Some m3).
Proof.
  intros Hs. unfold toggle_ar_selection. rewrite (proj2 (is_state_true _ _) Hs).
  eexists. split; [reflexivity |].
  destruct (ar_edits_invariant cp evs
              (disable_confirm_buttons (start_ar_selection m)) eq_refl eq_refl)
    as (m2 & Hr & Hs2 & He2).
  exists m2. split; [exact Hr |]. split; [exact Hs2 |]. split; [exact He2 |].
  intros Ht. apply confirm_ar_some; [exact Hs2 |].
  rewrite He2 in Ht. apply Nat.ltb_lt in Ht. exact Ht.
Qed.

(** ** Calibration, and edits of the aliased selection *)

Lemma mouse_clb cp m p :
  mstate m = SELECTING_CLB -> mousePressEvent cp m p = Some (add_calibration_point m p).
Proof.
  destruct m as [s c l cur car cal bl ba]; simpl; intros ->.
  unfold mousePressEvent, when_state, add_calibration_point, is_state; cbn.
  destruct (length (cal ++ [p]) =? 3)%nat; reflexivity.
Qed.

Lemma mouse_adv cp m p : mstate m = ADV_HOME -> mousePressEvent cp m p = Some m.
Proof.
  destruct m as [s c l cur car cal bl ba]; simpl; intros ->. reflexivity.
Qed.

Lemma run_clicks_adv cp ps m : mstate m = ADV_HOME -> run_clicks cp m ps = Some m.
Proof.
  induction ps as [|p ps IH]; intros Hs; simpl; [reflexivity |].
  rewrite mouse_adv by exact Hs. apply IH. exact Hs.
Qed.

Lemma run_clicks_calibration cp ps m :
  mstate m = SELECTING_CLB -> (length (calibration_points m) < 3)%nat ->
  exists m2, run_clicks cp m ps = Some m2 /\
    calibration_points m2 = calibration_points m ++ firstn (3 - length (calibration_points m)) ps /\
    mstate m2 = (if (3 <=? length (calibration_points m) + length ps)%nat then ADV_HOME else SELECTING_CLB) /\
    core m2 = core m /\ landmarks m2 = landmarks m.
Proof.
  revert m. induction ps as [|p ps IH]; intros m Hs Hl; cbn [run_clicks length].
  - exists m. rewrite Nat.add_0_r, firstn_nil, app_nil_r. repeat split; try reflexivity.
    rewrite Hs. destruct (length (calibration_points m)) as [|[|[|n]]]; try reflexivity; lia.
  - rewrite mouse_clb by exact Hs. unfold add_calibration_point.
    destruct m as [s c l cur car cal bl ba]; cbn [mstate calibration_points core landmarks] in *; subst.
    assert (Hf : forall n, (n < 3)%nat -> firstn (3 - n) (p :: ps) = p :: firstn (3 - S n) ps).
    { intros n Hn. replace (3 - n)%nat with (S (3 - S n)) by lia. reflexivity. }
    rewrite (Hf _ Hl). rewrite length_app. cbn [length].
    destruct (Nat.eqb_spec (length cal + 1) 3) as [E|E].
    + rewrite run_clicks_adv by reflexivity. eexists. split; [reflexivity |].
      cbn [calibration_points set_mstate set_calibration mstate core landmarks].
      replace (3 - S (length cal))%nat with 0%nat by lia. rewrite firstn_O.
      split; [reflexivity |]. split; [| split; reflexivity].
      destruct (Nat.leb_spec 3 (length cal + S (length ps))); [reflexivity | lia].
    + destruct (IH (set_calibration
                      {| mstate := SELECTING_CLB; core := c; landmarks := l; current_lnd_points := cur;
                         current_ar_points := car; calibration_points := cal; confirm_lnd_enabled := bl;
                         confirm_ar_enabled := ba |} (cal ++ [p])) eq_refl)
        as (m2 & Hr & Hc & Hst & Hco & Hla); [cbn; rewrite length_app; cbn; lia |].
      exists m2. cbn [calibration_points set_calibration core landmarks] in *.
      rewrite length_app in *; cbn [length] in *.
      split; [exact Hr |]. split.
      * rewrite Hc, <- app_assoc.
        replace (3 - (length cal + 1))%nat with (3 - S (length cal))%nat by lia. reflexivity.
      * split; [| split; assumption]. rewrite Hst.
        replace (length cal + 1 + length ps)%nat with (length cal + S (length ps))%nat by lia.
        reflexivity.
Qed.

(** Calibration started from any state records the first three clicks and
    then moves to ADV_HOME, where later clicks add no point; fewer clicks leave
    it waiting in SELECTING_CLB, and the shapes and landmarks are kept. *)
Theorem calibration_takes_three cp m ps :
  exists m2, run_clicks cp (start_calibration_selection m) ps = Some m2 /\
    calibration_points m2 = firstn 3 ps /\
    mstate m2 = (if (3 <=? length ps)%nat then ADV_HOME else SELECTING_CLB) /\
    core m2 = core m /\ landmarks m2 = landmarks m.
Proof.
  destruct (run_clicks_calibration cp ps (start_calibration_selection m) eq_refl)
    as (m2 & H1 & H2 & H3 & H4 & H5); [simpl; lia |].
  exists m2. simpl in *. auto.
Qed.

(** ** Heap facts *)

Lemma nth_set_nth_eq {A} (a : nat) (h : list A) x d :
  (a < length h)%nat -> nth a (set_nth a h x) d = x.
Proof.
  revert h. induction a as [|a IH]; intros [|y h] Ha; simpl in *; try lia; auto.
  apply IH. lia.
Qed.

Lemma nth_app_length {A} (h : list A) x d : nth (length h) (h ++ [x]) d = x.
Proof. rewrite app_nth2, Nat.sub_diag by lia. reflexivity. Qed.

Lemma filter_by_ar_deref cp st :
  let st' := filter_by_ar cp st in
  deref st' (active_shape_ids st') =
  filter (fun i => is_contained cp (active_regions st) (centroid (points (shape_at st i))))
    (seq 0 (length (shapes st))) /\
  selected_shape_ids st' = active_shape_ids st' /\
  active_shape_ids st' = length (heap st) /\
  heap st' = heap st ++ [deref st' (active_shape_ids st')] /\
  shapes st' = shapes st /\ active_regions st' = active_regions st.
Proof.
  cbn. unfold deref. simpl. rewrite nth_app_length, fold_append_filter. simpl.
  repeat split; reflexivity.
Qed.

Lemma filter_by_ar_In cp st i :
  let st' := filter_by_ar cp st in
  In i (deref st' (active_shape_ids st')) <->
  (i < length (shapes st))%nat /\
  is_contained cp (active_regions st) (centroid (points (shape_at st i))) = true.
Proof.
  cbn zeta. rewrite (proj1 (filter_by_ar_deref cp st)), filter_In, in_seq.
  split; intros [H1 H2]; (split; [lia | exact H2]).
Qed.

Lemma filter_by_ar_NoDup cp st :
  let st' := filter_by_ar cp st in NoDup (deref st' (active_shape_ids st')).
Proof.
  cbn zeta. rewrite (proj1 (filter_by_ar_deref cp st)). apply NoDup_filter, seq_NoDup.
Qed.

Lemma remove_nth_not_In {A} (l : list A) i d :
  NoDup l -> (i < length l)%nat -> ~ In (nth i l d) (remove_nth i l).
Proof.
  revert i. induction l as [|x l IH]; intros i Hn Hi; simpl in *; [lia |].
  inversion Hn as [|? ? Hx Hl]; subst.
  destruct i as [|i]; simpl.
  - exact Hx.
  - intros [He | Hin].
    + apply Hx. rewrite He. apply nth_In. lia.
    + apply (IH i Hl); [lia | exact Hin].
Qed.

Lemma find_index_Some {A} (f : A -> bool) l i :
  find_index f l = Some i -> (i < length l)%nat /\ forall d, f (nth i l d) = true.
Proof.
  revert i. induction l as [|x l IH]; intros i; simpl; [discriminate |].
  destruct (f x) eqn:Fx.
  - intros [= <-]. split; [lia | intros; exact Fx].
  - destruct (find_index f l) as [j|] eqn:E; simpl; [| discriminate].
    intros [= <-]. destruct (IH j eq_refl) as [H1 H2]. split; [lia | exact H2].
Qed.

Lemma In_remove_nth {A} (l : list A) i x : In x (remove_nth i l) -> In x l.
Proof.
  revert i. induction l as [|y l IH]; intros [|i]; simpl; auto.
  intros [H | H]; [left; exact H | right; exact (IH i H)].
Qed.

Lemma try_deleting_shp_alias cp st pos :
  active_shape_ids st = selected_shape_ids st ->
  (active_shape_ids st < length (heap st))%nat ->
  let st2 := try_deleting_shp cp st pos in
  let hit := fun idx => cp (points (shape_at st idx)) pos in
  let ids := deref st (active_shape_ids st) in
  active_shape_ids st2 = selected_shape_ids st2 /\
  deref st2 (active_shape_ids st2) =
    match find_index hit ids with Some i => remove_nth i ids | None => ids end /\
  (find_index hit ids = None -> st2 = st).
Proof.
  intros Ha Hl. cbn zeta. unfold try_deleting_shp. rewrite <- Ha.
  destruct (find_index _ _) as [i|] eqn:E.
  - split; [simpl; first [reflexivity | exact Ha] |]. split; [| discriminate].
    unfold deref at 1. simpl. apply nth_set_nth_eq. exact Hl.
  - split; [exact Ha |]. split; reflexivity.
Qed.

Lemma try_adding_shp_alias cp st pos :
  active_shape_ids st = selected_shape_ids st ->
  (active_shape_ids st < length (heap st))%nat ->
  let st2 := try_adding_shp cp st pos in
  let hit := fun idx => cp (points (shape_at st idx)) pos in
  let ids := deref st (active_shape_ids st) in
  active_shape_ids st2 = selected_shape_ids st2 /\
  deref st2 (active_shape_ids st2) =
    match find hit ids with Some idx => ids ++ [idx] | None => ids end /\
  (find hit ids = None -> st2 = st).
Proof.
  intros Ha Hl. cbn zeta. unfold try_adding_shp.
  destruct (find _ _) as [idx|] eqn:E.
  - split; [simpl; first [reflexivity | exact Ha] |]. split; [| discriminate].
    unfold deref at 1. simpl. rewrite <- Ha. rewrite nth_set_nth_eq by exact Hl. reflexivity.
  - split; [exact Ha |]. split; reflexivity.
Qed.

(** After filter_by_ar, [selected_shape_ids] and [active_shape_ids] are
    one list: deleting a shape from the selection by a click removes it from
    the active shapes too, and adding one by a click appends it to the active
    shapes a second time. *)
Theorem selection_edits_change_active_shapes cp st pos :
  let st1 := filter_by_ar cp st in
  let ids := deref st1 (active_shape_ids st1) in
  let hit := fun idx => cp (points (shape_at st1 idx)) pos in
  (let st2 := try_deleting_shp cp st1 pos in
   deref st2 (active_shape_ids st2) = deref st2 (selected_shape_ids st2) /\
   (forall i, find_index hit ids = Some i ->
      deref st2 (active_shape_ids st2) = remove_nth i ids /\
      ~ In (nth i ids 0%nat) (deref st2 (active_shape_ids st2))) /\
   (find_index hit ids = None -> st2 = st1)) /\
  (let st2 := try_adding_shp cp st1 pos in
   deref st2 (active_shape_ids st2) = deref st2 (selected_shape_ids st2) /\
   (forall idx, find hit ids = Some idx ->
      deref st2 (active_shape_ids st2) = ids ++ [idx] /\ In idx ids /\
      ~ NoDup (deref st2 (active_shape_ids st2))) /\
   (find hit ids = None -> st2 = st1)).
Proof.
  destruct (filter_by_ar_deref cp st) as (Hd & Hsel & Ha & Hh & Hs & Hr).
  pose proof (filter_by_ar_NoDup cp st) as Hnd. cbn zeta in Hnd.
  set (st1 := filter_by_ar cp st) in *. clearbody st1.
  set (ids := deref st1 (active_shape_ids st1)) in *.
  cbn zeta.
  assert (Hlen : (active_shape_ids st1 < length (heap st1))%nat)
    by (rewrite Hh, length_app, Ha; simpl; lia).
  split.
  - destruct (try_deleting_shp_alias cp st1 pos (eq_sym Hsel) Hlen) as (H1 & H2 & H3).
    cbn zeta in H1, H2, H3. subst ids.
    split; [rewrite <- H1; reflexivity |]. split; [| exact H3].
    intros i E. rewrite E in H2. split; [exact H2 |]. rewrite H2.
    apply remove_nth_not_In; [exact Hnd | apply (find_index_Some _ _ _ E)].
  - destruct (try_adding_shp_alias cp st1 pos (eq_sym Hsel) Hlen) as (H1 & H2 & H3).
    cbn zeta in H1, H2, H3. subst ids.
    split; [rewrite <- H1; reflexivity |]. split; [| exact H3].
    intros idx E. rewrite E in H2. split; [exact H2 |].
    assert (Hin : In idx (deref st1 (active_shape_ids st1))) by (apply (find_some _ _ E)).
    split; [exact Hin |]. rewrite H2.
    intros Hn. apply NoDup_remove_2 with (l := deref st1 (active_shape_ids st1)) (l' := []) (a := idx) in Hn.
    rewrite app_nil_r in Hn. exact (Hn Hin).
Qed.

(** ** Confirming and deleting landmarks and active regions; colours *)

Lemma find_index_first {A} (f : A -> bool) l i :
  find_index f l = Some i -> forall j d, (j < i)%nat -> f (nth j l d) = false.
Proof.
  revert i. induction l as [|x l IH]; intros i; simpl; [discriminate |].
  destruct (f x) eqn:Fx.
  - intros [= <-]. intros j d Hj. lia.
  - destruct (find_index f l) as [k|] eqn:E; simpl; [| discriminate].
    intros [= <-] [|j] d Hj; [exact Fx |]. apply (IH k eq_refl). lia.
Qed.

Lemma find_index_None {A} (f : A -> bool) l :
  find_index f l = None -> forall x, In x l -> f x = false.
Proof.
  induction l as [|y l IH]; simpl; [intros _ x [] |].
  destruct (f y) eqn:Fy; [discriminate |].
  destruct (find_index f l); simpl; [discriminate |].
  intros _ x [<- | H]; [exact Fy | exact (IH eq_refl x H)].
Qed.

Lemma is_contained_app cp ars r c :
  is_contained cp (ars ++ [r]) c = is_contained cp ars c || cp r c.
Proof. unfold is_contained. rewrite existsb_app. simpl. rewrite orb_false_r. reflexivity. Qed.

Lemma is_contained_remove_nth cp ars i c :
  is_contained cp (remove_nth i ars) c = true -> is_contained cp ars c = true.
Proof.
  unfold is_contained. rewrite !existsb_exists. intros [x [Hx Hc]].
  exists x. split; [exact (In_remove_nth _ _ _ Hx) | exact Hc].
Qed.

Lemma length_remove_nth {A} (l : list A) i :
  (i < length l)%nat -> length (remove_nth i l) = (length l - 1)%nat.
Proof.
  revert i. induction l as [|x l IH]; intros [|i] Hi; simpl in *; try lia.
  rewrite IH by lia. lia.
Qed.

(** confirm_ar fails exactly outside the region drawing or with at most two
    points; otherwise it appends the region, empties the points, returns to
    MAIN and recomputes the active shapes: those whose centroid lies in an
    older region or in the new one, with the selection bound to the same
    list. *)
Theorem confirm_ar_spec cp m :
  (confirm_ar cp m = None <->
   mstate m <> SELECTING_AR \/ (length (current_ar_points m) <= 2)%nat) /\
  (forall m', confirm_ar cp m = Some m' ->
   mstate m' = MAIN /\ current_ar_points m' = [] /\ landmarks m' = landmarks m /\
   shapes (core m') = shapes (core m) /\
   active_regions (core m') = active_regions (core m) ++ [current_ar_points m] /\
   selected_shape_ids (core m') = active_shape_ids (core m') /\
   forall i, In i (deref (core m') (active_shape_ids (core m'))) <->
     (i < length (shapes (core m)))%nat /\
     (is_contained cp (active_regions (core m)) (centroid (points (shape_at (core m) i))) = true \/
      cp (current_ar_points m) (centroid (points (shape_at (core m) i))) = true)).
Proof.
  unfold confirm_ar. destruct (is_state SELECTING_AR m) eqn:Hs; simpl.
  - apply is_state_true in Hs.
    destruct (2 <? length (current_ar_points m))%nat eqn:Hl; simpl.
    + apply Nat.ltb_lt in Hl. split.
      * split; [discriminate | intros [H | H]; [congruence | lia]].
      * intros m' [= <-]. simpl.
        destruct (filter_by_ar_deref cp (with_regions (core m) (active_regions (core m) ++ [current_ar_points m])))
          as (_ & Hsel & _ & _ & Hsh & Har).
        cbn zeta in Hsel, Hsh, Har.
        do 6 (split; [first [assumption | reflexivity] |]).
        intros i. split.
        -- intros Hi. apply filter_by_ar_In in Hi. destruct Hi as [Hi Hc].
           split; [exact Hi |]. unfold with_regions, shape_at in *; simpl in *.
           rewrite is_contained_app in Hc. apply orb_true_iff in Hc. exact Hc.
        -- intros [Hi Hc]. apply filter_by_ar_In. split; [exact Hi |].
           unfold with_regions, shape_at in *; simpl in *.
           rewrite is_contained_app. apply orb_true_iff. exact Hc.
    + apply Nat.ltb_ge in Hl. split; [| discriminate].
      split; [intros _; right; exact Hl | reflexivity].
  - apply is_state_false in Hs. split; [| discriminate].
    split; [intros _; left; exact Hs | reflexivity].
Qed.

(** try_deleting_ar removes the first active region containing the click
    and recomputes the active shapes from the remaining regions: every shape
    active afterwards had its centroid in one of the former regions.  When
    no region contains the click nothing changes. *)
Theorem try_deleting_ar_spec cp m pos :
  let ars := active_regions (core m) in
  let m' := try_deleting_ar cp m pos in
  match find_index (fun ar => cp ar pos) ars with
  | None => m' = m
  | Some idx =>
      (idx < length ars)%nat /\ cp (nth idx ars []) pos = true /\
      (forall j, (j < idx)%nat -> cp (nth j ars []) pos = false) /\
      active_regions (core m') = remove_nth idx ars /\
      length (active_regions (core m')) = (length ars - 1)%nat /\
      mstate m' = mstate m /\ landmarks m' = landmarks m /\
      shapes (core m') = shapes (core m) /\
      selected_shape_ids (core m') = active_shape_ids (core m') /\
      (forall i, In i (deref (core m') (active_shape_ids (core m'))) <->
         (i < length (shapes (core m)))%nat /\
         is_contained cp (remove_nth idx ars) (centroid (points (shape_at (core m) i))) = true) /\
      (forall i, In i (deref (core m') (active_shape_ids (core m'))) ->
         is_contained cp ars (centroid (points (shape_at (core m) i))) = true)
  end.
Proof.
  cbn zeta. unfold try_deleting_ar.
  destruct (find_index _ (active_regions (core m))) as [idx|] eqn:E; [| reflexivity].
  destruct (find_index_Some _ _ _ E) as [Hlt Hf].
  set (st := with_regions (core m) (remove_nth idx (active_regions (core m)))).
  destruct (filter_by_ar_deref cp st) as (_ & Hsel & _ & _ & Hsh & Har).
  cbn zeta in Hsel, Hsh, Har.
  assert (Hin : forall i, In i (deref (filter_by_ar cp st) (active_shape_ids (filter_by_ar cp st))) <->
           (i < length (shapes (core m)))%nat /\
           is_contained cp (remove_nth idx (active_regions (core m)))
             (centroid (points (shape_at (core m) i))) = true)
    by (intros i; rewrite filter_by_ar_In; reflexivity).
  simpl. split; [exact Hlt |]. split; [exact (Hf []) |].
  split; [intros j Hj; exact (find_index_first _ _ _ E j [] Hj) |].
  split; [exact Har |]. split; [rewrite ?Har; apply length_remove_nth; exact Hlt |].
  split; [reflexivity |]. split; [reflexivity |]. split; [exact Hsh |].
  split; [exact Hsel |]. split; [exact Hin |].
  intros i Hi. apply Hin in Hi. apply (is_contained_remove_nth _ _ idx). exact (proj2 Hi).
Qed.

(** try_deleting_landmark removes the first landmark containing the click
    and clears every score, which turns every shape magenta; when no
    landmark contains the click nothing changes. *)
Theorem try_deleting_landmark_spec cp m pos :
  let lms := landmarks m in
  let m' := try_deleting_landmark cp m pos in
  match find_index (fun l => cp l pos) lms with
  | None => m' = m
  | Some idx =>
      (idx < length lms)%nat /\ cp (nth idx lms []) pos = true /\
      (forall j, (j < idx)%nat -> cp (nth j lms []) pos = false) /\
      landmarks m' = remove_nth idx lms /\
      length (landmarks m') = (length lms - 1)%nat /\
      mstate m' = mstate m /\
      map points (shapes (core m')) = map points (shapes (core m)) /\
      Forall (fun sh => score sh = None /\ set_color (score sh) = mkColor 255 0 255)
        (shapes (core m')) /\
      active_regions (core m') = active_regions (core m) /\
      heap (core m') = heap (core m) /\
      active_shape_ids (core m') = active_shape_ids (core m) /\
      selected_shape_ids (core m') = selected_shape_ids (core m)
  end.
Proof.
  cbn zeta. unfold try_deleting_landmark.
  destruct (find_index _ (landmarks m)) as [idx|] eqn:E; [| reflexivity].
  destruct (find_index_Some _ _ _ E) as [Hlt Hf].
  simpl. split; [exact Hlt |]. split; [exact (Hf []) |].
  split; [intros j Hj; exact (find_index_first _ _ _ E j [] Hj) |].
  split; [reflexivity |]. split; [apply length_remove_nth; exact Hlt |].
  split; [reflexivity |]. split.
  - unfold reset_scores. rewrite map_map. reflexivity.
  - split; [| repeat split].
    unfold reset_scores. apply Forall_forall. intros sh Hsh.
    apply in_map_iff in Hsh. destruct Hsh as [x [<- _]]. split; reflexivity.
Qed.

(** ** Original ids, cell labels and rescaling *)

Lemma dict_get_set {V} k k' (v : V) d :
  dict_get k (dict_set k' v d) = if Z.eqb k k' then Some v else dict_get k d.
Proof.
  induction d as [|[k'' v''] d IH]; simpl; [reflexivity |].
  destruct (Z.eqb k' k'') eqn:E1; simpl.
  - apply Z.eqb_eq in E1. subst k''. destruct (Z.eqb k k'); reflexivity.
  - rewrite IH. destruct (Z.eqb k k'') eqn:E2; [| reflexivity].
    apply Z.eqb_eq in E2. subst k''.
    destruct (Z.eqb k k') eqn:E3; [| reflexivity].
    apply Z.eqb_eq in E3. subst k'. rewrite Z.eqb_refl in E1. discriminate.
Qed.

Lemma dict_get_In {V} (d : list (Z * V)) k v : dict_get k d = Some v -> In (k, v) d.
Proof.
  induction d as [|[k' v'] d IH]; simpl; [discriminate |].
  destruct (Z.eqb k k') eqn:E.
  - apply Z.eqb_eq in E. subst. intros [= ->]. left; reflexivity.
  - intros H. right. exact (IH H).
Qed.

Lemma In_dict_get {V} (d : list (Z * V)) k v :
  NoDup (map fst d) -> In (k, v) d -> dict_get k d = Some v.
Proof.
  induction d as [|[k' v'] d IH]; simpl; [intros _ [] |].
  intros Hn [E | H]; inversion Hn as [|? ? Hk Hd]; subst.
  - injection E as -> ->. rewrite Z.eqb_refl. reflexivity.
  - destruct (Z.eqb k k') eqn:E.
    + apply Z.eqb_eq in E. subst. exfalso. apply Hk.
      apply in_map_iff. exists (k', v). split; [reflexivity | exact H].
    + exact (IH Hd H).
Qed.

Definition oid_step (acc : list (Z * Z)) (p : nat * option Z) : list (Z * Z) :=
  match snd p with
  | Some o => dict_set o (Z.of_nat (fst p)) acc
  | None => acc
  end.

Lemma oid_fold l s acc o z :
  dict_get o (fold_left oid_step (combine (seq s (length l)) l) acc) = Some z <->
  (exists j, z = Z.of_nat (s + j) /\ nth_error l j = Some (Some o) /\
     forall j', (j < j')%nat -> nth_error l j' <> Some (Some o)) \/
  ((forall j, nth_error l j <> Some (Some o)) /\ dict_get o acc = Some z).
Proof.
  revert s acc. induction l as [|x l IH]; intros s acc; simpl.
  - split.
    + intros H. right. split; [intros [|j]; discriminate | exact H].
    + intros [[j [_ [H _]]] | [_ H]]; [destruct j; discriminate | exact H].
  - assert (Hcase : (x = Some o /\ dict_get o (oid_step acc (s, x)) = Some (Z.of_nat s)) \/
                    (x <> Some o /\ dict_get o (oid_step acc (s, x)) = dict_get o acc)).
    { destruct x as [o'|]; unfold oid_step; simpl.
      - rewrite dict_get_set. destruct (Z.eqb o o') eqn:E.
        + apply Z.eqb_eq in E. subst. left. split; reflexivity.
        + right. split; [| reflexivity]. intros [= ->]. rewrite Z.eqb_refl in E. discriminate.
      - right. split; [discriminate | reflexivity]. }
    rewrite IH. destruct Hcase as [[-> Hg] | [Hx Hg]]; rewrite Hg; split.
    + intros [[j [Hz [Hj Hl]]] | [Hno [= <-]]].
      * left. exists (S j). split; [rewrite Hz; f_equal; lia |]. split; [exact Hj |].
        intros [|j'] Hlt; [lia | apply Hl; lia].
      * left. exists 0%nat. split; [f_equal; lia |]. split; [reflexivity |].
        intros [|j'] Hlt; [lia | apply Hno].
    + intros [[[|j] [Hz [Hj Hl]]] | [Hno _]].
      * right. split; [intros j' H; apply (Hl (S j')); [lia | exact H] |].
        rewrite Hz. f_equal. f_equal. lia.
      * left. exists j. split; [rewrite Hz; f_equal; lia |]. split; [exact Hj |].
        intros j' Hlt. apply (Hl (S j')). lia.
      * exfalso. exact (Hno 0%nat eq_refl).
    + intros [[j [Hz [Hj Hl]]] | [Hno Ha]].
      * left. exists (S j). split; [rewrite Hz; f_equal; lia |]. split; [exact Hj |].
        intros [|j'] Hlt; [simpl; intros [= E]; exact (Hx E) | apply Hl; lia].
      * right. split; [intros [|j]; [simpl; intros [= E]; exact (Hx E) | apply Hno] | exact Ha].
    + intros [[[|j] [Hz [Hj Hl]]] | [Hno Ha]].
      * simpl in Hj. injection Hj as E. exfalso. exact (Hx E).
      * left. exists j. split; [rewrite Hz; f_equal; lia |]. split; [exact Hj |].
        intros j' Hlt. apply (Hl (S j')). lia.
      * right. split; [intros j; apply (Hno (S j)) | exact Ha].
Qed.

Lemma original_id_to_index_fold orig :
  original_id_to_index orig = fold_left oid_step (combine (seq 0 (length orig)) orig) [].
Proof. reflexivity. Qed.

(** The [original_id_to_index] map of load_cell_labels sends an original id
    to the position of its last shape: a later shape with the same id
    overwrites the earlier entry. *)
Theorem original_id_to_index_spec orig o z :
  dict_get o (original_id_to_index orig) = Some z <->
  exists j, z = Z.of_nat j /\ nth_error orig j = Some (Some o) /\
    forall j', (j < j')%nat -> nth_error orig j' <> Some (Some o).
Proof.
  rewrite original_id_to_index_fold, oid_fold. split.
  - intros [H | [_ H]]; [exact H | discriminate].
  - intros H. left. exact H.
Qed.

Section LabelFold.
Context {L : Type}.
Variable M : list (Z * Z).
Hypothesis M_inj : forall o1 o2 z, dict_get o1 M = Some z -> dict_get o2 M = Some z -> o1 = o2.

Definition label_step (acc : list (Z * L)) (p : Z * L) : list (Z * L) :=
  match dict_get (fst p) M with
  | Some shape_idx => dict_set shape_idx (snd p) acc
  | None => acc
  end.

Lemma label_fold (labels : list (Z * L)) acc z v :
  NoDup (map fst labels) ->
  dict_get z (fold_left label_step labels acc) = Some v <->
  (exists o, In (o, v) labels /\ dict_get o M = Some z) \/
  ((forall o v', In (o, v') labels -> dict_get o M <> Some z) /\ dict_get z acc = Some v).
Proof.
  revert acc. induction labels as [|[o w] t IH]; intros acc Hn; simpl.
  - split; [intros H; right; split; [intros ? ? [] | exact H] |].
    intros [[o [[] _]] | [_ H]]. exact H.
  - inversion Hn as [|? ? Ho Ht]; subst. rewrite (IH _ Ht).
    assert (Hg : dict_get z (label_step acc (o, w)) =
                 match dict_get o M with
                 | Some si => if Z.eqb z si then Some w else dict_get z acc
                 | None => dict_get z acc
                 end)
      by (unfold label_step; simpl; destruct (dict_get o M); [apply dict_get_set | reflexivity]).
    rewrite Hg. split.
    + intros [[o' [Hin HM]] | [Hno Ha]].
      * left. exists o'. split; [right; exact Hin | exact HM].
      * destruct (dict_get o M) as [si|] eqn:HM.
        -- destruct (Z.eqb z si) eqn:E.
           ++ apply Z.eqb_eq in E. subst si. injection Ha as ->.
              left. exists o. split; [left; reflexivity | exact HM].
           ++ right. split; [| exact Ha].
              intros o' v' [[= <- <-] | Hin]; [rewrite HM; intros [= ->]; rewrite Z.eqb_refl in E; discriminate |].
              exact (Hno o' v' Hin).
        -- right. split; [| exact Ha].
           intros o' v' [[= <- <-] | Hin]; [rewrite HM; discriminate | exact (Hno o' v' Hin)].
    + intros [[o' [[[= <- <-] | Hin] HM]] | [Hno Ha]].
      * right. split.
        -- intros o'' v'' Hin HM'. apply Ho. rewrite (M_inj _ _ _ HM' HM) in Hin.
           apply in_map_iff. exists (o, v''). split; [reflexivity | exact Hin].
        -- rewrite HM, Z.eqb_refl. reflexivity.
      * left. exists o'. split; [exact Hin | exact HM].
      * right. split; [intros o' v' Hin; apply (Hno o' v'); right; exact Hin |].
        destruct (dict_get o M) as [si|] eqn:HM; [| exact Ha].
        destruct (Z.eqb z si) eqn:E; [| exact Ha].
        apply Z.eqb_eq in E. subst si. exfalso. exact (Hno o w (or_introl eq_refl) HM).
Qed.
End LabelFold.

(** load_cell_labels with shapes that carry original ids: shape [j] gets
    label [v] exactly when [labels_dict] maps its original id to [v] and no
    later shape has that id; keys that are no shape index get nothing.
    Without original ids [labels_dict] is kept as it is. *)
Theorem load_cell_labels_spec {L : Type} orig (labels_dict : list (Z * L)) :
  NoDup (map fst labels_dict) ->
  (has_original_ids orig = false -> load_cell_labels orig labels_dict = labels_dict) /\
  (has_original_ids orig = true ->
   forall z v, dict_get z (load_cell_labels orig labels_dict) = Some v <->
     exists j o, z = Z.of_nat j /\ nth_error orig j = Some (Some o) /\
       (forall j', (j < j')%nat -> nth_error orig j' <> Some (Some o)) /\
       dict_get o labels_dict = Some v).
Proof.
  intros Hn. unfold load_cell_labels. split; intros Hh; rewrite Hh; [reflexivity |].
  intros z v.
  assert (Hinj : forall o1 o2 z, dict_get o1 (original_id_to_index orig) = Some z ->
                   dict_get o2 (original_id_to_index orig) = Some z -> o1 = o2).
  { intros o1 o2 z' H1 H2. apply original_id_to_index_spec in H1, H2.
    destruct H1 as [j1 [Hz1 [Hj1 _]]]. destruct H2 as [j2 [Hz2 [Hj2 _]]].
    rewrite Hz1 in Hz2. apply Nat2Z.inj in Hz2. subst j2.
    rewrite Hj1 in Hj2. injection Hj2 as ->. reflexivity. }
  cbn zeta. change (fold_left _ labels_dict []) with (fold_left (label_step (original_id_to_index orig)) labels_dict []).
  rewrite (label_fold _ Hinj _ _ _ _ Hn). split.
  - intros [[o [Hin HM]] | [_ H]]; [| discriminate].
    apply original_id_to_index_spec in HM. destruct HM as [j [Hz [Hj Hl]]].
    exists j, o. split; [exact Hz |]. split; [exact Hj |]. split; [exact Hl |].
    exact (In_dict_get _ _ _ Hn Hin).
  - intros [j [o [Hz [Hj [Hl Hd]]]]]. left. exists o. split; [exact (dict_get_In _ _ _ Hd) |].
    apply original_id_to_index_spec. exists j. split; [exact Hz |]. split; [exact Hj | exact Hl].
Qed.

(** ** select_shapes per active region, per label and by union *)

Definition in_group (f : nat -> option nat) (j i : nat) : bool :=
  match f i with Some j' => Nat.eqb j' j | None => false end.

Lemma length_set_nth {A} j (l : list A) x : length (set_nth j l x) = length l.
Proof. revert j. induction l as [|y l IH]; intros [|j]; simpl; auto. Qed.

Lemma nth_set_nth {A} j (l : list A) x i d :
  nth i (set_nth j l x) d = if (i =? j)%nat && (j <? length l)%nat then x else nth i l d.
Proof.
  revert i j. induction l as [|y l IH]; intros i j; simpl.
  - destruct j; destruct i; simpl; rewrite ?andb_false_r; reflexivity.
  - destruct j as [|j], i as [|i]; simpl; try reflexivity.
    rewrite IH. reflexivity.
Qed.

Lemma nth_map_seq {A} (g : nat -> A) n k d : (k < n)%nat -> nth k (map g (seq 0 n)) d = g k.
Proof.
  intros Hk. rewrite nth_indep with (d' := g 0%nat) by (rewrite length_map, length_seq; exact Hk).
  rewrite map_nth, seq_nth by exact Hk. reflexivity.
Qed.

Lemma group_into_fold f n ids pre :
  (forall x, In x ids -> exists j, f x = Some j /\ (j < n)%nat) ->
  fold_left
    (fun acc i =>
       match acc with
       | None => None
       | Some groups =>
           match f i with
           | Some j => Some (set_nth j groups (nth j groups [] ++ [i]))
           | None => None
           end
       end)
    ids (Some (map (fun j => filter (in_group f j) pre) (seq 0 n)))
  = Some (map (fun j => filter (in_group f j) (pre ++ ids)) (seq 0 n)).
Proof.
  revert pre. induction ids as [|x ids IH]; intros pre H; simpl.
  - rewrite app_nil_r. reflexivity.
  - destruct (H x (or_introl eq_refl)) as [j0 [Hf Hj0]]. rewrite Hf.
    replace (set_nth j0 (map (fun j => filter (in_group f j) pre) (seq 0 n))
               (nth j0 (map (fun j => filter (in_group f j) pre) (seq 0 n)) [] ++ [x]))
      with (map (fun j => filter (in_group f j) (pre ++ [x])) (seq 0 n)).
    + rewrite IH; [rewrite <- app_assoc; reflexivity |].
      intros y Hy. apply H. right. exact Hy.
    + apply nth_ext with (d := []) (d' := []).
      * rewrite length_set_nth, !length_map. reflexivity.
      * intros k Hk. rewrite length_map, length_seq in Hk.
        rewrite nth_set_nth, length_map, length_seq, !nth_map_seq by lia.
        rewrite filter_app. simpl. unfold in_group at 2. rewrite Hf.
        replace (j0 <? n)%nat with true by (symmetry; apply Nat.ltb_lt; exact Hj0).
        rewrite andb_true_r.
        destruct (Nat.eqb_spec k j0) as [-> | Hne].
        -- rewrite Nat.eqb_refl. reflexivity.
        -- replace (j0 =? k)%nat with false by (symmetry; apply Nat.eqb_neq; congruence).
           rewrite app_nil_r. reflexivity.
Qed.

Lemma group_into_Some f n ids :
  (forall x, In x ids -> exists j, f x = Some j /\ (j < n)%nat) ->
  group_into f n ids = Some (map (fun j => filter (in_group f j) ids) (seq 0 n)).
Proof.
  intros H. unfold group_into.
  replace (repeat (@nil nat) n) with (map (fun j => filter (in_group f j) []) (seq 0 n)).
  - exact (group_into_fold f n ids [] H).
  - clear H. generalize 0%nat as s. induction n as [|n IH]; intros s; simpl; [reflexivity |].
    f_equal. apply IH.
Qed.

Lemma group_into_None f n ids :
  (exists x, In x ids /\ f x = None) -> group_into f n ids = None.
Proof.
  unfold group_into. generalize (Some (repeat (@nil nat) n)).
  induction ids as [|y ids IH]; intros acc [x [Hx Hf]]; simpl in *; [destruct Hx |].
  destruct Hx as [<- | Hx].
  - rewrite Hf. destruct acc; clear IH.
    + simpl. induction ids as [|z ids IH2]; simpl; [reflexivity | exact IH2].
    + induction ids as [|z ids IH2]; simpl; [reflexivity | exact IH2].
  - apply IH. exists x. split; assumption.
Qed.

Lemma per_group_independent (groups : list (list polygon)) (k : Z) :
  select_k_per_group groups k =
  match select_each_independently groups k with
  | Err e => Err e
  | Ok rs => Ok (map (fun ids => (ids, undersupplied k ids)) rs)
  end.
Proof.
  unfold select_k_per_group. rewrite <- init_all_final.
  destruct (init_all k groups) as [st|e]; [| reflexivity].
  rewrite rr_rounds_map, !map_map. reflexivity.
Qed.

Lemma select_each_Err groups k :
  (exists e, select_each_independently groups k = Err e) <-> ((0 < k)%Z /\ In [] groups).
Proof.
  induction groups as [|g gs IH]; simpl.
  - split; [intros [e H]; discriminate | intros [_ []]].
  - destruct (select_k_center g k) as [r|e] eqn:E.
    + assert (Hg : ~ (g = [] /\ (0 < k)%Z)).
      { intros [-> Hk]. unfold select_k_center, kcenter in E. simpl in E.
        replace (0 <? k)%Z with true in E by (symmetry; apply Z.ltb_lt; exact Hk). discriminate. }
      destruct (select_each_independently gs k) as [rs|e] eqn:E2.
      * split; [intros [e H]; discriminate |].
        intros [Hk [Hg' | Hin]]; [exfalso; exact (Hg (conj Hg' Hk)) |].
        destruct (proj2 IH (conj Hk Hin)) as [e H]. discriminate.
      * split; [intros _ | intros _; exists e; reflexivity].
        destruct (proj1 IH (ex_intro _ e eq_refl)) as [Hk Hin]. split; [exact Hk | right; exact Hin].
    + split; [intros _ | intros _; exists e; reflexivity].
      destruct e. apply kcenter_err in E. destruct E as [Hl Hk].
      split; [exact Hk | left]. destruct g; [reflexivity | discriminate].
Qed.

Lemma select_each_spec groups k rs :
  select_each_independently groups k = Ok rs ->
  Forall2 (fun g r => NoDup r /\ (forall x, In x r -> (x < length g)%nat) /\
                      length r = Nat.min (Z.to_nat k) (length g)) groups rs.
Proof.
  revert rs. induction groups as [|g gs IH]; intros rs; simpl.
  - intros [= <-]. constructor.
  - destruct (select_k_center g k) as [r|e] eqn:E; [| discriminate].
    destruct (select_each_independently gs k) as [rs'|e]; [| discriminate].
    intros [= <-]. constructor; [| apply IH; reflexivity].
    destruct (kcenter_valid dist_ltb dist_ltb_irrefl dist_ltb_trans dist_ltb_cotrans
                (length g) (poly_dist g) k r E) as [Hn Hr].
    split; [exact Hn |]. split; [exact Hr |].
    rewrite (kcenter_length dist_ltb dist_ltb_irrefl dist_ltb_trans dist_ltb_cotrans
               (length g) (poly_dist g) k r E).
    destruct (k <=? 0)%Z eqn:Hk; [apply Z.leb_le in Hk | reflexivity].
    replace (Z.to_nat k) with 0%nat by lia. reflexivity.
Qed.

Lemma NoDup_map_nth (g idxs : list nat) :
  NoDup g -> NoDup idxs -> (forall x, In x idxs -> (x < length g)%nat) ->
  NoDup (map (fun idx => nth idx g 0%nat) idxs).
Proof.
  intros Hg. induction idxs as [|a idxs IH]; intros Hi Hr; simpl; [constructor |].
  inversion Hi as [|? ? Ha Hi']; subst. constructor.
  - intros Hin. apply in_map_iff in Hin. destruct Hin as [b [Hb Hbin]].
    assert (b = a).
    { apply (proj1 (NoDup_nth g 0%nat) Hg); [apply Hr; right; exact Hbin | apply Hr; left; reflexivity | exact Hb]. }
    subst b. exact (Ha Hbin).
  - apply IH; [exact Hi' | intros x Hx; apply Hr; right; exact Hx].
Qed.

Lemma blocks_spec k pids rs :
  Forall (@NoDup nat) pids ->
  Forall2 (fun g r => NoDup r /\ (forall x, In x r -> (x < length g)%nat) /\
                      length r = Nat.min (Z.to_nat k) (length g)) pids rs ->
  Forall2 (fun g b => NoDup b /\ incl b g /\ length b = Nat.min (Z.to_nat k) (length g))
    pids (map (fun p => map (fun idx => nth idx (fst p) 0%nat) (snd p)) (combine pids rs)) /\
  existsb (fun ids => (Z.of_nat (length ids) <? k)%Z) rs =
  existsb (fun g => (Z.of_nat (length g) <? k)%Z) pids.
Proof.
  intros Hnd HF. induction HF as [|g r pids rs [Hr [Hb Hl]] HF IH]; simpl; [split; [constructor | reflexivity] |].
  inversion Hnd as [|? ? Hg Hnd']; subst. destruct (IH Hnd') as [IH1 IH2].
  split.
  - constructor; [| exact IH1]. split; [apply NoDup_map_nth; assumption |]. split.
    + intros x Hx. apply in_map_iff in Hx. destruct Hx as [i [<- Hi]]. apply nth_In. apply Hb. exact Hi.
    + rewrite length_map. exact Hl.
  - rewrite IH2, Hl. f_equal.
    destruct (Z.ltb_spec (Z.of_nat (Nat.min (Z.to_nat k) (length g))) k);
      destruct (Z.ltb_spec (Z.of_nat (length g)) k); try reflexivity; lia.
Qed.

Lemma Forall2_map_l {A B C} (R : B -> C -> Prop) (h : A -> B) l l' :
  Forall2 R (map h l) l' <-> Forall2 (fun x y => R (h x) y) l l'.
Proof.
  revert l'. induction l as [|x l IH]; intros l'; simpl; split; intros H.
  - inversion H. constructor.
  - inversion H. constructor.
  - inversion H; subst. constructor; [assumption | apply IH; assumption].
  - inversion H; subst. constructor; [assumption | apply IH; assumption].
Qed.

Lemma select_per_group_spec st pids k :
  Forall (@NoDup nat) pids ->
  (select_per_group st pids k = None <-> (0 < k)%Z /\ In [] pids) /\
  (forall sel short, select_per_group st pids k = Some (sel, short) ->
     exists blocks, sel = concat blocks /\
       Forall2 (fun g b => NoDup b /\ incl b g /\ length b = Nat.min (Z.to_nat k) (length g))
         pids blocks /\
       short = existsb (fun g => (Z.of_nat (length g) <? k)%Z) pids).
Proof.
  intros Hnd. unfold select_per_group. rewrite per_group_independent.
  set (h := fun i => points (shape_at st i)).
  assert (Hin : In [] (map (map h) pids) <-> In [] pids).
  { rewrite in_map_iff. split.
    - intros [g [Hg Hin]]. apply map_eq_nil in Hg. subst g. exact Hin.
    - intros Hin. exists []. split; [reflexivity | exact Hin]. }
  destruct (select_each_independently (map (map h) pids) k) as [rs|e] eqn:E.
  - split.
    + split; [discriminate |]. intros [Hk Hp].
      destruct (proj2 (select_each_Err (map (map h) pids) k) (conj Hk (proj2 Hin Hp))) as [e He].
      congruence.
    + intros sel short [= <- <-].
      apply select_each_spec in E. apply Forall2_map_l in E.
      assert (E' : Forall2 (fun g r => NoDup r /\ (forall x, In x r -> (x < length g)%nat) /\
                      length r = Nat.min (Z.to_nat k) (length g)) pids rs).
      { clear Hin Hnd. induction E as [|g r pids rs [H1 [H2 H3]] E IH]; [constructor |]. constructor; [| exact IH].
        rewrite length_map in H2, H3. split; [exact H1 | split; assumption]. }
      destruct (blocks_spec k pids rs Hnd E') as [H1 H2].
      rewrite map_map. simpl. rewrite map_id.
      eexists. split; [reflexivity |]. split; [exact H1 |].
      rewrite <- H2. clear. induction rs as [|r rs IH]; simpl; [reflexivity |].
      first [reflexivity | f_equal; exact IH].
  - split; [| discriminate]. split; [intros _ | reflexivity].
    destruct (proj1 (select_each_Err (map (map h) pids) k) (ex_intro _ e E)) as [Hk Hp].
    split; [exact Hk | apply Hin; exact Hp].
Qed.

Lemma concat_blocks_NoDup (f : nat -> option nat) m s blocks :
  Forall2 (fun j b => NoDup b /\ forall x, In x b -> f x = Some j) (seq s m) blocks ->
  NoDup (concat blocks) /\ forall x j, In x (concat blocks) -> f x = Some j -> (s <= j)%nat.
Proof.
  revert s blocks. induction m as [|m IH]; intros s blocks H; simpl in H.
  - inversion H; subst. simpl. split; [constructor | intros x j []].
  - inversion H as [|? b ? bs [Hb Hbf] Hrest]; subst. simpl.
    destruct (IH (S s) bs Hrest) as [IH1 IH2]. split.
    + apply NoDup_app; [exact Hb | exact IH1 |].
      intros x Hx Hx'. pose proof (IH2 x s Hx' (Hbf x Hx)). lia.
    + intros x j Hx Hf. apply in_app_or in Hx. destruct Hx as [Hx | Hx].
      * rewrite (Hbf x Hx) in Hf. injection Hf as ->. lia.
      * pose proof (IH2 x j Hx Hf). lia.
Qed.

Lemma grouped_selection st f n ids k :
  NoDup ids -> (forall x, In x ids -> exists j, f x = Some j /\ (j < n)%nat) ->
  (match group_into f n ids with None => None | Some pids => select_per_group st pids k end = None <->
     (0 < k)%Z /\ exists j, (j < n)%nat /\ filter (in_group f j) ids = []) /\
  (forall sel short,
     match group_into f n ids with None => None | Some pids => select_per_group st pids k end =
       Some (sel, short) ->
     NoDup sel /\
     (exists blocks, sel = concat blocks /\
        Forall2 (fun j b => NoDup b /\ incl b (filter (in_group f j) ids) /\
                   length b = Nat.min (Z.to_nat k) (length (filter (in_group f j) ids)))
          (seq 0 n) blocks) /\
     (short = true <-> exists j, (j < n)%nat /\ (Z.of_nat (length (filter (in_group f j) ids)) < k)%Z)).
Proof.
  intros Hnd Hf. rewrite (group_into_Some f n ids Hf).
  assert (Hnd' : Forall (@NoDup nat) (map (fun j => filter (in_group f j) ids) (seq 0 n))).
  { apply Forall_forall. intros g Hg. apply in_map_iff in Hg. destruct Hg as [j [<- _]].
    apply NoDup_filter. exact Hnd. }
  destruct (select_per_group_spec st _ k Hnd') as [HN HS]. split.
  - rewrite HN. split; intros [Hk H]; split; try exact Hk.
    + apply in_map_iff in H. destruct H as [j [Hj Hin]]. apply in_seq in Hin.
      exists j. split; [lia | exact Hj].
    + destruct H as [j [Hj He]]. apply in_map_iff. exists j. split; [exact He |]. apply in_seq. lia.
  - intros sel short Hs. destruct (HS sel short Hs) as [blocks [-> [HF Hsh]]].
    apply Forall2_map_l in HF. split; [| split].
    + apply (fun H => proj1 (concat_blocks_NoDup f n 0 blocks H)).
      refine (Forall2_impl _ _ HF). intros j b [Hb [Hinc _]]. split; [exact Hb |].
      intros x Hx. apply Hinc in Hx. apply filter_In in Hx. destruct Hx as [_ Hx].
      unfold in_group in Hx. destruct (f x) as [j'|]; [| discriminate].
      apply Nat.eqb_eq in Hx. subst. reflexivity.
    + exists blocks. split; [reflexivity | exact HF].
    + rewrite Hsh, existsb_exists. split.
      * intros [g [Hg Hlt]]. apply in_map_iff in Hg. destruct Hg as [j [<- Hin]].
        apply in_seq in Hin. exists j. split; [lia | apply Z.ltb_lt; exact Hlt].
      * intros [j [Hj Hlt]]. exists (filter (in_group f j) ids). split.
        -- apply in_map_iff. exists j. split; [reflexivity | apply in_seq; lia].
        -- apply Z.ltb_lt. exact Hlt.
Qed.

Lemma msgs_region (k : Z) (short c : bool) :
  In (CouldNotSelectPerAR k)
    ((if short then [CouldNotSelectPerAR k] else []) ++ (if c then [SomeShapesContiguous] else []))
  <-> short = true.
Proof. destruct short, c; simpl; intuition discriminate. Qed.

Lemma select_shapes_region_generic {L} (L_eqb : L -> L -> bool) cp labs cl st k :
  let ids := deref st (active_shape_ids st) in
  let grp j := filter (in_group (region_of cp st) j) ids in
  let nars := length (active_regions st) in
  (active_shape_ids st < length (heap st))%nat -> NoDup ids ->
  (forall x, In x ids -> exists j, region_of cp st x = Some j /\ (j < nars)%nat) ->
  (k < Z.of_nat (length ids))%Z ->
  (select_shapes L_eqb cp PerRegion labs cl st k = None <->
     (0 < k)%Z /\ exists j, (j < nars)%nat /\ grp j = []) /\
  (forall st2 msgs, select_shapes L_eqb cp PerRegion labs cl st k = Some (st2, msgs) ->
     let sel := deref st2 (selected_shape_ids st2) in
     deref st2 (active_shape_ids st2) = ids /\ NoDup sel /\
     (exists blocks, sel = concat blocks /\
        Forall2 (fun j b => NoDup b /\ incl b (grp j) /\
                   length b = Nat.min (Z.to_nat k) (length (grp j)))
          (seq 0 nars) blocks) /\
     (In (CouldNotSelectPerAR k) msgs <->
        exists j, (j < nars)%nat /\ (Z.of_nat (length (grp j)) < k)%Z)).
Proof.
  cbn zeta. intros Ha Hnd Hr Hk.
  destruct (grouped_selection st (region_of cp st) (length (active_regions st))
              (deref st (active_shape_ids st)) k Hnd Hr) as [GN GS].
  unfold select_shapes. cbv beta iota zeta.
  replace (Z.of_nat (length (deref st (active_shape_ids st))) <=? k)%Z with false
    by (symmetry; apply Z.leb_gt; exact Hk).
  destruct (group_into (region_of cp st) (length (active_regions st))
              (deref st (active_shape_ids st))) as [pids|] eqn:Eg;
    [destruct (select_per_group st pids k) as [[sel short]|] eqn:Es |].
  - split; [split; [discriminate | intros H; apply GN in H; discriminate] |].
    intros st2 msgs [= <- <-]. destruct (GS sel short eq_refl) as (H1 & H2 & H3).
    cbn [selected_shape_ids active_shape_ids].
    assert (D1 : deref (mkState (shapes st) (active_regions st) (heap st ++ [sel])
                          (active_shape_ids st) (length (heap st))) (active_shape_ids st)
                 = deref st (active_shape_ids st))
      by (unfold deref; simpl; apply app_nth1; exact Ha).
    assert (D2 : deref (mkState (shapes st) (active_regions st) (heap st ++ [sel])
                          (active_shape_ids st) (length (heap st))) (length (heap st)) = sel)
      by (unfold deref; simpl; apply nth_app_length).
    rewrite D1, D2, msgs_region. split; [reflexivity |]. split; [exact H1 | split; [exact H2 | exact H3]].
  - split; [split; [intros _; apply GN; reflexivity | reflexivity] | discriminate].
  - split; [split; [intros _; apply GN; reflexivity | reflexivity] | discriminate].
Qed.

Lemma find_index_existsb {A} (f : A -> bool) l :
  existsb f l = true -> exists j, find_index f l = Some j /\ (j < length l)%nat.
Proof.
  induction l as [|x l IH]; simpl; [discriminate |].
  destruct (f x); simpl.
  - intros _. exists 0%nat. split; [reflexivity | lia].
  - intros H. destruct (IH H) as [j [Hj Hlt]]. rewrite Hj. exists (S j). split; [reflexivity | lia].
Qed.

(** After filter_by_ar, select_shapes with k per active region
    (clustering_index 2) never fails on a shape outside the regions: it fails exactly when [k > 0] and some
    region holds none of the active shapes (a shape counts for the first
    region containing its centroid).  Otherwise the new selection is, region
    after region, [min k n_j] distinct active shapes of region [j], where
    [n_j] is the number of active shapes of that region; the active shapes
    are left as they are, and the warning "Could not select k shapes per AR"
    is shown exactly when some region has fewer than [k] active shapes. *)
Theorem select_shapes_per_region {L} (L_eqb : L -> L -> bool) cp labs cl st k :
  let st1 := filter_by_ar cp st in
  let ids := deref st1 (active_shape_ids st1) in
  let grp j := filter (in_group (region_of cp st1) j) ids in
  let nars := length (active_regions st) in
  (k < Z.of_nat (length ids))%Z ->
  (select_shapes L_eqb cp PerRegion labs cl st1 k = None <->
     (0 < k)%Z /\ exists j, (j < nars)%nat /\ grp j = []) /\
  (forall st2 msgs, select_shapes L_eqb cp PerRegion labs cl st1 k = Some (st2, msgs) ->
     let sel := deref st2 (selected_shape_ids st2) in
     deref st2 (active_shape_ids st2) = ids /\ NoDup sel /\
     (exists blocks, sel = concat blocks /\
        Forall2 (fun j b => NoDup b /\ incl b (grp j) /\
                   length b = Nat.min (Z.to_nat k) (length (grp j)))
          (seq 0 nars) blocks) /\
     (In (CouldNotSelectPerAR k) msgs <->
        exists j, (j < nars)%nat /\ (Z.of_nat (length (grp j)) < k)%Z)).
Proof.
  cbn zeta. intros Hk.
  destruct (filter_by_ar_deref cp st) as (_ & _ & Ha & Hh & Hs & Hr). cbn zeta in *.
  pose proof (filter_by_ar_NoDup cp st) as Hnd. cbn zeta in Hnd.
  pose proof (fun x => filter_by_ar_In cp st x) as Hin. cbn zeta in Hin.
  rewrite <- Hr.
  set (st1 := filter_by_ar cp st) in *. clearbody st1.
  apply (select_shapes_region_generic L_eqb cp labs cl st1 k); [| exact Hnd | | exact Hk].
  - rewrite Ha, Hh, length_app. simpl. lia.
  - intros x Hx. apply Hin in Hx. destruct Hx as [_ Hc]. unfold region_of.
    assert (E : shape_at st1 x = shape_at st x) by (unfold shape_at; rewrite Hs; reflexivity).
    rewrite E, Hr. apply find_index_existsb. exact Hc.
Qed.

Lemma msgs_label (k : Z) (short c : bool) :
  In (CouldNotSelectPerLabel k)
    ((if short then [CouldNotSelectPerLabel k] else []) ++ (if c then [SomeShapesContiguous] else []))
  <-> short = true.
Proof. destruct short, c; simpl; intuition discriminate. Qed.

Lemma contiguous_only (c : bool) :
  Forall (eq SomeShapesContiguous) (if c then [SomeShapesContiguous] else []).
Proof. destruct c; repeat constructor. Qed.

Lemma select_shapes_label_generic {L} (L_eqb : L -> L -> bool) cp ls cl st k :
  let act := deref st (active_shape_ids st) in
  let ids := filter_by_labels L_eqb cl ls act in
  let grp j := filter (in_group (label_of L_eqb cl ls) j) ids in
  (active_shape_ids st < length (heap st))%nat -> NoDup act ->
  (ids = [] -> select_shapes L_eqb cp PerLabel (Some ls) cl st k =
               Some (st, [NoShapesWithSelectedLabels])) /\
  (ids <> [] -> (Z.of_nat (length ids) <= k)%Z ->
     exists st2 msgs, select_shapes L_eqb cp PerLabel (Some ls) cl st k =
                        Some (st2, CouldNotSelectAll k (length act) :: msgs) /\
       deref st2 (active_shape_ids st2) = act /\ deref st2 (selected_shape_ids st2) = ids /\
       Forall (eq SomeShapesContiguous) msgs) /\
  (ids <> [] -> (k < Z.of_nat (length ids))%Z ->
     (select_shapes L_eqb cp PerLabel (Some ls) cl st k = None <->
        (0 < k)%Z /\ exists j, (j < length ls)%nat /\ grp j = []) /\
     (forall st2 msgs, select_shapes L_eqb cp PerLabel (Some ls) cl st k = Some (st2, msgs) ->
        let sel := deref st2 (selected_shape_ids st2) in
        deref st2 (active_shape_ids st2) = act /\ NoDup sel /\
        (exists blocks, sel = concat blocks /\
           Forall2 (fun j b => NoDup b /\ incl b (grp j) /\
                      length b = Nat.min (Z.to_nat k) (length (grp j)))
             (seq 0 (length ls)) blocks) /\
        (In (CouldNotSelectPerLabel k) msgs <->
           exists j, (j < length ls)%nat /\ (Z.of_nat (length (grp j)) < k)%Z))).
Proof.
  cbn zeta. intros Ha Hnd.
  assert (Hlab : forall x, In x (filter_by_labels L_eqb cl ls (deref st (active_shape_ids st))) ->
                   exists j, label_of L_eqb cl ls x = Some j /\ (j < length ls)%nat).
  { intros x Hx. unfold filter_by_labels in Hx. apply filter_In in Hx. destruct Hx as [_ Hx].
    unfold label_of. destruct (dict_get (Z.of_nat x) cl) as [lab|]; [| discriminate].
    apply find_index_existsb. exact Hx. }
  assert (Hnd' : NoDup (filter_by_labels L_eqb cl ls (deref st (active_shape_ids st))))
    by (apply NoDup_filter; exact Hnd).
  assert (DA : forall h2, deref (mkState (shapes st) (active_regions st) (heap st ++ h2)
                                  (active_shape_ids st) (selected_shape_ids st))
                            (active_shape_ids st) = deref st (active_shape_ids st))
    by (intros h2; unfold deref; cbn [heap]; apply app_nth1; exact Ha).
  unfold select_shapes. cbv beta iota zeta.
  set (F := filter_by_labels L_eqb cl ls (deref st (active_shape_ids st))) in *.
  clearbody F.
  destruct (grouped_selection
              (mkState (shapes st) (active_regions st) (heap st ++ [F])
                 (active_shape_ids st) (selected_shape_ids st))
              (label_of L_eqb cl ls) (length ls) F k Hnd' Hlab) as [GN GS].
  assert (D0 : deref (mkState (shapes st) (active_regions st) (heap st ++ [F])
                        (active_shape_ids st) (selected_shape_ids st)) (length (heap st)) = F)
    by (unfold deref; cbn [heap]; apply nth_app_length).
  destruct F as [|x xs].
  { split; [intros _; reflexivity |].
    split; intros H; exfalso; apply H; reflexivity. }
  split; [discriminate |]. cbv beta iota. rewrite D0.
  split.
  - intros _ Hle. replace (Z.of_nat (length (x :: xs)) <=? k)%Z with true
      by (symmetry; apply Z.leb_le; exact Hle).
    cbv beta iota. cbn [shapes active_regions heap active_shape_ids selected_shape_ids].
    eexists; eexists. split; [reflexivity |].
    split; [apply (DA [x :: xs]) |]. split; [exact D0 | apply contiguous_only].
  - intros _ Hlt. replace (Z.of_nat (length (x :: xs)) <=? k)%Z with false
      by (symmetry; apply Z.leb_gt; exact Hlt).
    cbv beta iota.
    destruct (group_into (label_of L_eqb cl ls) (length ls) (x :: xs)) as [pids|] eqn:Eg;
      [destruct (select_per_group (mkState (shapes st) (active_regions st) (heap st ++ [x :: xs])
                   (active_shape_ids st) (selected_shape_ids st)) pids k) as [[sel short]|] eqn:Es |].
    + split; [split; [discriminate | intros H; apply GN in H; discriminate] |].
      intros st2 msgs [= <- <-]. destruct (GS sel short eq_refl) as (H1 & H2 & H3).
      cbn [shapes active_regions heap active_shape_ids selected_shape_ids].
      assert (D1 : deref (mkState (shapes st) (active_regions st) ((heap st ++ [x :: xs]) ++ [sel])
                            (active_shape_ids st) (length (heap st ++ [x :: xs])))
                     (active_shape_ids st) = deref st (active_shape_ids st)).
      { rewrite <- app_assoc. unfold deref. cbn [heap]. apply app_nth1. exact Ha. }
      assert (D2 : deref (mkState (shapes st) (active_regions st) ((heap st ++ [x :: xs]) ++ [sel])
                            (active_shape_ids st) (length (heap st ++ [x :: xs])))
                     (length (heap st ++ [x :: xs])) = sel)
        by (unfold deref; cbn [heap]; apply nth_app_length).
      rewrite D1, D2, msgs_label. split; [reflexivity |].
      split; [exact H1 | split; [exact H2 | exact H3]].
    + split; [split; [intros _; apply GN; reflexivity | reflexivity] | discriminate].
    + split; [split; [intros _; apply GN; reflexivity | reflexivity] | discriminate].
Qed.

(** After filter_by_ar, select_shapes with k per label (clustering_index
    3): without loaded
    labels it only warns; when no active shape has a selected label it only
    warns; when at most [k] active shapes have a selected label they are all
    selected, as a new list, with the warning "Could not select k shapes,
    selected n" whose [n] counts all active shapes, not only those with a
    selected label.  Otherwise it fails exactly when [k > 0] and some
    selected label has none of these shapes (a label counts at its first
    position in the selected labels), and else selects, label after label,
    [min k n_j] distinct shapes of label [j], warning "Could not select k
    shapes per label" exactly when some label has fewer than [k] of them;
    the active shapes are left as they are. *)
Theorem select_shapes_per_label {L} (L_eqb : L -> L -> bool) cp labs cl st k :
  let st1 := filter_by_ar cp st in
  let act := deref st1 (active_shape_ids st1) in
  match labs with
  | None => select_shapes L_eqb cp PerLabel labs cl st1 k = Some (st1, [NoLabelsLoaded])
  | Some ls =>
    let ids := filter_by_labels L_eqb cl ls act in
    let grp j := filter (in_group (label_of L_eqb cl ls) j) ids in
    (ids = [] -> select_shapes L_eqb cp PerLabel labs cl st1 k =
                 Some (st1, [NoShapesWithSelectedLabels])) /\
    (ids <> [] -> (Z.of_nat (length ids) <= k)%Z ->
       exists st2 msgs, select_shapes L_eqb cp PerLabel labs cl st1 k =
                          Some (st2, CouldNotSelectAll k (length act) :: msgs) /\
         deref st2 (active_shape_ids st2) = act /\ deref st2 (selected_shape_ids st2) = ids /\
         Forall (eq SomeShapesContiguous) msgs) /\
    (ids <> [] -> (k < Z.of_nat (length ids))%Z ->
       (select_shapes L_eqb cp PerLabel labs cl st1 k = None <->
          (0 < k)%Z /\ exists j, (j < length ls)%nat /\ grp j = []) /\
       (forall st2 msgs, select_shapes L_eqb cp PerLabel labs cl st1 k = Some (st2, msgs) ->
          let sel := deref st2 (selected_shape_ids st2) in
          deref st2 (active_shape_ids st2) = act /\ NoDup sel /\
          (exists blocks, sel = concat blocks /\
             Forall2 (fun j b => NoDup b /\ incl b (grp j) /\
                        length b = Nat.min (Z.to_nat k) (length (grp j)))
               (seq 0 (length ls)) blocks) /\
          (In (CouldNotSelectPerLabel k) msgs <->
             exists j, (j < length ls)%nat /\ (Z.of_nat (length (grp j)) < k)%Z)))
  end.
Proof.
  cbn zeta. destruct labs as [ls|]; [| reflexivity].
  destruct (filter_by_ar_deref cp st) as (_ & _ & Ha & Hh & _ & _). cbn zeta in *.
  pose proof (filter_by_ar_NoDup cp st) as Hnd. cbn zeta in Hnd.
  set (st1 := filter_by_ar cp st) in *. clearbody st1.
  apply select_shapes_label_generic; [| exact Hnd].
  rewrite Ha, Hh, length_app. simpl. lia.
Qed.

(** ** Instances of the hypotheses *)

Definition main_manager : manager :=
  mkManager MAIN (mkState three_shapes [] [[0; 1; 2]%nat] 0 0) [] [] [] [] false false.

Definition three_clicks : list edit :=
  [Click (mkPoint 0 0); Click (mkPoint 1 0); Undo; Click (mkPoint 1 0); Click (mkPoint 0 1)].

Lemma landmark_confirm_button_sound_witness :
  mstate main_manager = MAIN /\
  exists m1, toggle_landmark_selection main_manager = Some m1 /\
  exists m2, run_lnd_edits (fun _ _ => true) m1 three_clicks = Some m2 /\
    mstate m2 = SELECTING_LND /\
    confirm_lnd_enabled m2 = (2 <? length (current_lnd_points m2))%nat /\
    (confirm_lnd_enabled m2 = true ->
       exists m3, confirm_landmark (fun _ _ => 1) m2 = Some m3).
Proof.
  split; [reflexivity |].
  apply (landmark_confirm_button_sound (fun _ _ => true) (fun _ _ => 1) main_manager three_clicks).
  reflexivity.
Defined.

Lemma ar_confirm_button_sound_witness :
  mstate main_manager = MAIN /\
  exists m1, toggle_ar_selection main_manager = Some m1 /\
  exists m2, run_ar_edits (fun _ _ => true) m1 three_clicks = Some m2 /\
    mstate m2 = SELECTING_AR /\
    confirm_ar_enabled m2 = (2 <? length (current_ar_points m2))%nat /\
    (confirm_ar_enabled m2 = true -> exists m3, confirm_ar (fun _ _ => true) m2 = Some m3).
Proof.
  split; [reflexivity |].
  apply (ar_confirm_button_sound (fun _ _ => true) main_manager three_clicks).
  reflexivity.
Defined.

Definition labels_example : list (Z * nat) := [(7%Z, 1%nat); (9%Z, 2%nat)].
Definition orig_example : list (option Z) := [Some 9%Z; None; Some 7%Z; Some 9%Z].

Lemma load_cell_labels_spec_witness :
  NoDup (map fst labels_example) /\
  (has_original_ids orig_example = true ->
   forall z v, dict_get z (load_cell_labels orig_example labels_example) = Some v <->
     exists j o, z = Z.of_nat j /\ nth_error orig_example j = Some (Some o) /\
       (forall j', (j < j')%nat -> nth_error orig_example j' <> Some (Some o)) /\
       dict_get o labels_example = Some v).
Proof.
  assert (Hn : NoDup (map fst labels_example)).
  { simpl. constructor; [simpl; intros [H | []]; discriminate |].
    constructor; [intros [] | constructor]. }
  split; [exact Hn |].
  exact (proj2 (load_cell_labels_spec orig_example labels_example Hn)).
Defined.

Definition interval_cp (ar : list point) (c : point) : bool :=
  Qle_bool (px (nth 0 ar (mkPoint 0 0))) (px c) && Qle_bool (px c) (px (nth 1 ar (mkPoint 0 0))).

Definition two_intervals : list (list point) :=
  [[mkPoint 0 0; mkPoint 15 0]; [mkPoint 15 0; mkPoint 30 0]].

Definition region_state : app_state := mkState three_shapes two_intervals [] 0 0.

Lemma select_shapes_per_region_witness :
  (2 < Z.of_nat (length (deref (filter_by_ar interval_cp region_state)
                          (active_shape_ids (filter_by_ar interval_cp region_state)))))%Z /\
  (select_shapes Nat.eqb interval_cp PerRegion None [] (filter_by_ar interval_cp region_state) 2 = None <->
     (0 < 2)%Z /\ exists j, (j < length two_intervals)%nat /\
       filter (in_group (region_of interval_cp (filter_by_ar interval_cp region_state)) j)
         (deref (filter_by_ar interval_cp region_state)
            (active_shape_ids (filter_by_ar interval_cp region_state))) = []).
Proof.
  assert (H : (2 < Z.of_nat (length (deref (filter_by_ar interval_cp region_state)
                          (active_shape_ids (filter_by_ar interval_cp region_state)))))%Z)
    by (vm_compute; reflexivity).
  split; [exact H |].
  exact (proj1 (select_shapes_per_region Nat.eqb interval_cp None [] region_state 2 H)).
Defined.
